(** * DeepSurv example script: a shallow embedding and its properties

    The development follows [examples/00_understanding_deepsurv.py].  The
    script is a straight-line pipeline: directory checks, array loading, a
    sort of the three training arrays by descending survival time, the
    definition of the loss closure, the model, the [fit] call with two
    callbacks, the reload of the checkpoint and the concordance index.

    Numbers.  The arrays of the script hold floating-point numbers.  Two
    models of the loss are given.  In the first ([Tensor], [Loss]) an array
    element is a real number ([R]) and arithmetic is exact; it is used for
    what the closure computes as an expression: which entries are paired by
    broadcasting, which are summed, which shapes are rejected.  There the
    one operation of the loss that is not total on the reals, the
    logarithm, fails with [NonFinite] outside its domain.  In the second
    ([Float32]) an element is a single-precision value: a number, an
    infinity or no number, with overflow to the infinities, underflow to
    zero and a rounding that is a parameter; it is used for what depends on
    the range of the format: whether the loss is a number, and the order
    and the sign of the transformed predictions.  In both models a tensor
    keeps its rank, its shape and its entries, so that transposition and
    broadcasting behave as in the library the script calls.

    Library versions.  The checkpoint callback is given in its two
    variants: the one that starts with plus infinity as its best value, and
    the one that starts without a best value and always saves the first
    epoch. *)

From stdpp Require Import gmap strings.
From Stdlib Require Import String.
From Stdlib Require Import Reals Lra Lia List Permutation Sorted Bool Arith.
Import ListNotations.

(** ** Paths, errors and results of fallible operations *)

(** A path is the list of its components, as [pathlib] keeps it. *)
Abbreviation path := (list string).

(** The exceptions the script can end with, and the one value the real
    numbers do not have. *)
Inductive error : Type :=
| ShapeError   (* operands whose shapes do not broadcast, or a bad axis *)
| NonFinite    (* a value that is not a real number: log of x <= 0 *)
| IndexError   (* an index outside the array *)
| ValueError (msg : string)
| EOFError
| OSError (file : path)
| FileNotFoundError (file : path)
| IsADirectoryError (file : path)
| FileExistsError (file : path)
| NotADirectoryError (file : path).

Inductive result (A : Type) : Type :=
| Ok (a : A)
| Err (e : error).
Arguments Ok {A} a.
Arguments Err {A} e.

Definition bind {A B : Type} (m : result A) (k : A -> result B) : result B :=
  match m with
  | Ok a => k a
  | Err e => Err e
  end.

Notation "x <- m ;; k" := (bind m (fun x => k))
  (at level 100, m at next level, right associativity).

Fixpoint mapM {A B : Type} (f : A -> result B) (l : list A) : result (list B) :=
  match l with
  | [] => Ok []
  | a :: t => b <- f a ;; bs <- mapM f t ;; Ok (b :: bs)
  end.

(** ** Tensors of rank at most two *)

Module Tensor.
Local Open Scope R_scope.

(** A [Matrix] carries its number of columns, so that the shapes (0, c) and
    (r, 0) are told apart; its number of rows is the length of [rows]. *)
Inductive tensor : Type :=
| Scalar (x : R)
| Vector (xs : list R)
| Matrix (ncols : nat) (rows : list (list R)).

Definition rank (t : tensor) : nat :=
  match t with
  | Scalar _ => 0
  | Vector _ => 1
  | Matrix _ _ => 2
  end.

Definition shape (t : tensor) : list nat :=
  match t with
  | Scalar _ => []
  | Vector xs => [length xs]
  | Matrix c rows => [length rows; c]
  end.

(** The output of a [Dense(units=1)] layer on a batch: shape (n, 1). *)
Definition column (ys : list R) : tensor :=
  Matrix 1 (map (fun y => [y]) ys).

(** Broadcasting reads a tensor of lower rank with leading dimensions 1. *)
Definition nrows (t : tensor) : nat :=
  match t with
  | Scalar _ => 1
  | Vector _ => 1
  | Matrix _ rows => length rows
  end.

Definition ncols (t : tensor) : nat :=
  match t with
  | Scalar _ => 1
  | Vector xs => length xs
  | Matrix c _ => c
  end.

Definition entry (t : tensor) (i j : nat) : R :=
  match t with
  | Scalar x => x
  | Vector xs => nth j xs 0
  | Matrix _ rows => nth j (nth i rows []) 0
  end.

Definition Rsum (xs : list R) : R := fold_right Rplus 0 xs.

(** *** Element-wise operations *)

Definition tmap (f : R -> R) (t : tensor) : tensor :=
  match t with
  | Scalar x => Scalar (f x)
  | Vector xs => Vector (map f xs)
  | Matrix c rows => Matrix c (map (map f) rows)
  end.

Definition tf_exp : tensor -> tensor := tmap exp.

Definition log_elem (x : R) : result R :=
  if Rlt_dec 0 x then Ok (ln x) else Err NonFinite.

Definition tf_log (t : tensor) : result tensor :=
  match t with
  | Scalar x => y <- log_elem x ;; Ok (Scalar y)
  | Vector xs => ys <- mapM log_elem xs ;; Ok (Vector ys)
  | Matrix c rows => rs <- mapM (mapM log_elem) rows ;; Ok (Matrix c rs)
  end.

(** *** Cumulative sum along axis 0 (the default axis) *)

Fixpoint cumsum_from (acc : R) (xs : list R) : list R :=
  match xs with
  | [] => []
  | x :: t => (acc + x) :: cumsum_from (acc + x) t
  end.

Definition vadd (u v : list R) : list R :=
  map (fun p => fst p + snd p) (combine u v).

Fixpoint cumsum_rows (acc : list R) (rows : list (list R)) : list (list R) :=
  match rows with
  | [] => []
  | r :: t => vadd acc r :: cumsum_rows (vadd acc r) t
  end.

Definition tf_cumsum (t : tensor) : result tensor :=
  match t with
  | Scalar _ => Err ShapeError
  | Vector xs => Ok (Vector (cumsum_from 0 xs))
  | Matrix c rows => Ok (Matrix c (cumsum_rows (repeat 0 c) rows))
  end.

(** *** Transposition: the identity below rank two *)

Definition tf_transpose (t : tensor) : tensor :=
  match t with
  | Matrix c rows =>
      Matrix (length rows)
        (map (fun j => map (fun r => nth j r 0) rows) (seq 0 c))
  | _ => t
  end.

(** *** Broadcasting binary operations *)

Definition bdim (a b : nat) : result nat :=
  if Nat.eqb a b then Ok a
  else if Nat.eqb a 1 then Ok b
  else if Nat.eqb b 1 then Ok a
  else Err ShapeError.

Definition bidx (n i : nat) : nat := if Nat.eqb n 1 then 0%nat else i.

Definition bcell (f : R -> R -> R) (a b : tensor) (i j : nat) : R :=
  f (entry a (bidx (nrows a) i) (bidx (ncols a) j))
    (entry b (bidx (nrows b) i) (bidx (ncols b) j)).

Definition broadcast (f : R -> R -> R) (a b : tensor) : result tensor :=
  r <- bdim (nrows a) (nrows b) ;;
  c <- bdim (ncols a) (ncols b) ;;
  Ok (match Nat.max (rank a) (rank b) with
      | 0%nat => Scalar (bcell f a b 0 0)
      | 1%nat => Vector (map (bcell f a b 0) (seq 0 c))
      | _ => Matrix c (map (fun i => map (bcell f a b i) (seq 0 c)) (seq 0 r))
      end).

Definition tf_sub : tensor -> tensor -> result tensor := broadcast Rminus.
Definition tf_mul : tensor -> tensor -> result tensor := broadcast Rmult.

(** *** Reduction over every axis *)

Definition reduce_sum (t : tensor) : R :=
  match t with
  | Scalar x => x
  | Vector xs => Rsum xs
  | Matrix _ rows => Rsum (map Rsum rows)
  end.

End Tensor.

(** ** The loss closure *)

Module Loss.
Import Tensor.
Local Open Scope R_scope.

(** [negative_log_likelihood E] is the closure handed to [model.compile];
    [y_true] is an argument of the closure that its body never reads. *)
Definition negative_log_likelihood (E : tensor)
  : tensor -> tensor -> result R :=
  fun y_true y_pred =>
    let hazard_ratio := tf_exp y_pred in
    cum <- tf_cumsum hazard_ratio ;;
    log_risk <- tf_log cum ;;
    uncensored_likelihood <- tf_sub (tf_transpose y_pred) log_risk ;;
    censored_likelihood <- tf_mul uncensored_likelihood E ;;
    let neg_likelihood_ := - reduce_sum censored_likelihood in
    let num_observed_events := 1 in
    let neg_likelihood := neg_likelihood_ / num_observed_events in
    Ok neg_likelihood.

(** The negative log partial likelihood as the specification words it: one
    contribution per patient, taken in batch order with the running sum of
    the hazard ratios, masked by the patient's event indicator. *)
Fixpoint contributions (acc : R) (patients : list (R * R)) : list R :=
  match patients with
  | [] => []
  | (score, event) :: rest =>
      let cumulative_hazard := acc + exp score in
      (score - ln cumulative_hazard) * event
        :: contributions cumulative_hazard rest
  end.

Definition textbook_nll (E y_pred : list R) : R :=
  - Rsum (contributions 0 (combine y_pred E)).

(** The log cumulative hazards of a batch of scores, in batch order. *)
Definition log_risk_of (ys : list R) : list R :=
  map ln (cumsum_from 0 (map exp ys)).

(** What the closure computes on a column of scores: every score is paired
    with every log cumulative hazard. *)
Definition broadcast_nll (E y_pred : list R) : R :=
  let n := length y_pred in
  let log_risk := log_risk_of y_pred in
  - Rsum (map (fun i =>
             Rsum (map (fun j => (nth j y_pred 0 - nth i log_risk 0) * nth j E 0)
                       (seq 0 n)))
           (seq 0 n)).

(** The sum of the products of two arrays, entry by entry. *)
Definition dot (u v : list R) : R :=
  Rsum (map (fun p => fst p * snd p) (combine u v)).

(** The closed form of [broadcast_nll]: n times the sum of the scores of
    the observed events, minus the number of observed events times the sum
    of the log cumulative hazards. *)
Definition broadcast_closed_form (E y_pred : list R) : R :=
  - (INR (length y_pred) * dot y_pred E - Rsum (log_risk_of y_pred) * Rsum E).

End Loss.

(** ** The sort of the training arrays by descending time *)

Module Sorting.

Section Argsort.
Context {K : Type} (leb : K -> K -> bool).

(** [np.argsort]: the indices that put the keys in ascending order.  The
    keys are paired with their positions and the pairs are sorted by key;
    equal keys keep their order. *)
Fixpoint insert (p : K * nat) (l : list (K * nat)) : list (K * nat) :=
  match l with
  | [] => [p]
  | q :: t => if leb (fst p) (fst q) then p :: q :: t else q :: insert p t
  end.

Definition sort_pairs (l : list (K * nat)) : list (K * nat) :=
  fold_right insert [] l.

Definition enumerate (keys : list K) : list (K * nat) :=
  combine keys (seq 0 (length keys)).

Definition argsort (keys : list K) : list nat :=
  map snd (sort_pairs (enumerate keys)).

(** The order of two pairs is the order of their keys. *)
Definition key_le (p q : K * nat) : Prop := leb (fst p) (fst q) = true.
End Argsort.

(** Indexing an array with an array of indices, [a[idx]]: one element per
    index, [IndexError] when an index is out of range. *)
Definition item {A : Type} (a : list A) (i : nat) : result A :=
  match nth_error a i with
  | Some x => Ok x
  | None => Err IndexError
  end.

Definition take {A : Type} (a : list A) (idx : list nat) : result (list A) :=
  mapM (item a) idx.

Definition Rleb (a b : R) : bool := if Rle_dec a b then true else false.

Record arrays : Type := {
  X_of : list (list R);   (* one row of covariates per patient *)
  Y_of : list R;          (* time to event, after [flatten] *)
  E_of : list R           (* event indicator *)
}.

(** [sort_idx = np.argsort(Y_train)[::-1]] *)
Definition sort_idx (Y_train : list R) : list nat := rev (argsort Rleb Y_train).

(** The three assignments [X_train = X_train[sort_idx]], and so on. *)
Definition sort_step (d : arrays) : result arrays :=
  let idx := sort_idx (Y_of d) in
  X_train <- take (X_of d) idx ;;
  Y_train <- take (Y_of d) idx ;;
  E_train <- take (E_of d) idx ;;
  Ok {| X_of := X_train; Y_of := Y_train; E_of := E_train |}.

(** The patients of a data set: the rows of the three arrays side by side. *)
Definition patients (d : arrays) : list (list R * (R * R)) :=
  combine (X_of d) (combine (Y_of d) (E_of d)).

(** A training set of one patient, for examples. *)
Definition one_patient : arrays :=
  {| X_of := [[0%R]]; Y_of := [1%R]; E_of := [1%R] |}.

End Sorting.


(** ** Directories and array files *)

Module Files.

(** A file is an array file that [np.load] can read, or any other file,
    kept with the exception [np.load] raises on it: [ValueError] for
    contents that are not in the array format, [EOFError] for an empty
    file, and so on. *)
Inductive node : Type :=
| Dir
| NpyFile (data : Tensor.tensor)
| Unreadable (raised : error).

(** The part of the world the script touches: the file system, the array
    files read so far and the texts printed so far. *)
Record world : Type := {
  files : gmap path node;
  reads : list path;
  stdout : list string
}.

Definition PATH_DATA : path := [".."; "deepsurvk"; "datasets"; "data"]%string.
Definition PATH_MODELS : path := ["models"]%string.
Definition datasets (file : string) : path :=
  [".."; "deepsurvk"; "datasets"; file]%string.

Definition path_exists (p : path) (w : world) : bool :=
  bool_decide (is_Some (files w !! p)).

Definition print (line : string) (w : world) : world :=
  {| files := files w; reads := reads w; stdout := stdout w ++ [line] |}.

(** [prefixes p]: the non-empty prefixes of [p], shortest first, [p] last. *)
Fixpoint prefixes (p : path) : list path :=
  match p with
  | [] => []
  | c :: t => [c] :: map (cons c) (prefixes t)
  end.

Definition ensure_dir (fs : gmap path node) (q : path)
  : result (gmap path node) :=
  match fs !! q with
  | None => Ok (<[q := Dir]> fs)
  | Some Dir => Ok fs
  | Some (NpyFile _) => Err (NotADirectoryError q)
  | Some (Unreadable _) => Err (NotADirectoryError q)
  end.

Fixpoint ensure_dirs (qs : list path) (fs : gmap path node)
  : result (gmap path node) :=
  match qs with
  | [] => Ok fs
  | q :: rest => fs' <- ensure_dir fs q ;; ensure_dirs rest fs'
  end.

(** [p.mkdir(parents=True)]: missing ancestors are created, an existing
    target is an error. *)
Definition mkdir_parents (p : path) (fs : gmap path node)
  : result (gmap path node) :=
  match fs !! p with
  | Some _ => Err (FileExistsError p)
  | None => ensure_dirs (prefixes p) fs
  end.

(** A step of the script either returns a value or raises, and leaves a
    world behind in both cases. *)
Definition io (A : Type) : Type := world -> result A * world.

Definition ret {A : Type} (a : A) : io A := fun w => (Ok a, w).

Definition raise {A : Type} (e : error) : io A := fun w => (Err e, w).

Definition and_then {A B : Type} (m : io A) (k : A -> io B) : io B :=
  fun w =>
    match m w with
    | (Ok a, w') => k a w'
    | (Err e, w') => (Err e, w')
    end.

Notation "x <~ m ;; k" := (and_then m (fun x => k))
  (at level 100, m at next level, right associativity).

Definition tab : string := String (Ascii.ascii_of_nat 9) EmptyString.

(** The message of the [ValueError] of line 20. *)
Definition data_directory_message : string :=
  "The directory ../deepsurvk/datasets/data does not exist.".

(** Lines 19 to 26: the two directory checks. *)
Definition check_directories : io unit :=
  fun w =>
    if negb (path_exists PATH_DATA w) then
      (Err (ValueError data_directory_message), w)
    else if negb (path_exists PATH_MODELS w) then
      let w1 :=
        print ("Creating models directory in models..." ++ tab)%string w in
      match mkdir_parents PATH_MODELS (files w1) with
      | Ok fs' =>
          (Ok tt, print "DONE!"
                    {| files := fs'; reads := reads w1; stdout := stdout w1 |})
      | Err e => (Err e, w1)
      end
    else (Ok tt, w).

(** [np.load(file)] *)
Definition np_load (file : path) : io Tensor.tensor :=
  fun w =>
    match files w !! file with
    | Some (NpyFile data) =>
        (Ok data,
         {| files := files w; reads := reads w ++ [file]; stdout := stdout w |})
    | Some (Unreadable raised) => (Err raised, w)
    | Some Dir => (Err (IsADirectoryError file), w)
    | None => (Err (FileNotFoundError file), w)
    end.

Record loaded : Type := {
  X_train : Tensor.tensor; E_train : Tensor.tensor; Y_train : Tensor.tensor;
  X_test : Tensor.tensor; E_test : Tensor.tensor; Y_test : Tensor.tensor
}.

(** Lines 55 to 61: the six arrays. *)
Definition load_arrays : io loaded :=
  X_train <~ np_load (datasets "X_train_1000.npy") ;;
  E_train <~ np_load (datasets "E_train_1000.npy") ;;
  Y_train <~ np_load (datasets "Y_train_1000.npy") ;;
  X_test <~ np_load (datasets "X_test_200.npy") ;;
  E_test <~ np_load (datasets "E_test_200.npy") ;;
  Y_test <~ np_load (datasets "Y_test_200.npy") ;;
  ret {| X_train := X_train; E_train := E_train; Y_train := Y_train;
         X_test := X_test; E_test := E_test; Y_test := Y_test |}.

(** Lines 19 to 61: the directory checks, then the six arrays. *)
Definition load_dataset : io loaded :=
  _ <~ check_directories ;; load_arrays.

(** The script raises: loading the data set ends in an error. *)
Definition raises (w : world) : Prop :=
  exists e, fst (load_dataset w) = Err e.

(** A world with the data directory and nothing else. *)
Definition only_data_directory : world :=
  {| files := {[ PATH_DATA := Dir ]}; reads := []; stdout := [] |}.

(** A world with the data directory and a first array file that is not in
    the array format. *)
Definition unreadable_array : world :=
  {| files := <[datasets "X_train_1000.npy"
                := Unreadable (ValueError "Cannot load file containing pickled data when allow_pickle=False")]>
                {[ PATH_DATA := Dir ]};
     reads := []; stdout := [] |}.

(** The six array files, in the order the script loads them. *)
Definition array_files : list path :=
  map datasets
      ["X_train_1000.npy"; "E_train_1000.npy"; "Y_train_1000.npy";
       "X_test_200.npy"; "E_test_200.npy"; "Y_test_200.npy"]%string.

(** A world with the data directory and the six array files, each holding
    the same array. *)
Definition complete_world (t : Tensor.tensor) : world :=
  {| files := <[PATH_DATA := Dir]>
                (list_to_map (map (fun f => (f, NpyFile t)) array_files));
     reads := []; stdout := [] |}.

End Files.


(** ** Training with callbacks, reload and evaluation *)

Module Training.
Local Open Scope R_scope.

(** A logged loss is a floating-point value: a number, an infinity or NaN. *)
Inductive loss_value : Type :=
| Finite (r : R)
| PosInf
| NegInf
| NaN.

Definition isnan (l : loss_value) : bool :=
  match l with NaN => true | _ => false end.

Definition isinf (l : loss_value) : bool :=
  match l with PosInf | NegInf => true | _ => false end.

(** [np.less]: false as soon as one side is NaN. *)
Definition less (a b : loss_value) : bool :=
  match a, b with
  | NaN, _ | _, NaN => false
  | _, NegInf => false
  | NegInf, _ => true
  | PosInf, _ => false
  | Finite _, PosInf => true
  | Finite x, Finite y => if Rlt_dec x y then true else false
  end.

Definition non_finite (l : loss_value) : bool := isnan l || isinf l.

(** The losses of a run of at most [n] epochs that ends with its first
    non-finite loss, if there is one. *)
Inductive stops_at_non_finite : nat -> list loss_value -> Prop :=
| run_complete : stops_at_non_finite 0 []
| run_halted (n : nat) (l : loss_value) :
    non_finite l = true -> stops_at_non_finite (S n) [l]
| run_continued (n : nat) (l : loss_value) (ls : list loss_value) :
    non_finite l = false -> stops_at_non_finite n ls ->
    stops_at_non_finite (S n) (l :: ls).

(** [np.greater] *)
Definition greater (a b : loss_value) : bool := less b a.

Inductive mode : Type := Min | Max.

Definition monitor_op (m : mode) : loss_value -> loss_value -> bool :=
  match m with Min => less | Max => greater end.

Definition initial_best (m : mode) : loss_value :=
  match m with Min => PosInf | Max => NegInf end.

(** The two callbacks of the script.  A [ModelCheckpoint] monitors the
    logged loss and remembers the best value it has seen.  The releases of
    the library differ in how that value starts: at plus infinity for
    [mode='min'] ([initial_best]), or at no value at all, in which case the
    first epoch is saved whatever its loss ([ModelCheckpointFresh]). *)
Inductive callback : Type :=
| TerminateOnNaN
| ModelCheckpoint (filepath : path) (save_best_only : bool) (m : mode)
                  (best : loss_value)
| ModelCheckpointFresh (filepath : path) (save_best_only : bool) (m : mode).

Record fit_args : Type := {
  batch_size : nat;
  epochs : nat;
  shuffle : bool
}.

(** Consecutive slices of [b] elements; the last one may be shorter. *)
Fixpoint slices {A : Type} (fuel b : nat) (l : list A) : list (list A) :=
  match fuel, l with
  | O, _ => []
  | _, [] => []
  | S fuel', _ => firstn b l :: slices fuel' b (skipn b l)
  end.

Definition make_batches {A : Type} (b : nat) (data : list A) : list (list A) :=
  slices (length data) b data.

Definition example_file : string := "00_understanding_deepsurv".
Definition checkpoint_file : path :=
  Files.PATH_MODELS ++ [(example_file ++ ".h5")%string].

Section Fit.
(** The network with its weights and optimizer state, and one training
    sample (a row of covariates with its label), are the library's. *)
Variables (model sample : Type).

(** One optimizer step on a batch: the updated model and the loss the
    library logs for the batch (compiled loss plus regularisers). *)
Variable train_step : model -> list sample -> model * loss_value.

(** The order in which an epoch visits the samples when it shuffles. *)
Variable shuffled : nat -> list sample -> list sample.

(** What one epoch leaves in the training history. *)
Record epoch_log : Type := {
  loss : loss_value;     (* the loss logged at the end of the epoch *)
  weights : model;       (* the model at the end of the epoch *)
  wrote : bool           (* whether a checkpoint file was written *)
}.

Record fit_state : Type := {
  current : model;
  callbacks : list callback;
  disk : gmap path model;
  history : list epoch_log
}.

Definition epoch_batches (args : fit_args) (data : list sample) (epoch : nat)
  : list (list sample) :=
  make_batches (batch_size args)
    (if shuffle args then shuffled epoch data else data).

(** [on_train_batch_end]: only [TerminateOnNaN] acts, by setting
    [model.stop_training]. *)
Definition on_train_batch_end (cb : callback) (logs : loss_value)
           (stop_training : bool) : bool :=
  match cb with
  | TerminateOnNaN =>
      if isnan logs || isinf logs then true else stop_training
  | ModelCheckpoint _ _ _ _ => stop_training
  | ModelCheckpointFresh _ _ _ => stop_training
  end.

(** [on_epoch_end]: only [ModelCheckpoint] acts. *)
Definition on_epoch_end (cb : callback) (m : model) (logs : loss_value)
           (d : gmap path model) : callback * gmap path model * bool :=
  match cb with
  | TerminateOnNaN => (cb, d, false)
  | ModelCheckpoint file save_best_only md best =>
      if save_best_only then
        if monitor_op md logs best
        then (ModelCheckpoint file save_best_only md logs,
              <[file := m]> d, true)
        else (cb, d, false)
      else (cb, <[file := m]> d, true)
  | ModelCheckpointFresh file save_best_only md =>
      if save_best_only
      then (ModelCheckpoint file save_best_only md logs, <[file := m]> d, true)
      else (cb, <[file := m]> d, true)
  end.

Fixpoint epoch_end_all (cbs : list callback) (m : model) (logs : loss_value)
         (d : gmap path model) : list callback * gmap path model * bool :=
  match cbs with
  | [] => ([], d, false)
  | cb :: rest =>
      let '(cb', d1, w1) := on_epoch_end cb m logs d in
      let '(rest', d2, w2) := epoch_end_all rest m logs d1 in
      (cb' :: rest', d2, w1 || w2)
  end.

(** The steps of one epoch: the loop leaves as soon as a callback has set
    [stop_training]. *)
Fixpoint run_batches (cbs : list callback) (batches : list (list sample))
         (m : model) (logs : option loss_value)
  : model * option loss_value * bool :=
  match batches with
  | [] => (m, logs, false)
  | b :: rest =>
      let (m', l) := train_step m b in
      let stop_training :=
        fold_left (fun s cb => on_train_batch_end cb l s) cbs false in
      if stop_training then (m', Some l, true)
      else run_batches cbs rest m' (Some l)
  end.

(** The epoch loop of [fit], [remaining] epochs from epoch [epoch] on. *)
Fixpoint fit_loop (args : fit_args) (data : list sample)
         (remaining epoch : nat) (st : fit_state) : result fit_state :=
  match remaining with
  | O => Ok st
  | S remaining' =>
      let '(m', logs, stop_training) :=
        run_batches (callbacks st) (epoch_batches args data epoch)
                    (current st) None in
      match logs with
      | None => Err (ValueError "Unexpected result of train_function")
      | Some l =>
          let '(cbs', d', w) :=
            epoch_end_all (callbacks st) m' l (disk st) in
          let st' :=
            {| current := m'; callbacks := cbs'; disk := d';
               history := history st
                          ++ [{| loss := l; weights := m'; wrote := w |}] |}
          in
          if stop_training then Ok st'
          else fit_loop args data remaining' (S epoch) st'
      end
  end.

(** [model.fit(X, Y, batch_size, epochs, callbacks, shuffle)] *)
Definition fit (args : fit_args) (cbs : list callback) (m : model)
           (data : list sample) (d : gmap path model) : result fit_state :=
  if Nat.eqb (batch_size args) 0 then
    Err (ValueError "batch_size must be positive")
  else
    fit_loop args data (epochs args) 0
      {| current := m; callbacks := cbs; disk := d; history := [] |}.

(** [load_model(file)]; for a missing file the library raises [OSError] or
    its subclass [FileNotFoundError], depending on the release. *)
Definition load_model (file : path) (d : gmap path model) : result model :=
  match d !! file with
  | Some m => Ok m
  | None => Err (OSError file)
  end.

(** What holds of the state of [fit] after every epoch when the callbacks
    are [TerminateOnNaN] and a best-only, minimising [ModelCheckpoint] on
    [file], started on the disk [d0]: the checkpoint remembers a loss that
    no epoch went below, an epoch wrote the file only with a loss below
    every earlier one, and the file holds the model of the epoch that
    reached the remembered loss. *)
Definition checkpoint_inv (file : path) (d0 : gmap path model)
           (st : fit_state) : Prop :=
  exists best,
    callbacks st = [TerminateOnNaN; ModelCheckpoint file true Min best]
    /\ Forall (fun e => less (loss e) best = false) (history st)
    /\ (forall k e, nth_error (history st) k = Some e -> wrote e = true ->
        forall j ej, (j < k)%nat -> nth_error (history st) j = Some ej ->
        less (loss e) (loss ej) = true)
    /\ ((best = PosInf
         /\ Forall (fun e => wrote e = false) (history st)
         /\ disk st !! file = d0 !! file)
        \/ exists e, In e (history st) /\ wrote e = true /\ loss e = best
                     /\ disk st !! file = Some (weights e)).

Definition all_finite (h : list epoch_log) : Prop :=
  Forall (fun e => non_finite (loss e) = false) h.

End Fit.

Arguments loss {model} _.
Arguments weights {model} _.
Arguments wrote {model} _.
Arguments current {model} _.
Arguments callbacks {model} _.
Arguments disk {model} _.
Arguments history {model} _.

(** *** The script from the sort to the two concordance indices *)

(** [np.exp(-h)], the transformation of a raw network output. *)
Definition exp_neg (h : R) : R := exp (- h).

Section Pipeline.
Variable model : Type.
Variable train_step
  : model -> list (list R * R) -> model * loss_value.
Variable shuffled : nat -> list (list R * R) -> list (list R * R).

(** [model.predict(X)]: one raw output per row, read off the (n, 1)
    result. *)
Variable predict : model -> list (list R) -> list R.

(** [lifelines.utils.concordance_index(event_times, predicted, observed)] *)
Variable concordance_index : list R -> list R -> list R -> R.

(** Line 65, on the arrays as loaded: [n_patients_train]. *)
Definition n_patients_train (loaded_train : Sorting.arrays) : nat :=
  length (Sorting.X_of loaded_train).

(** Lines 190 to 195. *)
Definition script_fit_args (loaded_train : Sorting.arrays) : fit_args :=
  {| batch_size := n_patients_train loaded_train;
     epochs := 200;
     shuffle := false |}.

(** Lines 181 and 182. *)
Definition script_callbacks : list callback :=
  [TerminateOnNaN; ModelCheckpoint checkpoint_file true Min (initial_best Min)].


(** The samples [fit] receives: [X_train] and [Y_train] row by row. *)
Definition training_data (d : Sorting.arrays) : list (list R * R) :=
  combine (Sorting.X_of d) (Sorting.Y_of d).

(** Lines 205 to 210 for one data set. *)
Definition c_index (m : model) (d : Sorting.arrays) : R :=
  let Y_pred := map exp_neg (predict m (Sorting.X_of d)) in
  concordance_index (Sorting.Y_of d) Y_pred (Sorting.E_of d).

(** Lines 203 to 210. *)
Definition evaluate (d : gmap path model) (train test : Sorting.arrays)
  : result (R * R) :=
  m <- load_model model checkpoint_file d ;;
  let c_index_train := c_index m train in
  let c_index_test := c_index m test in
  Ok (c_index_train, c_index_test).

(** An epoch wrote the checkpoint file only with a loss below the loss of
    every earlier epoch. *)
Definition written_on_improvement (h : list (epoch_log model)) : Prop :=
  forall k e, nth_error h k = Some e -> wrote e = true ->
  forall j ej, (j < k)%nat -> nth_error h j = Some ej ->
  less (loss e) (loss ej) = true.

(** The checkpoint file holds the model of an epoch of the run that wrote
    it, no epoch of the run has a loss below the loss of that epoch, and the
    evaluation computes both concordance indices with that model. *)
Definition best_is_reloaded (st : fit_state model) : Prop :=
  exists e,
    In e (history st) /\ wrote e = true
    /\ disk st !! checkpoint_file = Some (weights e)
    /\ Forall (fun e' => less (loss e') (loss e) = false)
              (history st)
    /\ forall train test,
         evaluate (disk st) train test
         = Ok (c_index (weights e) train, c_index (weights e) test).

(** Lines 94 to 210: sort, fit, reload, evaluate. *)
Definition train_and_evaluate (m0 : model) (d0 : gmap path model)
           (loaded_train loaded_test : Sorting.arrays) : result (R * R) :=
  sorted <- Sorting.sort_step loaded_train ;;
  st <- fit model (list R * R) train_step shuffled
            (script_fit_args loaded_train) script_callbacks m0
            (training_data sorted) d0 ;;
  evaluate (disk st) sorted loaded_test.

End Pipeline.

End Training.


(** ** The statements of the script, in source order *)

Module Script.
Local Open Scope string_scope.

Inductive step : Type :=
| DatasetLoad
| LabelSort
| LossDefinition
| ModelDefinition
| TrainingWithCallbacks
| CheckpointReload
| MetricComputation.

Definition step_eqb (a b : step) : bool :=
  match a, b with
  | DatasetLoad, DatasetLoad | LabelSort, LabelSort
  | LossDefinition, LossDefinition | ModelDefinition, ModelDefinition
  | TrainingWithCallbacks, TrainingWithCallbacks
  | CheckpointReload, CheckpointReload
  | MetricComputation, MetricComputation => true
  | _, _ => false
  end.

(** A top-level statement: its first line, the names it binds, the names
    bound by the script that it reads (for the definition of a function,
    those its body reads), and the step of the pipeline it belongs to (none
    for imports, constants, directory checks and printing).  An import
    binds the names it brings in. *)
Record statement : Type := {
  line : nat;
  binds : list string;
  reads : list string;
  role : option step
}.

Definition stmt (l : nat) (b r : list string) (s : option step) : statement :=
  {| line := l; binds := b; reads := r; role := s |}.

Definition script : list statement := [
  stmt 1 ["pathlib"] [] None;
  stmt 2 ["np"] [] None;
  stmt 3 ["tf"] [] None;
  stmt 4 ["Sequential"; "load_model"] [] None;
  stmt 5 ["Dense"; "Dropout"; "ActivityRegularization"] [] None;
  stmt 6 ["Nadam"] [] None;
  stmt 7 ["l2"] [] None;
  stmt 8 ["utils"] [] None;
  stmt 9 ["StandardScaler"] [] None;
  stmt 10 ["plt"] [] None;
  stmt 11 ["h5py"] [] None;
  stmt 14 ["example_file"] [] None;
  stmt 15 ["PATH_DATA"] ["pathlib"] None;
  stmt 16 ["PATH_MODELS"] ["pathlib"] None;
  stmt 19 [] ["PATH_DATA"] None;
  stmt 23 [] ["PATH_MODELS"] None;
  stmt 37 ["path_data_file"] ["PATH_DATA"] None;
  stmt 55 ["X_train"] ["np"] (Some DatasetLoad);
  stmt 56 ["E_train"] ["np"] (Some DatasetLoad);
  stmt 57 ["Y_train"] ["np"] (Some DatasetLoad);
  stmt 59 ["X_test"] ["np"] (Some DatasetLoad);
  stmt 60 ["E_test"] ["np"] (Some DatasetLoad);
  stmt 61 ["Y_test"] ["np"] (Some DatasetLoad);
  stmt 65 ["n_patients_train"] ["X_train"] None;
  stmt 66 ["n_features"] ["X_train"] None;
  stmt 86 ["Y_train"] ["Y_train"] None;
  stmt 87 ["Y_test"] ["Y_test"] None;
  stmt 94 ["sort_idx"] ["np"; "Y_train"] (Some LabelSort);
  stmt 95 ["X_train"] ["X_train"; "sort_idx"] (Some LabelSort);
  stmt 96 ["Y_train"] ["Y_train"; "sort_idx"] (Some LabelSort);
  stmt 97 ["E_train"] ["E_train"; "sort_idx"] (Some LabelSort);
  stmt 115 ["negative_log_likelihood"] ["tf"] (Some LossDefinition);
  stmt 136 ["activation"] [] None;
  stmt 137 ["n_nodes"] [] None;
  stmt 138 ["learning_rate"] [] None;
  stmt 139 ["l2_reg"] [] None;
  stmt 140 ["dropout"] [] None;
  stmt 141 ["lr_decay"] [] None;
  stmt 142 ["momentum"] [] None;
  stmt 146 ["model"] ["Sequential"] (Some ModelDefinition);
  stmt 147 [] ["model"; "Dense"; "n_features"; "activation"]
       (Some ModelDefinition);
  stmt 148 [] ["model"; "Dropout"; "dropout"] (Some ModelDefinition);
  stmt 149 [] ["model"; "Dense"; "n_nodes"; "activation"]
       (Some ModelDefinition);
  stmt 150 [] ["model"; "Dropout"; "dropout"] (Some ModelDefinition);
  stmt 151 [] ["model"; "Dense"; "n_nodes"; "activation"]
       (Some ModelDefinition);
  stmt 152 [] ["model"; "Dropout"; "dropout"] (Some ModelDefinition);
  stmt 153 [] ["model"; "Dense"; "l2"; "l2_reg"] (Some ModelDefinition);
  stmt 154 [] ["model"; "ActivityRegularization"; "l2_reg"]
       (Some ModelDefinition);
  stmt 159 ["optimizer"] ["Nadam"; "learning_rate"; "lr_decay"]
       (Some ModelDefinition);
  stmt 162 [] ["model"; "negative_log_likelihood"; "E_train"; "optimizer"]
       (Some ModelDefinition);
  stmt 163 [] ["model"] (Some ModelDefinition);
  stmt 181 ["callbacks"] ["tf"; "PATH_MODELS"; "example_file"]
       (Some TrainingWithCallbacks);
  stmt 190 ["epochs"] [] (Some TrainingWithCallbacks);
  stmt 191 ["history"]
       ["model"; "X_train"; "Y_train"; "n_patients_train"; "epochs";
        "callbacks"]
       (Some TrainingWithCallbacks);
  stmt 203 ["model"] ["load_model"; "PATH_MODELS"; "example_file"]
       (Some CheckpointReload);
  stmt 205 ["Y_pred_train"] ["np"; "model"; "X_train"]
       (Some MetricComputation);
  stmt 206 ["c_index_train"] ["utils"; "Y_train"; "Y_pred_train"; "E_train"]
       (Some MetricComputation);
  stmt 207 [] ["c_index_train"] (Some MetricComputation);
  stmt 209 ["Y_pred_test"] ["np"; "model"; "X_test"] (Some MetricComputation);
  stmt 210 ["c_index_test"] ["utils"; "Y_test"; "Y_pred_test"; "E_test"]
       (Some MetricComputation);
  stmt 211 [] ["c_index_test"] (Some MetricComputation)
].

(** The steps a list of statements goes through: the roles in order, a run
    of statements of one step counted once. *)
Fixpoint collapse (l : list step) : list step :=
  match l with
  | [] => []
  | a :: t =>
      match t with
      | b :: _ => if step_eqb a b then collapse t else a :: collapse t
      | [] => [a]
      end
  end.

Fixpoint roles (l : list statement) : list step :=
  match l with
  | [] => []
  | s :: t => match role s with
              | Some r => r :: roles t
              | None => roles t
              end
  end.

Definition steps_in_order (l : list statement) : list step :=
  collapse (roles l).

(** The line of the first statement of a step. *)
Fixpoint first_line (r : step) (l : list statement) : option nat :=
  match l with
  | [] => None
  | s :: t =>
      match role s with
      | Some r' => if step_eqb r r' then Some (line s) else first_line r t
      | None => first_line r t
      end
  end.

(** Every name a statement reads is bound by an earlier statement. *)
Fixpoint well_scoped (bound : list string) (l : list statement) : bool :=
  match l with
  | [] => true
  | s :: t =>
      forallb (fun x => existsb (String.eqb x) bound) (reads s)
      && well_scoped (binds s ++ bound) t
  end.

Fixpoint lines_increase (l : list statement) : bool :=
  match l with
  | [] => true
  | s :: t =>
      match t with
      | s' :: _ => Nat.ltb (line s) (line s') && lines_increase t
      | [] => true
      end
  end.

(** The order the specification gives to the seven steps. *)
Definition specified_order : list step :=
  [DatasetLoad; LabelSort; ModelDefinition; LossDefinition;
   TrainingWithCallbacks; CheckpointReload; MetricComputation].

(** The order of the seven steps in the source. *)
Definition source_order : list step :=
  [DatasetLoad; LabelSort; LossDefinition; ModelDefinition;
   TrainingWithCallbacks; CheckpointReload; MetricComputation].

(** *** Which binding a statement reads *)

Definition reads_name (x : string) (s : statement) : bool :=
  existsb (String.eqb x) (reads s).

Definition binds_name (x : string) (s : statement) : bool :=
  existsb (String.eqb x) (binds s).

(** The line of the binding of [x] in force on line [at_line]: the last
    statement above that line that binds [x]. *)
Definition binding_seen (x : string) (at_line : nat) (l : list statement)
  : option nat :=
  last (map (fun s => Some (line s))
            (filter (fun s => binds_name x s && Nat.ltb (line s) at_line) l))
       None.

(** The statements that read [x], each with the binding it sees. *)
Definition readers (x : string) (l : list statement) : list (nat * option nat) :=
  map (fun s => (line s, binding_seen x (line s) l)) (filter (reads_name x) l).

(** The names that are bound and that no statement reads. *)
Definition never_read (l : list statement) : list string :=
  filter (fun x => negb (existsb (reads_name x) l)) (concat (map binds l)).

End Script.


(** ** The network *)

Module Network.
Import Tensor.
Local Open Scope R_scope.

Inductive activation : Type :=
| relu
| linear.

Definition activate (a : activation) (x : R) : R :=
  match a with
  | relu => Rmax 0 x
  | linear => x
  end.

(** Lines 136 to 142, as far as the layers use them. *)
Definition n_nodes : nat := 48.
Definition l2_reg : R := 16094 / 1000.
Definition dropout : R := 147 / 1000.

(** A layer of the [Sequential] model.  A [Dense] layer holds its kernel,
    one row per input and one column per unit, and its bias. *)
Inductive layer : Type :=
| Dense (units : nat) (act : activation)
        (kernel : list (list R)) (bias : list R)
| Dropout (rate : R)
| ActivityRegularization (l2 : R).

(** The product of a batch with a kernel; the number of columns of the
    batch must be the number of rows of the kernel. *)
Definition matmul (a b : tensor) : result tensor :=
  match a, b with
  | Matrix k rows, Matrix u wrows =>
      if Nat.eqb k (length wrows) then
        Ok (Matrix u
              (map (fun r =>
                      map (fun j =>
                             Rsum (map (fun p => fst p * nth j (snd p) 0)
                                       (combine r wrows)))
                          (seq 0 u))
                   rows))
      else Err ShapeError
  | _, _ => Err ShapeError
  end.

(** A layer applied to a batch when predicting: [Dense] computes
    [activation(x . kernel + bias)]; dropout and activity regularisation
    pass the batch on. *)
Definition call (l : layer) (x : tensor) : result tensor :=
  match l with
  | Dense units act kernel bias =>
      y <- matmul x (Matrix units kernel) ;;
      z <- broadcast Rplus y (Vector bias) ;;
      Ok (tmap (activate act) z)
  | Dropout _ => Ok x
  | ActivityRegularization _ => Ok x
  end.

Fixpoint predict (layers : list layer) (x : tensor) : result tensor :=
  match layers with
  | [] => Ok x
  | l :: rest => y <- call l x ;; predict rest y
  end.

(** The shapes the weights get when the layers are added to a model whose
    input has [n_in] columns. *)
Fixpoint built (n_in : nat) (layers : list layer) : Prop :=
  match layers with
  | [] => True
  | Dense units _ kernel bias :: rest =>
      length kernel = n_in
      /\ Forall (fun r => length r = units) kernel
      /\ length bias = units
      /\ built units rest
  | _ :: rest => built n_in rest
  end.

(** [model.count_params()] *)
Fixpoint count_params (layers : list layer) : nat :=
  match layers with
  | [] => 0
  | Dense _ _ kernel bias :: rest =>
      length (concat kernel) + length bias + count_params rest
  | _ :: rest => count_params rest
  end.

(** Lines 146 to 154, with the weights of the four [Dense] layers. *)
Definition script_model (n_features : nat)
           (K1 : list (list R)) (b1 : list R) (K2 : list (list R)) (b2 : list R)
           (K3 : list (list R)) (b3 : list R) (K4 : list (list R)) (b4 : list R)
  : list layer :=
  [Dense n_features relu K1 b1;
   Dropout dropout;
   Dense n_nodes relu K2 b2;
   Dropout dropout;
   Dense n_nodes relu K3 b3;
   Dropout dropout;
   Dense 1 linear K4 b4;
   ActivityRegularization l2_reg].

(** The model of the script for one covariate with all weights zero, for
    examples. *)
Definition zero_kernel (rows cols : nat) : list (list R) :=
  repeat (repeat 0 cols) rows.

Definition zero_model : list layer :=
  script_model 1 (zero_kernel 1 1) (repeat 0 1)
               (zero_kernel 1 n_nodes) (repeat 0 n_nodes)
               (zero_kernel n_nodes n_nodes) (repeat 0 n_nodes)
               (zero_kernel n_nodes 1) (repeat 0 1).

End Network.


(** ** Single-precision numbers *)

(** The tensors of the loss hold single-precision numbers ([tf.float32]),
    and so does the output of [model.predict].  This module keeps of the
    format what decides whether a result is a number: its range and its
    special values.  The rounding of a result inside the range is a
    parameter [rnd] of the operations. *)

Module Float32.
Import Tensor.
Local Open Scope R_scope.

(** A value of the format: a real number, one of the two infinities, or
    the value that is not a number.  The two zeros are not told apart. *)
Inductive f32 : Type :=
| Fin (x : R)
| PInf
| NInf
| Nan.

(** An exact result of absolute value [OVER] = 2^128 - 2^103 or more (the
    largest number of the format plus half a unit in its last place) rounds
    to an infinity; one of absolute value at most [TINY] = 2^-150 (half of
    the smallest positive number of the format) rounds to zero. *)
Definition OVER : R := IZR (2 ^ 128 - 2 ^ 103).
Definition TINY : R := / IZR (2 ^ 150).

(** The numbers of the format: m * 2^(p - q) with |m| < 2^24 and an exponent
    p - q between -149 and 104. *)
Definition representable (x : R) : Prop :=
  exists (m : Z) (p q : nat),
    (Z.abs m < 2 ^ 24)%Z /\ (p <= 104)%nat /\ (q <= 149)%nat
    /\ x = IZR m * 2 ^ p / 2 ^ q.

(** What the properties below ask of the rounding: it keeps the order and
    it keeps the numbers of the format, as rounding to nearest does. *)
Definition rounding (rnd : R -> R) : Prop :=
  (forall x y, x <= y -> rnd x <= rnd y)
  /\ (forall x, representable x -> rnd x = x).

(** The order of the format on values that are numbers or infinities. *)
Definition fle (a b : f32) : Prop :=
  match a, b with
  | Nan, _ | _, Nan => False
  | NInf, _ | _, PInf => True
  | Fin x, Fin y => x <= y
  | _, _ => False
  end.

Definition fneg (a : f32) : f32 :=
  match a with
  | Fin x => Fin (- x)
  | PInf => NInf
  | NInf => PInf
  | Nan => Nan
  end.

(** An infinity times, or divided by, a number: the sign of the number
    decides, and zero gives no number. *)
Definition scaled (inf : f32) (x : R) : f32 :=
  if Rlt_dec 0 x then inf
  else if Rlt_dec x 0 then fneg inf
  else Nan.

Inductive tensor32 : Type :=
| Scalar32 (x : f32)
| Vector32 (xs : list f32)
| Matrix32 (ncols : nat) (rows : list (list f32)).

Definition rank32 (t : tensor32) : nat :=
  match t with
  | Scalar32 _ => 0
  | Vector32 _ => 1
  | Matrix32 _ _ => 2
  end.

(** The output of the [Dense(units=1)] layer on a batch: shape (n, 1). *)
Definition column32 (ys : list f32) : tensor32 :=
  Matrix32 1 (map (fun y => [y]) ys).

Definition nrows32 (t : tensor32) : nat :=
  match t with
  | Scalar32 _ => 1
  | Vector32 _ => 1
  | Matrix32 _ rows => length rows
  end.

Definition ncols32 (t : tensor32) : nat :=
  match t with
  | Scalar32 _ => 1
  | Vector32 xs => length xs
  | Matrix32 c _ => c
  end.

Definition entry32 (t : tensor32) (i j : nat) : f32 :=
  match t with
  | Scalar32 x => x
  | Vector32 xs => nth j xs (Fin 0)
  | Matrix32 _ rows => nth j (nth i rows []) (Fin 0)
  end.

Definition tmap32 (f : f32 -> f32) (t : tensor32) : tensor32 :=
  match t with
  | Scalar32 x => Scalar32 (f x)
  | Vector32 xs => Vector32 (map f xs)
  | Matrix32 c rows => Matrix32 c (map (map f) rows)
  end.

Definition tf_transpose32 (t : tensor32) : tensor32 :=
  match t with
  | Matrix32 c rows =>
      Matrix32 (length rows)
        (map (fun j => map (fun r => nth j r (Fin 0)) rows) (seq 0 c))
  | _ => t
  end.

Definition bcell32 (f : f32 -> f32 -> f32) (a b : tensor32) (i j : nat) : f32 :=
  f (entry32 a (bidx (nrows32 a) i) (bidx (ncols32 a) j))
    (entry32 b (bidx (nrows32 b) i) (bidx (ncols32 b) j)).

Definition broadcast32 (f : f32 -> f32 -> f32) (a b : tensor32)
  : result tensor32 :=
  r <- bdim (nrows32 a) (nrows32 b) ;;
  c <- bdim (ncols32 a) (ncols32 b) ;;
  Ok (match Nat.max (rank32 a) (rank32 b) with
      | 0%nat => Scalar32 (bcell32 f a b 0 0)
      | 1%nat => Vector32 (map (bcell32 f a b 0) (seq 0 c))
      | _ => Matrix32 c (map (fun i => map (bcell32 f a b i) (seq 0 c))
                             (seq 0 r))
      end).

Section Operations.
Variable rnd : R -> R.

Definition to_f32 (x : R) : f32 :=
  if Rle_dec OVER x then PInf
  else if Rle_dec x (- OVER) then NInf
  else if Rle_dec (Rabs x) TINY then Fin 0
  else Fin (rnd x).

Definition fadd (a b : f32) : f32 :=
  match a, b with
  | Nan, _ | _, Nan => Nan
  | Fin x, Fin y => to_f32 (x + y)
  | PInf, NInf | NInf, PInf => Nan
  | PInf, _ | _, PInf => PInf
  | NInf, _ | _, NInf => NInf
  end.

Definition fsub (a b : f32) : f32 := fadd a (fneg b).

Definition fmul (a b : f32) : f32 :=
  match a, b with
  | Nan, _ | _, Nan => Nan
  | Fin x, Fin y => to_f32 (x * y)
  | Fin x, inf | inf, Fin x => scaled inf x
  | PInf, PInf | NInf, NInf => PInf
  | PInf, NInf | NInf, PInf => NInf
  end.

Definition fdiv (a b : f32) : f32 :=
  match a, b with
  | Nan, _ | _, Nan => Nan
  | Fin x, Fin y =>
      if Req_dec_T y 0 then scaled PInf x else to_f32 (x / y)
  | Fin _, _ => Fin 0
  | inf, Fin y => if Rlt_dec y 0 then fneg inf else inf
  | _, _ => Nan
  end.

Definition fexp (a : f32) : f32 :=
  match a with
  | Fin x => to_f32 (exp x)
  | PInf => PInf
  | NInf => Fin 0
  | Nan => Nan
  end.

Definition flog (a : f32) : f32 :=
  match a with
  | Fin x =>
      if Rlt_dec 0 x then to_f32 (ln x)
      else if Rlt_dec x 0 then Nan
      else NInf
  | PInf => PInf
  | NInf => Nan
  | Nan => Nan
  end.

Definition tf_exp32 : tensor32 -> tensor32 := tmap32 fexp.
Definition tf_log32 : tensor32 -> tensor32 := tmap32 flog.

Fixpoint cumsum_from32 (acc : f32) (xs : list f32) : list f32 :=
  match xs with
  | [] => []
  | x :: t => fadd acc x :: cumsum_from32 (fadd acc x) t
  end.

Definition vadd32 (u v : list f32) : list f32 :=
  map (fun p => fadd (fst p) (snd p)) (combine u v).

Fixpoint cumsum_rows32 (acc : list f32) (rows : list (list f32))
  : list (list f32) :=
  match rows with
  | [] => []
  | r :: t => vadd32 acc r :: cumsum_rows32 (vadd32 acc r) t
  end.

Definition tf_cumsum32 (t : tensor32) : result tensor32 :=
  match t with
  | Scalar32 _ => Err ShapeError
  | Vector32 xs => Ok (Vector32 (cumsum_from32 (Fin 0) xs))
  | Matrix32 c rows =>
      Ok (Matrix32 c (cumsum_rows32 (repeat (Fin 0) c) rows))
  end.

Definition tf_sub32 : tensor32 -> tensor32 -> result tensor32 :=
  broadcast32 fsub.
Definition tf_mul32 : tensor32 -> tensor32 -> result tensor32 :=
  broadcast32 fmul.

(** The sum of a list, from the left. *)
Definition fsum (xs : list f32) : f32 := fold_left fadd xs (Fin 0).

Definition reduce_sum32 (t : tensor32) : f32 :=
  match t with
  | Scalar32 x => x
  | Vector32 xs => fsum xs
  | Matrix32 _ rows => fsum (map fsum rows)
  end.

(** The closure of [negative_log_likelihood], on single-precision tensors:
    no operation of its body raises on a value, a logarithm outside its
    domain gives an infinity or no number. *)
Definition negative_log_likelihood32 (E : tensor32)
  : tensor32 -> tensor32 -> result f32 :=
  fun y_true y_pred =>
    let hazard_ratio := tf_exp32 y_pred in
    cum <- tf_cumsum32 hazard_ratio ;;
    let log_risk := tf_log32 cum in
    uncensored_likelihood <- tf_sub32 (tf_transpose32 y_pred) log_risk ;;
    censored_likelihood <- tf_mul32 uncensored_likelihood E ;;
    let neg_likelihood_ := fneg (reduce_sum32 censored_likelihood) in
    let num_observed_events := Fin 1 in
    let neg_likelihood := fdiv neg_likelihood_ num_observed_events in
    Ok neg_likelihood.

(** [np.exp(-model.predict(X))] on one raw output. *)
Definition exp_neg32 (h : f32) : f32 := fexp (fneg h).

End Operations.

(** Every entry of a tensor satisfies [P]. *)
Definition all_entries (P : f32 -> Prop) (t : tensor32) : Prop :=
  match t with
  | Scalar32 x => P x
  | Vector32 xs => Forall P xs
  | Matrix32 _ rows => Forall (Forall P) rows
  end.

(** A number between two bounds, and a number of bounded absolute value. *)
Definition between (lo hi : R) (a : f32) : Prop :=
  exists x, a = Fin x /\ lo <= x <= hi.

Definition bounded (B : R) (a : f32) : Prop :=
  exists x, a = Fin x /\ Rabs x <= B.

(** The closure runs through on [y_pred] and returns a number: the running
    sums of the hazard ratios are positive numbers, their logarithms are
    numbers, the subtraction and the product broadcast, and what the closure
    returns, the negated sum of the masked likelihoods over 1, is a
    number. *)
Definition returns_a_number (rnd : R -> R) (E y_true y_pred : tensor32)
  : Prop :=
  exists cum censored r,
    tf_cumsum32 rnd (tf_exp32 rnd y_pred) = Ok cum
    /\ all_entries (fun c => exists x, c = Fin x /\ 0 < x) cum
    /\ all_entries (fun l => exists x, l = Fin x) (tf_log32 rnd cum)
    /\ (u <- tf_sub32 rnd (tf_transpose32 y_pred) (tf_log32 rnd cum) ;;
        tf_mul32 rnd u E) = Ok censored
    /\ negative_log_likelihood32 rnd E y_true y_pred
       = Ok (fdiv rnd (fneg (reduce_sum32 rnd censored)) (Fin 1))
    /\ fdiv rnd (fneg (reduce_sum32 rnd censored)) (Fin 1) = Fin r.

End Float32.


(** * Properties *)

(** ** Lists and sums *)

Section ListFacts.
Import Tensor.
Local Open Scope R_scope.

Lemma nth_map_seq {A : Type} (f : nat -> A) (n i : nat) (d : A) :
  (i < n)%nat -> nth i (map f (seq 0 n)) d = f i.
Proof.
  intros Hi.
  rewrite (nth_indep _ d (f 0%nat)) by (rewrite length_map, length_seq; exact Hi).
  rewrite map_nth, seq_nth by exact Hi.
  reflexivity.
Qed.


Lemma bidx_in_range (n i : nat) : (i < n)%nat -> bidx n i = i.
Proof.
  intros Hi. unfold bidx.
  destruct (Nat.eqb_spec n 1) as [-> | _]; lia.
Qed.

Lemma bdim_same (n : nat) : bdim n n = Ok n.
Proof. unfold bdim. now rewrite Nat.eqb_refl. Qed.

Lemma bdim_one_l (n : nat) : bdim 1 n = Ok n.
Proof.
  unfold bdim.
  destruct (Nat.eqb_spec 1 n) as [<- | _]; reflexivity.
Qed.

Lemma bdim_one_r (n : nat) : bdim n 1 = Ok n.
Proof.
  unfold bdim.
  destruct (Nat.eqb_spec n 1) as [-> | _]; reflexivity.
Qed.

Lemma cumsum_from_length (xs : list R) :
  forall acc, length (cumsum_from acc xs) = length xs.
Proof. induction xs as [| x t IH]; intros acc; simpl; [| rewrite IH]; reflexivity. Qed.

(** Every hazard ratio is positive, hence so is every running sum. *)
Lemma hazard_ratio_pos (ys : list R) : Forall (fun h => 0 < h) (map exp ys).
Proof.
  induction ys as [| y t IH]; simpl; constructor; [apply exp_pos | exact IH].
Qed.

Lemma cumsum_from_pos (xs : list R) :
  forall acc, 0 <= acc -> Forall (fun x => 0 < x) xs ->
  Forall (fun c => 0 < c) (cumsum_from acc xs).
Proof.
  induction xs as [| x t IH]; intros acc Hacc Hpos; simpl.
  - constructor.
  - inversion Hpos as [| ? ? Hx Ht]; subst.
    constructor; [lra | apply IH; [lra | exact Ht]].
Qed.

Lemma mapM_log_pos (xs : list R) :
  Forall (fun x => 0 < x) xs -> mapM log_elem xs = Ok (map ln xs).
Proof.
  induction 1 as [| x t Hx _ IH]; simpl; [reflexivity |].
  unfold log_elem at 1.
  destruct (Rlt_dec 0 x) as [_ | Hn]; [| contradiction].
  simpl. rewrite IH. reflexivity.
Qed.

Lemma mapM_log_column (xs : list R) :
  Forall (fun x => 0 < x) xs ->
  mapM (mapM log_elem) (map (fun x => [x]) xs)
  = Ok (map (fun x => [x]) (map ln xs)).
Proof.
  induction 1 as [| x t Hx _ IH]; simpl; [reflexivity |].
  unfold log_elem at 1.
  destruct (Rlt_dec 0 x) as [_ | Hn]; [| contradiction].
  simpl. rewrite IH. reflexivity.
Qed.

Lemma cumsum_rows_column (ys : list R) :
  forall a, cumsum_rows [a] (map (fun y => [y]) ys)
            = map (fun y => [y]) (cumsum_from a ys).
Proof.
  induction ys as [| y t IH]; intros a; simpl; [reflexivity |].
  unfold vadd at 1 2; simpl. rewrite IH. reflexivity.
Qed.

Lemma entry_column (xs : list R) (i : nat) :
  entry (column xs) i 0 = nth i xs 0.
Proof.
  unfold column, entry.
  revert i; induction xs as [| x t IH]; intros [| i]; simpl; auto.
Qed.

Lemma transpose_column (ys : list R) :
  tf_transpose (column ys) = Matrix (length ys) [ys].
Proof.
  unfold column, tf_transpose; simpl.
  rewrite length_map, map_map; simpl.
  now rewrite map_id.
Qed.

End ListFacts.

(** ** The loss closure on the two batch layouts *)

Section LossFacts.
Import Tensor Loss.
Local Open Scope R_scope.

Lemma log_risk_of_length (ys : list R) : length (log_risk_of ys) = length ys.
Proof. unfold log_risk_of. now rewrite length_map, cumsum_from_length, length_map. Qed.

Lemma cumsum_column (ys : list R) :
  tf_cumsum (tf_exp (column ys)) = Ok (column (cumsum_from 0 (map exp ys))).
Proof.
  unfold column, tf_exp; simpl.
  rewrite map_map.
  change (map (fun y => [exp y]) ys) with (map (fun y => (fun x => [x]) (exp y)) ys).
  rewrite <- (map_map exp (fun x => [x])).
  now rewrite cumsum_rows_column.
Qed.

Lemma log_column (ys : list R) :
  tf_log (column (cumsum_from 0 (map exp ys))) = Ok (column (log_risk_of ys)).
Proof.
  unfold column, tf_log.
  rewrite mapM_log_column; [reflexivity |].
  apply cumsum_from_pos; [lra | apply hazard_ratio_pos].
Qed.

Lemma log_vector (ys : list R) :
  tf_log (Vector (cumsum_from 0 (map exp ys))) = Ok (Vector (log_risk_of ys)).
Proof.
  unfold tf_log.
  rewrite mapM_log_pos; [reflexivity |].
  apply cumsum_from_pos; [lra | apply hazard_ratio_pos].
Qed.

(** On a column of scores, shape (n, 1), the transposed scores have shape
    (1, n) and the subtraction broadcasts to an n-by-n matrix. *)
Lemma sub_row_column (ys lr : list R) :
  length lr = length ys ->
  tf_sub (tf_transpose (column ys)) (column lr)
  = Ok (Matrix (length ys)
          (map (fun i => map (fun j => nth j ys 0 - nth i lr 0)
                             (seq 0 (length ys)))
               (seq 0 (length ys)))).
Proof.
  intros Hlr.
  rewrite transpose_column.
  assert (Hrows : nrows (column lr) = length ys)
    by (unfold column; simpl; now rewrite length_map).
  unfold tf_sub, broadcast.
  rewrite Hrows.
  change (nrows (Matrix (length ys) [ys])) with 1%nat.
  change (ncols (Matrix (length ys) [ys])) with (length ys).
  change (ncols (column lr)) with 1%nat.
  rewrite bdim_one_l, bdim_one_r. cbn [bind].
  change (Nat.max (rank (Matrix (length ys) [ys])) (rank (column lr))) with 2%nat.
  cbv iota. do 2 f_equal.
  apply map_ext_in. intros i Hi. apply in_seq in Hi.
  apply map_ext_in. intros j Hj. apply in_seq in Hj.
  unfold bcell. rewrite Hrows.
  change (nrows (Matrix (length ys) [ys])) with 1%nat.
  change (ncols (Matrix (length ys) [ys])) with (length ys).
  change (ncols (column lr)) with 1%nat.
  rewrite (bidx_in_range (length ys) j), (bidx_in_range (length ys) i) by lia.
  change (bidx 1 i) with 0%nat. change (bidx 1 j) with 0%nat.
  rewrite entry_column. reflexivity.
Qed.

Lemma mul_matrix_vector (n : nat) (g : nat -> nat -> R) (E : list R) :
  length E = n ->
  tf_mul (Matrix n (map (fun i => map (g i) (seq 0 n)) (seq 0 n))) (Vector E)
  = Ok (Matrix n (map (fun i => map (fun j => g i j * nth j E 0) (seq 0 n))
                      (seq 0 n))).
Proof.
  intros HE.
  set (U := map _ (seq 0 n)).
  assert (Hrows : nrows (Matrix n U) = n)
    by (unfold U; simpl; now rewrite length_map, length_seq).
  unfold tf_mul, broadcast.
  rewrite Hrows.
  change (ncols (Matrix n U)) with n.
  change (nrows (Vector E)) with 1%nat.
  change (ncols (Vector E)) with (length E). rewrite HE.
  rewrite bdim_one_r, bdim_same. cbn [bind].
  change (Nat.max (rank (Matrix n U)) (rank (Vector E))) with 2%nat.
  cbv iota. do 2 f_equal.
  apply map_ext_in. intros i Hi. apply in_seq in Hi.
  apply map_ext_in. intros j Hj. apply in_seq in Hj.
  unfold bcell. rewrite Hrows.
  change (ncols (Matrix n U)) with n.
  change (ncols (Vector E)) with (length E). rewrite HE.
  rewrite !bidx_in_range by lia.
  unfold entry, U.
  now rewrite !nth_map_seq by lia.
Qed.

Lemma nll_on_column (E ys : list R) (y_true : tensor) :
  length E = length ys ->
  negative_log_likelihood (Vector E) y_true (column ys)
  = Ok (broadcast_nll E ys).
Proof.
  intros HE.
  unfold negative_log_likelihood. cbv zeta.
  rewrite cumsum_column. cbn [bind].
  rewrite log_column. cbn [bind].
  rewrite sub_row_column by apply log_risk_of_length. cbn [bind].
  rewrite (mul_matrix_vector (length ys)
             (fun i j => nth j ys 0 - nth i (log_risk_of ys) 0) E HE).
  cbn [bind]. unfold reduce_sum, broadcast_nll. cbv zeta.
  rewrite map_map.
  unfold Rdiv. now rewrite Rinv_1, Rmult_1_r.
Qed.

(** On a plain vector of scores, shape (n,), the transposition is the
    identity and the closure is the sum of the per-patient contributions. *)
Lemma binop_vectors (f : R -> R -> R) (xs zs : list R) :
  length zs = length xs ->
  broadcast f (Vector xs) (Vector zs)
  = Ok (Vector (map (fun j => f (nth j xs 0) (nth j zs 0)) (seq 0 (length xs)))).
Proof.
  intros Hz.
  unfold broadcast.
  change (nrows (Vector xs)) with 1%nat. change (nrows (Vector zs)) with 1%nat.
  change (ncols (Vector xs)) with (length xs).
  change (ncols (Vector zs)) with (length zs). rewrite Hz.
  rewrite !bdim_same. cbn [bind].
  change (Nat.max (rank (Vector xs)) (rank (Vector zs))) with 1%nat.
  cbv iota. do 2 f_equal.
  apply map_ext_in. intros j Hj. apply in_seq in Hj.
  unfold bcell.
  change (ncols (Vector xs)) with (length xs).
  change (ncols (Vector zs)) with (length zs). rewrite Hz.
  rewrite (bidx_in_range (length xs) j) by lia. reflexivity.
Qed.

Lemma contributions_by_index (ys : list R) :
  forall (E : list R) (acc : R),
  length E = length ys ->
  map (fun j => (nth j ys 0 - nth j (map ln (cumsum_from acc (map exp ys))) 0)
                * nth j E 0)
      (seq 0 (length ys))
  = contributions acc (combine ys E).
Proof.
  induction ys as [| y t IH]; intros E acc HE; [reflexivity |].
  destruct E as [| e E']; [discriminate |].
  simpl in HE. injection HE as HE.
  cbn [length seq map combine contributions nth cumsum_from].
  f_equal.
  rewrite <- seq_shift, map_map.
  cbn [nth]. apply IH. exact HE.
Qed.

Lemma nll_on_vector (E ys : list R) (y_true : tensor) :
  length E = length ys ->
  negative_log_likelihood (Vector E) y_true (Vector ys)
  = Ok (textbook_nll E ys).
Proof.
  intros HE.
  unfold negative_log_likelihood. cbv zeta.
  change (tf_cumsum (tf_exp (Vector ys)))
    with (Ok (Vector (cumsum_from 0 (map exp ys)))).
  cbn [bind]. rewrite log_vector. cbn [bind].
  change (tf_transpose (Vector ys)) with (Vector ys).
  unfold tf_sub. rewrite binop_vectors by apply log_risk_of_length.
  cbn [bind].
  set (u := map _ (seq 0 (length ys))).
  assert (Hu : length u = length ys)
    by (unfold u; now rewrite length_map, length_seq).
  unfold tf_mul. rewrite binop_vectors by congruence.
  cbn [bind]. unfold reduce_sum, textbook_nll.
  rewrite Hu.
  unfold Rdiv. rewrite Rinv_1, Rmult_1_r. do 3 f_equal.
  rewrite <- (contributions_by_index ys E 0 HE). fold (log_risk_of ys).
  apply map_ext_in. intros j Hj. apply in_seq in Hj.
  unfold u. rewrite nth_map_seq by lia. reflexivity.
Qed.

End LossFacts.

(** ** Claims about the loss closure *)

Section LossClaims.
Import Tensor Loss.
Local Open Scope R_scope.

Lemma ln_2_pos : 0 < ln 2.
Proof. rewrite <- ln_1. apply ln_increasing; lra. Qed.

Lemma textbook_two_events : textbook_nll [1; 1] [0; 0] = ln 2.
Proof.
  unfold textbook_nll, Rsum; simpl.
  rewrite exp_0.
  replace (0 + 1) with 1 by lra. replace (1 + 1) with 2 by lra.
  rewrite ln_1. lra.
Qed.

Lemma broadcast_two_events : broadcast_nll [1; 1] [0; 0] = 2 * ln 2.
Proof.
  unfold broadcast_nll, log_risk_of, Rsum; simpl.
  rewrite exp_0.
  replace (0 + 1) with 1 by lra. replace (1 + 1) with 2 by lra.
  rewrite ln_1. lra.
Qed.

(** C1, at the batch the training loop hands to the closure.  The output
    layer has one unit, so the scores of two patients arrive as a column of
    shape (2, 1).  With both events observed and both scores 0 the closure
    returns 2 ln 2: the transposed scores, shape (1, 2), minus the log
    cumulative hazards, shape (2, 1), is a 2-by-2 matrix, and all four of
    its entries are summed.  The negative log partial likelihood of the same
    two patients, one contribution per patient, is ln 2. *)
Theorem nll_on_training_batch_differs (y_true : tensor) :
  negative_log_likelihood (Vector [1; 1]) y_true (column [0; 0])
  = Ok (2 * ln 2)
  /\ textbook_nll [1; 1] [0; 0] = ln 2
  /\ 2 * ln 2 <> ln 2.
Proof.
  split; [| split].
  - rewrite nll_on_column by reflexivity.
    now rewrite broadcast_two_events.
  - exact textbook_two_events.
  - pose proof ln_2_pos. lra.
Qed.

(** The event indicators as a column of shape (2, 1) change nothing at
    this batch: the product still has four entries. *)
Example nll_with_column_events (y_true : tensor) :
  negative_log_likelihood (column [1; 1]) y_true (column [0; 0])
  = Ok (2 * ln 2).
Proof.
  unfold negative_log_likelihood. cbv zeta.
  rewrite cumsum_column. cbn [bind].
  rewrite log_column. cbn [bind].
  rewrite sub_row_column by apply log_risk_of_length. cbn [bind].
  unfold log_risk_of. simpl.
  unfold Rsum, bcell, bidx, column; simpl. f_equal.
  rewrite exp_0.
  replace (0 + 1) with 1 by lra. replace (1 + 1) with 2 by lra.
  rewrite ln_1. lra.
Qed.

End LossClaims.

(** ** The sort by descending time *)

Section ArgsortFacts.
Import Sorting.
Context {K : Type} (leb : K -> K -> bool).
Hypothesis leb_total : forall a b, leb a b = false -> leb b a = true.
Hypothesis leb_trans :
  forall a b c, leb a b = true -> leb b c = true -> leb a c = true.

Lemma insert_perm (p : K * nat) (l : list (K * nat)) :
  Permutation (insert leb p l) (p :: l).
Proof.
  induction l as [| q t IH]; simpl; [reflexivity |].
  destruct (leb (fst p) (fst q)); [reflexivity |].
  rewrite IH. apply perm_swap.
Qed.

Lemma sort_pairs_perm (l : list (K * nat)) : Permutation (sort_pairs leb l) l.
Proof.
  induction l as [| p t IH]; simpl; [reflexivity |].
  rewrite insert_perm. now constructor.
Qed.

Lemma insert_hd (p q : K * nat) (l : list (K * nat)) :
  key_le leb q p -> HdRel (key_le leb) q l -> HdRel (key_le leb) q (insert leb p l).
Proof.
  intros Hqp Hq. destruct l as [| r t]; simpl.
  - now constructor.
  - destruct (leb (fst p) (fst r)); constructor; auto.
    now inversion Hq.
Qed.

Lemma insert_sorted (p : K * nat) (l : list (K * nat)) :
  Sorted (key_le leb) l -> Sorted (key_le leb) (insert leb p l).
Proof using leb_total.
  induction 1 as [| q t Hs IH Hq]; simpl.
  - repeat constructor.
  - destruct (leb (fst p) (fst q)) eqn:Hpq.
    + constructor; [now constructor | now constructor].
    + constructor; [exact IH |].
      apply insert_hd; [| exact Hq].
      apply leb_total. exact Hpq.
Qed.

Lemma sort_pairs_sorted (l : list (K * nat)) :
  StronglySorted (key_le leb) (sort_pairs leb l).
Proof using leb_total leb_trans.
  apply Sorted_StronglySorted.
  - intros a b c. unfold key_le. apply leb_trans.
  - induction l as [| p t IH]; simpl; [constructor |].
    now apply insert_sorted.
Qed.

End ArgsortFacts.

Section TakeFacts.
Import Sorting.
Context {A : Type}.

Lemma enumerate_from (keys : list A) :
  forall start k i,
  In (k, i) (combine keys (seq start (length keys))) ->
  (start <= i)%nat /\ nth_error keys (i - start) = Some k.
Proof.
  induction keys as [| x t IH]; intros start k i Hin; simpl in Hin; [easy |].
  destruct Hin as [Heq | Hin].
  - injection Heq as -> ->. rewrite Nat.sub_diag. split; [lia | reflexivity].
  - apply IH in Hin as [Hle Hnth]. split; [lia |].
    replace (i - start)%nat with (S (i - S start)) by lia. exact Hnth.
Qed.

Lemma enumerate_lookup (keys : list A) (k : A) (i : nat) :
  In (k, i) (enumerate keys) -> nth_error keys i = Some k.
Proof.
  intros Hin. apply enumerate_from in Hin as [_ Hnth].
  now rewrite Nat.sub_0_r in Hnth.
Qed.

Lemma enumerate_snd (keys : list A) :
  map snd (enumerate keys) = seq 0 (length keys).
Proof.
  unfold enumerate. generalize 0%nat.
  induction keys as [| x t IH]; intros start; simpl; [reflexivity |].
  now rewrite IH.
Qed.

(** Taking the keys at the positions of a list of (key, position) pairs
    gives back the keys of the pairs. *)
Lemma take_pairs (keys : list A) (l : list (A * nat)) :
  (forall k i, In (k, i) l -> nth_error keys i = Some k) ->
  take keys (map snd l) = Ok (map fst l).
Proof.
  unfold take.
  induction l as [| [k i] t IH]; intros Hl; simpl; [reflexivity |].
  unfold item at 1. rewrite (Hl k i) by now left.
  cbn [bind]. rewrite IH; [reflexivity |].
  intros k' i' Hin. apply Hl. now right.
Qed.

Lemma take_shift (x : A) (a : list A) (idx : list nat) :
  take (x :: a) (map S idx) = take a idx.
Proof.
  unfold take. induction idx as [| i t IH]; simpl; [reflexivity |].
  now rewrite IH.
Qed.

Lemma take_all (a : list A) : take a (seq 0 (length a)) = Ok a.
Proof.
  induction a as [| x t IH]; [reflexivity |].
  cbn [length seq]. rewrite <- seq_shift.
  change (take (x :: t) (0%nat :: map S (seq 0 (length t))))
    with (b <- item (x :: t) 0 ;; bs <- take (x :: t) (map S (seq 0 (length t))) ;;
          Ok (b :: bs)).
  rewrite take_shift, IH. reflexivity.
Qed.

Lemma take_permutation (a : list A) (idx idx' : list nat) :
  Permutation idx idx' ->
  forall l, take a idx = Ok l ->
  exists l', take a idx' = Ok l' /\ Permutation l l'.
Proof.
  unfold take.
  induction 1 as [| i s s' Hp IH | i j s | s1 s2 s3 H12 IH12 H23 IH23];
    intros l Hl.
  - exists l. split; [exact Hl | reflexivity].
  - simpl in *. destruct (item a i) as [x |]; [| discriminate]. cbn [bind] in *.
    destruct (mapM (item a) s) as [xs |] eqn:Hs; [| discriminate].
    cbn [bind] in Hl. injection Hl as <-.
    destruct (IH xs eq_refl) as (xs' & -> & Hxs).
    exists (x :: xs'). split; [reflexivity | now constructor].
  - simpl in *.
    destruct (item a j) as [y |]; [| discriminate]. cbn [bind] in *.
    destruct (item a i) as [x |]; [| discriminate]. cbn [bind] in *.
    destruct (mapM (item a) s) as [xs |]; [| discriminate].
    cbn [bind] in *. injection Hl as <-.
    exists (x :: y :: xs). split; [reflexivity | apply perm_swap].
  - destruct (IH12 l Hl) as (l2 & Hl2 & Hp2).
    destruct (IH23 l2 Hl2) as (l3 & Hl3 & Hp3).
    exists l3. split; [exact Hl3 | now transitivity l2].
Qed.

(** Indexing by a permutation of the positions permutes the array. *)
Lemma take_by_permutation (a : list A) (idx : list nat) :
  Permutation idx (seq 0 (length a)) ->
  exists l, take a idx = Ok l /\ Permutation l a.
Proof.
  intros Hp.
  destruct (take_permutation a _ _ (Permutation_sym Hp) a (take_all a))
    as (l & Hl & Hperm).
  exists l. split; [exact Hl | now symmetry].
Qed.

(** Position by position, the result holds the element the index names. *)
Lemma take_lookup (a : list A) (idx : list nat) :
  forall l, take a idx = Ok l ->
  forall k i, nth_error idx k = Some i -> nth_error l k = nth_error a i.
Proof.
  unfold take.
  induction idx as [| j t IH]; intros l Hl k i Hk.
  - destruct k; discriminate.
  - simpl in Hl. unfold item at 1 in Hl.
    destruct (nth_error a j) as [x |] eqn:Hj; [| discriminate].
    cbn [bind] in Hl.
    destruct (mapM (item a) t) as [xs |] eqn:Ht; [| discriminate].
    cbn [bind] in Hl. injection Hl as <-.
    destruct k as [| k]; simpl in *.
    + injection Hk as <-. now rewrite Hj.
    + now apply (IH xs eq_refl).
Qed.

Lemma take_length (a : list A) (idx : list nat) :
  forall l, take a idx = Ok l -> length l = length idx.
Proof.
  unfold take.
  induction idx as [| j t IH]; intros l Hl; simpl in Hl.
  - now injection Hl as <-.
  - destruct (item a j) as [x |]; [| discriminate]. cbn [bind] in Hl.
    destruct (mapM (item a) t) as [xs |]; [| discriminate].
    cbn [bind] in Hl. injection Hl as <-. simpl. f_equal. now apply IH.
Qed.

End TakeFacts.

Lemma take_combine {A B : Type} (a : list A) (b : list B) (idx : list nat) :
  forall a' b', Sorting.take a idx = Ok a' -> Sorting.take b idx = Ok b' ->
  Sorting.take (combine a b) idx = Ok (combine a' b').
Proof.
  unfold Sorting.take.
  induction idx as [| i t IH]; intros a' b' Ha Hb; simpl in *.
  - injection Ha as <-. injection Hb as <-. reflexivity.
  - unfold Sorting.item at 1 in Ha. unfold Sorting.item at 1 in Hb.
    destruct (nth_error a i) as [x |] eqn:Hx; [| discriminate].
    destruct (nth_error b i) as [y |] eqn:Hy; [| discriminate].
    cbn [bind] in *.
    destruct (mapM (Sorting.item a) t) as [xs |]; [| discriminate].
    destruct (mapM (Sorting.item b) t) as [ys |]; [| discriminate].
    cbn [bind] in *. injection Ha as <-. injection Hb as <-.
    unfold Sorting.item at 1.
    assert (Hxy : nth_error (combine a b) i = Some (x, y)).
    { clear - Hx Hy. revert b i Hx Hy.
      induction a as [| x0 a IHa]; intros [| y0 b] [| i] Hx Hy;
        simpl in *; try discriminate.
      - now injection Hx as ->; injection Hy as ->.
      - now apply IHa. }
    rewrite Hxy. cbn [bind].
    rewrite (IH xs ys eq_refl eq_refl). reflexivity.
Qed.

Section SortClaims.
Import Sorting.
Local Open Scope R_scope.

Lemma Rleb_le (a b : R) : Rleb a b = true <-> a <= b.
Proof. unfold Rleb. destruct (Rle_dec a b); split; intros; easy. Qed.

Lemma Rleb_total (a b : R) : Rleb a b = false -> Rleb b a = true.
Proof.
  unfold Rleb. destruct (Rle_dec a b), (Rle_dec b a); intros; try easy. lra.
Qed.

Lemma Rleb_trans (a b c : R) :
  Rleb a b = true -> Rleb b c = true -> Rleb a c = true.
Proof. rewrite !Rleb_le. lra. Qed.

Lemma StronglySorted_snoc {A : Type} (P : A -> A -> Prop) (l : list A) (x : A) :
  StronglySorted P l -> Forall (fun y => P y x) l -> StronglySorted P (l ++ [x]).
Proof.
  induction 1 as [| y t Ht IH Hy]; intros Hx; simpl.
  - repeat constructor.
  - inversion Hx as [| ? ? Hyx Htx]; subst.
    constructor; [now apply IH |].
    apply Forall_app. split; [exact Hy | now constructor].
Qed.

Lemma StronglySorted_rev {A : Type} (P : A -> A -> Prop) (l : list A) :
  StronglySorted P l -> StronglySorted (fun a b => P b a) (rev l).
Proof.
  induction 1 as [| x t Ht IH Hx]; simpl; [constructor |].
  apply StronglySorted_snoc; [exact IH |].
  apply Forall_rev. exact Hx.
Qed.

Lemma StronglySorted_keys (l : list (R * nat)) :
  StronglySorted (key_le Rleb) l ->
  StronglySorted (fun a b => b >= a) (map fst l).
Proof.
  induction 1 as [| p t Ht IH Hp]; simpl; constructor; [exact IH |].
  apply Forall_map. eapply Forall_impl; [| exact Hp].
  intros q Hq. apply Rle_ge. now apply Rleb_le.
Qed.

(** The index array is a permutation of the positions, and indexing the
    times with it gives them in non-increasing order. *)
Lemma sort_idx_perm (Y : list R) :
  Permutation (sort_idx Y) (seq 0 (length Y)).
Proof.
  unfold sort_idx, argsort.
  rewrite <- Permutation_rev, <- enumerate_snd.
  apply Permutation_map, sort_pairs_perm.
Qed.

Lemma take_sort_idx (Y : list R) :
  exists Y', take Y (sort_idx Y) = Ok Y' /\ StronglySorted Rge Y'.
Proof.
  unfold sort_idx, argsort.
  set (sorted := sort_pairs Rleb (enumerate Y)).
  exists (map fst (rev sorted)). split.
  - rewrite <- map_rev. apply take_pairs.
    intros k i Hin. apply enumerate_lookup.
    apply in_rev in Hin.
    eapply Permutation_in; [apply sort_pairs_perm | exact Hin].
  - rewrite map_rev.
    apply (StronglySorted_rev (fun a b => b >= a) (map fst sorted)).
    apply StronglySorted_keys.
    apply sort_pairs_sorted; [apply Rleb_total | apply Rleb_trans].
Qed.


(** C2: one index array, the positions of the times in descending order, is
    applied to the features, the times and the event indicators.  When the
    three arrays have one entry per patient, the sort succeeds, the index
    array is a permutation of the positions, the sorted times are
    non-increasing, position k of each sorted array holds what position
    [sort_idx[k]] of that array held before, and the sorted patients are a
    permutation of the patients. *)
Theorem sort_step_keeps_alignment (d : arrays) :
  length (X_of d) = length (Y_of d) ->
  length (E_of d) = length (Y_of d) ->
  Permutation (sort_idx (Y_of d)) (seq 0 (length (Y_of d)))
  /\ exists s,
       sort_step d = Ok s
       /\ StronglySorted Rge (Y_of s)
       /\ (forall k i, nth_error (sort_idx (Y_of d)) k = Some i ->
             nth_error (X_of s) k = nth_error (X_of d) i
             /\ nth_error (Y_of s) k = nth_error (Y_of d) i
             /\ nth_error (E_of s) k = nth_error (E_of d) i
             /\ nth_error (patients s) k = nth_error (patients d) i)
       /\ Permutation (patients s) (patients d).
Proof.
  intros HX HE.
  pose proof (sort_idx_perm (Y_of d)) as Hperm.
  split; [exact Hperm |].
  destruct (take_sort_idx (Y_of d)) as (Y' & HY' & Hsorted).
  destruct (take_by_permutation (X_of d) (sort_idx (Y_of d)))
    as (X' & HX' & _); [now rewrite HX |].
  destruct (take_by_permutation (E_of d) (sort_idx (Y_of d)))
    as (E' & HE' & _); [now rewrite HE |].
  exists {| X_of := X'; Y_of := Y'; E_of := E' |}.
  assert (Hpat : take (patients d) (sort_idx (Y_of d))
                 = Ok (combine X' (combine Y' E'))).
  { unfold patients. apply take_combine; [exact HX' |].
    apply take_combine; assumption. }
  split; [| split; [| split]].
  - unfold sort_step. cbv zeta. now rewrite HX', HY', HE'.
  - exact Hsorted.
  - intros k i Hk. cbn [X_of Y_of E_of]. unfold patients at 1. cbn [X_of Y_of E_of].
    repeat split; eapply take_lookup; eassumption.
  - unfold patients at 1. cbn [X_of Y_of E_of].
    destruct (take_by_permutation (patients d) (sort_idx (Y_of d)))
      as (P & HP & HPperm).
    + unfold patients. rewrite !length_combine, HX, HE, !Nat.min_id. exact Hperm.
    + rewrite Hpat in HP. injection HP as <-. exact HPperm.
Qed.

Lemma sort_step_keeps_alignment_witness :
  Permutation (sort_idx [1; 2]) (seq 0 2)
  /\ exists s,
       sort_step {| X_of := [[0]; [1]]; Y_of := [1; 2]; E_of := [1; 0] |} = Ok s
       /\ StronglySorted Rge (Y_of s)
       /\ (forall k i, nth_error (sort_idx [1; 2]) k = Some i ->
             nth_error (X_of s) k = nth_error [[0]; [1]] i
             /\ nth_error (Y_of s) k = nth_error [1; 2] i
             /\ nth_error (E_of s) k = nth_error [1; 0] i
             /\ nth_error (patients s) k
                = nth_error (patients {| X_of := [[0]; [1]]; Y_of := [1; 2];
                                         E_of := [1; 0] |}) i)
       /\ Permutation (patients s)
            (patients {| X_of := [[0]; [1]]; Y_of := [1; 2]; E_of := [1; 0] |}).
Proof.
  apply (sort_step_keeps_alignment
           {| X_of := [[0]; [1]]; Y_of := [1; 2]; E_of := [1; 0] |});
    reflexivity.
Defined.

(** C9: the closure never reads [y_true]: two label arrays give the same
    result, whatever the event indicators and the predictions are.  The
    times reach the loss through the sort only: two arrays of times with the
    same index array leave the same sorted features and event indicators,
    hence the same closure. *)
Theorem nll_ignores_y_true :
  (forall E y_true1 y_true2 y_pred,
     Loss.negative_log_likelihood E y_true1 y_pred
     = Loss.negative_log_likelihood E y_true2 y_pred)
  /\ (forall X E Y1 Y2 s1 s2,
        sort_idx Y1 = sort_idx Y2 ->
        sort_step {| X_of := X; Y_of := Y1; E_of := E |} = Ok s1 ->
        sort_step {| X_of := X; Y_of := Y2; E_of := E |} = Ok s2 ->
        X_of s1 = X_of s2 /\ E_of s1 = E_of s2
        /\ forall y_true1 y_true2 y_pred,
             Loss.negative_log_likelihood (Tensor.Vector (E_of s1)) y_true1 y_pred
             = Loss.negative_log_likelihood (Tensor.Vector (E_of s2)) y_true2 y_pred).
Proof.
  split; [reflexivity |].
  intros X E Y1 Y2 s1 s2 Hidx H1 H2.
  unfold sort_step in H1, H2. cbv zeta in H1, H2. cbn [X_of Y_of E_of] in H1, H2.
  rewrite Hidx in H1.
  destruct (take X (sort_idx Y2)) as [X' |]; [| discriminate].
  cbn [bind] in H1, H2.
  destruct (take Y1 (sort_idx Y2)) as [Y1' |]; [| discriminate].
  destruct (take Y2 (sort_idx Y2)) as [Y2' |]; [| discriminate].
  cbn [bind] in H1, H2.
  destruct (take E (sort_idx Y2)) as [E' |]; [| discriminate].
  cbn [bind] in H1, H2.
  injection H1 as <-. injection H2 as <-. cbn [X_of E_of].
  repeat split.
Qed.

Lemma nll_ignores_y_true_witness :
  X_of one_patient = X_of one_patient /\ E_of one_patient = E_of one_patient
  /\ forall y_true1 y_true2 y_pred,
       Loss.negative_log_likelihood (Tensor.Vector (E_of one_patient)) y_true1 y_pred
       = Loss.negative_log_likelihood (Tensor.Vector (E_of one_patient)) y_true2 y_pred.
Proof.
  apply (proj2 nll_ignores_y_true [[0]] [1] [1] [2] one_patient
                 {| X_of := [[0]]; Y_of := [2]; E_of := [1] |});
    reflexivity.
Defined.

End SortClaims.

(** ** Batches, epochs and callbacks *)

Section BatchFacts.
Import Training.
Context {A : Type}.



Lemma make_batches_nonempty (b : nat) (l : list A) :
  l <> [] -> make_batches b l <> [].
Proof. destruct l as [| x t]; [easy | intros _]. unfold make_batches; simpl. easy. Qed.

End BatchFacts.

Section LossValueFacts.
Import Training.
Local Open Scope R_scope.

Lemma less_irrefl (l : loss_value) : less l l = false.
Proof.
  destruct l; simpl; try reflexivity.
  destruct (Rlt_dec r r); [lra | reflexivity].
Qed.

Lemma less_asym (a b : loss_value) : less a b = true -> less b a = false.
Proof.
  destruct a, b; simpl; try easy.
  destruct (Rlt_dec r r0), (Rlt_dec r0 r); try easy. lra.
Qed.

(** A loss below the best value is below every finite loss the best value
    is not above. *)
Lemma less_below_best (l b e : loss_value) :
  less l b = true -> less e b = false -> non_finite e = false ->
  less l e = true.
Proof.
  destruct l, b, e; simpl; try easy.
  destruct (Rlt_dec r r0), (Rlt_dec r1 r0), (Rlt_dec r r1); try easy. lra.
Qed.

Lemma stops_at_non_finite_length (n : nat) (ls : list loss_value) :
  stops_at_non_finite n ls -> (length ls <= n)%nat.
Proof. induction 1; simpl; lia. Qed.

Lemma stops_at_non_finite_last (n : nat) (ls : list loss_value) :
  stops_at_non_finite n ls ->
  forall k l, nth_error ls k = Some l -> non_finite l = true ->
  S k = length ls.
Proof.
  induction 1 as [| n l Hl | n l ls Hl Hrun IH]; intros k l' Hk Hnf.
  - destruct k; discriminate.
  - destruct k as [| [| k]]; simpl in *; try discriminate. reflexivity.
  - destruct k as [| k]; simpl in *.
    + injection Hk as <-. congruence.
    + f_equal. now apply (IH k l').
Qed.

Lemma stops_at_non_finite_early (n : nat) (ls : list loss_value) :
  stops_at_non_finite n ls ->
  length ls = n
  \/ exists l, nth_error ls (length ls - 1) = Some l /\ non_finite l = true.
Proof.
  induction 1 as [| n l Hl | n l ls Hl Hrun IH].
  - now left.
  - right. exists l. now split.
  - destruct IH as [<- | (l' & Hl' & Hnf)]; [now left |].
    right. exists l'. split; [| exact Hnf].
    destruct ls as [| l0 ls]; [discriminate |].
    simpl in *. now rewrite Nat.sub_0_r in *.
Qed.

End LossValueFacts.

Section FitFacts.
Import Training.
Variables (model sample : Type).
Variable train_step : model -> list sample -> model * loss_value.
Variable shuffled : nat -> list sample -> list sample.
Variable file : path.
Variable d0 : gmap path model.

Local Abbreviation script_cbs best :=
  [TerminateOnNaN; ModelCheckpoint file true Min best].

Let run := run_batches model sample train_step.
Let loop := fit_loop model sample train_step shuffled.

(** With [TerminateOnNaN] among the callbacks, an epoch ends with a logged
    loss and with [stop_training] set exactly when that loss is not finite. *)
Lemma run_batches_stop (best : loss_value) (batches : list (list sample)) :
  forall m logs,
  match logs with
  | Some l => non_finite l = false
  | None => batches <> []
  end ->
  exists m' l, run (script_cbs best) batches m logs = (m', Some l, non_finite l).
Proof.
  induction batches as [| b rest IH]; intros m logs Hlogs.
  - destruct logs as [l |]; [| easy].
    exists m, l. simpl. now rewrite Hlogs.
  - simpl. destruct (train_step m b) as [m' l] eqn:Hstep.
    cbn [fold_left on_train_batch_end].
    fold (non_finite l).
    destruct (non_finite l) eqn:Hl.
    + exists m', l. now rewrite Hl.
    + apply (IH m' (Some l)). exact Hl.
Qed.

Lemma epoch_end_script (best l : loss_value) (m : model) (d : gmap path model) :
  epoch_end_all model (script_cbs best) m l d
  = if less l best
    then (script_cbs l, <[file := m]> d, true)
    else (script_cbs best, d, false).
Proof. simpl. destruct (less l best); reflexivity. Qed.

Lemma checkpoint_inv_step (st : fit_state model) (m : model) (l : loss_value) :
  checkpoint_inv model file d0 st -> all_finite model (history st) ->
  forall cbs d w,
  epoch_end_all model (callbacks st) m l (disk st) = (cbs, d, w) ->
  checkpoint_inv model file d0
    {| current := m; callbacks := cbs; disk := d;
       history := history st ++ [{| loss := l; weights := m; wrote := w |}] |}.
Proof.
  intros (best & Hcbs & Hbest & Hwrote & Hfile) Hfin cbs d w Hend.
  rewrite Hcbs, epoch_end_script in Hend.
  destruct (less l best) eqn:Hl; injection Hend as <- <- <-.
  - exists l. cbn [callbacks history disk]. split; [reflexivity |].
    assert (Hbelow : Forall (fun e => less l (loss e) = true) (history st)).
    { apply Forall_forall. intros e He.
      apply (less_below_best l best); [exact Hl | |].
      - exact (proj1 (Forall_forall _ _) Hbest e He).
      - exact (proj1 (Forall_forall _ _) Hfin e He). }
    split; [| split].
    + apply Forall_app. split.
      * eapply Forall_impl; [| exact Hbelow].
        intros e He. now apply less_asym.
      * constructor; [apply less_irrefl | constructor].
    + intros k e Hk Hw j ej Hj Hej.
      destruct (Nat.lt_ge_cases k (length (history st))) as [Hlt | Hge].
      * rewrite nth_error_app1 in Hk by exact Hlt.
        rewrite nth_error_app1 in Hej by lia.
        now apply (Hwrote k e Hk Hw j ej).
      * rewrite nth_error_app2 in Hk by exact Hge.
        destruct (k - length (history st))%nat as [| k'] eqn:Hk';
          [| destruct k'; discriminate].
        injection Hk as <-. cbn [loss].
        rewrite nth_error_app1 in Hej by lia.
        apply (proj1 (Forall_forall _ _) Hbelow).
        eapply nth_error_In; eassumption.
    + right. eexists. split; [apply in_or_app; right; now left |].
      cbn [wrote loss weights]. repeat split.
      now rewrite lookup_insert_eq.
  - exists best. cbn [callbacks history disk]. split; [reflexivity |].
    split; [| split].
    + apply Forall_app. split; [exact Hbest | now repeat constructor].
    + intros k e Hk Hw j ej Hj Hej.
      destruct (Nat.lt_ge_cases k (length (history st))) as [Hlt | Hge].
      * rewrite nth_error_app1 in Hk by exact Hlt.
        rewrite nth_error_app1 in Hej by lia.
        now apply (Hwrote k e Hk Hw j ej).
      * rewrite nth_error_app2 in Hk by exact Hge.
        destruct (k - length (history st))%nat as [| k'];
          [| destruct k'; discriminate].
        injection Hk as <-. discriminate.
    + destruct Hfile as [(Hb & Hnone & Hd) | (e & He & Hw & Hle & Hd)].
      * left. repeat split; auto.
        apply Forall_app. split; [exact Hnone | now repeat constructor].
      * right. exists e. repeat split; auto.
        apply in_or_app. now left.
Qed.

(** The epoch loop returns, keeps the invariant, and the losses it adds to
    the history end with the first non-finite one. *)
Lemma fit_loop_spec (args : fit_args) (data : list sample) :
  (forall epoch, epoch_batches sample shuffled args data epoch <> []) ->
  forall remaining epoch st,
  checkpoint_inv model file d0 st -> all_finite model (history st) ->
  exists st' new,
    loop args data remaining epoch st = Ok st'
    /\ history st' = history st ++ new
    /\ stops_at_non_finite remaining (map loss new)
    /\ checkpoint_inv model file d0 st'.
Proof.
  intros Hbatches.
  induction remaining as [| n IH]; intros epoch st Hinv Hfin.
  - exists st, []. simpl. rewrite app_nil_r. repeat split; [constructor | exact Hinv].
  - pose proof Hinv as (best & Hcbs & _).
    destruct (run_batches_stop best (epoch_batches sample shuffled args data epoch)
                (current st) None (Hbatches epoch)) as (m' & l & Hrun).
    unfold loop. cbn [fit_loop]. fold loop.
    rewrite Hcbs. unfold run in Hrun. rewrite Hrun. rewrite <- Hcbs.
    destruct (epoch_end_all model (callbacks st) m' l (disk st))
      as [[cbs d] w] eqn:Hend.
    pose proof (checkpoint_inv_step st m' l Hinv Hfin cbs d w Hend) as Hinv'.
    set (e := {| loss := l; weights := m'; wrote := w |}) in *.
    set (st1 := {| current := m'; callbacks := cbs; disk := d;
                   history := history st ++ [e] |}) in *.
    destruct (non_finite l) eqn:Hl.
    + exists st1, [e]. repeat split; [| exact Hinv'].
      simpl. now constructor.
    + destruct (IH (S epoch) st1 Hinv') as (st' & new & Hloop & Hhist & Hstop & Hinv'').
      { unfold all_finite, st1. cbn [history].
        apply Forall_app. split; [exact Hfin | now repeat constructor]. }
      exists st', (e :: new). split; [exact Hloop |].
      split; [| split; [| exact Hinv'']].
      * rewrite Hhist. unfold st1. cbn [history]. now rewrite <- app_assoc.
      * simpl. now constructor.
Qed.

End FitFacts.

(** ** Claims about training, checkpointing and evaluation *)

Section TrainingClaims.
Import Sorting Training.
Local Open Scope R_scope.
Variable model : Type.
Variable train_step : model -> list (list R * R) -> model * loss_value.
Variable shuffled : nat -> list (list R * R) -> list (list R * R).
Variable predict : model -> list (list R) -> list R.
Variable concordance_index : list R -> list R -> list R -> R.

Local Abbreviation script_fit loaded m0 data d0 :=
  (fit model (list R * R) train_step shuffled
       (script_fit_args loaded) script_callbacks m0 data d0).


Lemma fit_script_spec (loaded : arrays) (m0 : model)
      (data : list (list R * R)) (d0 : gmap path model) :
  X_of loaded <> [] -> data <> [] ->
  exists st,
    script_fit loaded m0 data d0 = Ok st
    /\ stops_at_non_finite 200 (map loss (history st))
    /\ checkpoint_inv model checkpoint_file d0 st.
Proof.
  intros HX Hdata.
  unfold fit.
  destruct (Nat.eqb_spec (batch_size (script_fit_args loaded)) 0) as [H0 | _].
  { exfalso. cbn in H0. unfold n_patients_train in H0.
    destruct (X_of loaded); [now apply HX | discriminate]. }
  set (st0 := {| current := m0; callbacks := script_callbacks; disk := d0;
                 history := [] |}).
  destruct (fit_loop_spec model (list R * R) train_step shuffled
              checkpoint_file d0 (script_fit_args loaded) data)
    with (remaining := epochs (script_fit_args loaded)) (epoch := 0%nat)
         (st := st0)
    as (st & new & Hloop & Hhist & Hstop & Hinv).
  - intros epoch. unfold epoch_batches. cbn [shuffle script_fit_args].
    now apply make_batches_nonempty.
  - exists PosInf. unfold st0. cbn [callbacks history disk].
    split; [reflexivity |]. split; [constructor |].
    split; [intros [| k] e Hk; discriminate |].
    left. repeat split. constructor.
  - constructor.
  - exists st. split; [exact Hloop |]. split; [| exact Hinv].
    rewrite Hhist. exact Hstop.
Qed.

(** C6: the fit of the script, on at least one sample, returns after at
    most 200 epochs; an epoch whose logged loss is NaN or infinite is the
    last epoch that ran; and either all 200 epochs ran or the last epoch
    that ran logged such a loss. *)
Theorem fit_halts_at_first_non_finite_loss (loaded : arrays) (m0 : model)
        (data : list (list R * R)) (d0 : gmap path model) :
  X_of loaded <> [] -> data <> [] ->
  epochs (script_fit_args loaded) = 200%nat
  /\ exists st,
       script_fit loaded m0 data d0 = Ok st
       /\ (length (history st) <= 200)%nat
       /\ (forall k e, nth_error (history st) k = Some e ->
             non_finite (loss e) = true -> S k = length (history st))
       /\ (length (history st) = 200%nat
           \/ exists e,
                nth_error (history st) (length (history st) - 1) = Some e
                /\ non_finite (loss e) = true).
Proof.
  intros HX Hdata. split; [reflexivity |].
  destruct (fit_script_spec loaded m0 data d0 HX Hdata) as (st & Hfit & Hstop & _).
  exists st. split; [exact Hfit |].
  split; [| split].
  - apply stops_at_non_finite_length in Hstop. now rewrite length_map in Hstop.
  - intros k e Hk Hnf.
    rewrite <- (length_map loss).
    apply (stops_at_non_finite_last _ _ Hstop k (loss e)); [| exact Hnf].
    rewrite nth_error_map, Hk. reflexivity.
  - destruct (stops_at_non_finite_early _ _ Hstop) as [Hall | (l & Hl & Hnf)].
    + left. now rewrite length_map in Hall.
    + right. rewrite length_map, nth_error_map in Hl.
      destruct (nth_error (history st) (length (history st) - 1)) as [e |];
        [| discriminate].
      exists e. split; [reflexivity |].
      simpl in Hl. injection Hl as <-. exact Hnf.
Qed.

End TrainingClaims.

(** *** The claims at a run of one patient whose first loss is NaN *)

Section TrainingWitnesses.
Import Sorting Training.
Local Open Scope R_scope.


Lemma fit_halts_at_first_non_finite_loss_witness :
  exists st,
    fit unit (list R * R) (fun m _ => (m, NaN)) (fun _ l => l)
        (script_fit_args one_patient) script_callbacks tt [([0], 1)] ∅ = Ok st
    /\ (length (history st) <= 200)%nat.
Proof.
  destruct (fit_halts_at_first_non_finite_loss unit (fun m _ => (m, NaN))
              (fun _ l => l) one_patient tt [([0], 1)] ∅)
    as (_ & st & Hfit & Hlen & _); [easy | easy |].
  exists st. split; assumption.
Defined.

End TrainingWitnesses.

(** ** Directory checks and array loading *)

Section FilesFacts.
Import Files.

Lemma path_exists_true (p : path) (w : world) :
  path_exists p w = true <-> is_Some (files w !! p).
Proof. unfold path_exists. apply bool_decide_eq_true. Qed.

Lemma path_exists_false (p : path) (w : world) :
  path_exists p w = false <-> files w !! p = None.
Proof.
  unfold path_exists. rewrite bool_decide_eq_false.
  split; [apply eq_None_not_Some | intros -> [x Hx]; discriminate].
Qed.

(** With the data directory in place the checks do not raise, leave the
    reads alone, and the models directory exists afterwards: it is created
    when it was missing, and nothing else changes in the file system. *)
Lemma check_directories_ok (w : world) :
  path_exists PATH_DATA w = true ->
  exists w',
    check_directories w = (Ok tt, w')
    /\ reads w' = reads w
    /\ path_exists PATH_DATA w' = true
    /\ path_exists PATH_MODELS w' = true
    /\ files w' = (if path_exists PATH_MODELS w then files w
                   else <[PATH_MODELS := Dir]> (files w)).
Proof.
  intros Hd. unfold check_directories. rewrite Hd. cbn [negb].
  destruct (path_exists PATH_MODELS w) eqn:Hm; cbn [negb].
  - exists w. repeat split; assumption.
  - apply path_exists_false in Hm.
    unfold mkdir_parents. cbn [print files]. rewrite Hm.
    cbn [PATH_MODELS prefixes map ensure_dirs]. unfold ensure_dir.
    change ["models"%string] with PATH_MODELS. rewrite Hm. cbn [bind].
    eexists. split; [reflexivity |]. cbn [print files reads].
    repeat split.
    + apply path_exists_true. unfold print. cbn [files].
      rewrite lookup_insert_ne by discriminate.
      now apply path_exists_true.
    + apply path_exists_true. unfold print. cbn [files].
      rewrite lookup_insert_eq. eauto.
Qed.

(** C5, as the code has it: when the data directory does not exist at
    startup the script raises its [ValueError], and then nothing was read,
    created or printed: the check comes before every read.  When the data
    directory exists the checks pass without reading anything, the models
    directory exists afterwards (it is created when it was missing, and the
    file system is otherwise as before), and the script goes on to load the
    arrays; whether that raises is up to [np.load]. *)
Theorem missing_data_directory_raises_first (w : world) :
  (path_exists PATH_DATA w = false ->
   load_dataset w = (Err (ValueError data_directory_message), w))
  /\ (path_exists PATH_DATA w = true ->
      exists w1,
        check_directories w = (Ok tt, w1)
        /\ reads w1 = reads w
        /\ path_exists PATH_MODELS w1 = true
        /\ files w1 = (if path_exists PATH_MODELS w then files w
                       else <[PATH_MODELS := Dir]> (files w))
        /\ load_dataset w = load_arrays w1).
Proof.
  split; intros Hd.
  - unfold load_dataset, and_then, check_directories.
    rewrite Hd. reflexivity.
  - destruct (check_directories_ok w Hd) as (w1 & Hcheck & Hr & _ & Hm & Hf).
    exists w1. repeat split; try assumption.
    unfold load_dataset, and_then. now rewrite Hcheck.
Qed.

(** C5, as the claim words it, fails in a world that has the data directory
    and no array file: the first [np.load] raises [FileNotFoundError]. *)
Lemma raises_with_data_directory :
  path_exists PATH_DATA only_data_directory = true
  /\ fst (load_dataset only_data_directory)
     = Err (FileNotFoundError (datasets "X_train_1000.npy"))
  /\ ~ (raises only_data_directory
        <-> path_exists PATH_DATA only_data_directory = false).
Proof.
  assert (Hd : path_exists PATH_DATA only_data_directory = true).
  { apply path_exists_true. unfold only_data_directory. cbn [files].
    rewrite lookup_singleton_eq. eauto. }
  assert (Hload : fst (load_dataset only_data_directory)
                  = Err (FileNotFoundError (datasets "X_train_1000.npy"))).
  { destruct (check_directories_ok _ Hd) as (w1 & Hcheck & _ & _ & _ & Hf).
    unfold load_dataset, and_then. rewrite Hcheck.
    unfold load_arrays, and_then, np_load at 1.
    assert (Hnone : files w1 !! datasets "X_train_1000.npy" = None).
    { rewrite Hf. destruct (path_exists PATH_MODELS only_data_directory).
      - unfold only_data_directory. cbn [files].
        now rewrite lookup_singleton_ne.
      - rewrite lookup_insert_ne by discriminate.
        unfold only_data_directory. cbn [files].
        now rewrite lookup_singleton_ne. }
    now rewrite Hnone. }
  split; [exact Hd |]. split; [exact Hload |].
  intros [Himp _].
  assert (Hr : raises only_data_directory) by (eexists; exact Hload).
  apply Himp in Hr. congruence.
Qed.

(** With the data directory in place, a first array file that is not in
    the array format makes the script raise the [ValueError] of
    [np.load]. *)
Example raises_on_unreadable_array :
  path_exists PATH_DATA unreadable_array = true
  /\ exists msg, fst (load_dataset unreadable_array) = Err (ValueError msg).
Proof.
  assert (Hd : path_exists PATH_DATA unreadable_array = true).
  { apply path_exists_true. unfold unreadable_array. cbn [files].
    rewrite lookup_insert_ne by discriminate.
    rewrite lookup_singleton_eq. eauto. }
  split; [exact Hd |].
  destruct (check_directories_ok _ Hd) as (w1 & Hcheck & _ & _ & _ & Hf).
  unfold load_dataset, and_then. rewrite Hcheck.
  unfold load_arrays, and_then, np_load at 1.
  assert (Hfile : files w1 !! datasets "X_train_1000.npy"
                  = files unreadable_array !! datasets "X_train_1000.npy").
  { rewrite Hf. destruct (path_exists PATH_MODELS unreadable_array);
      [reflexivity | now rewrite lookup_insert_ne by discriminate]. }
  rewrite Hfile. unfold unreadable_array. cbn [files].
  rewrite lookup_insert_eq. eauto.
Qed.

End FilesFacts.

(** ** The order of the steps *)

Section ScriptFacts.
Import Script.
Local Open Scope string_scope.

Example script_is_well_scoped :
  well_scoped [] script = true /\ lines_increase script = true.
Proof. split; vm_compute; reflexivity. Qed.

(** The statements that read a given name, by line. *)
Lemma closure_is_created_at_compile :
  map line
      (filter (fun s => existsb (String.eqb "negative_log_likelihood") (reads s))
              script)
  = [162].
Proof. vm_compute. reflexivity. Qed.

(** C8, as the code has it: the script goes through the seven steps in the
    order dataset load, label sort, loss definition, model definition,
    training with callbacks, checkpoint reload, metric computation.  The
    loss function is defined on line 115, before the model, which is
    created on line 146; the one statement that calls it to build the
    closure is the [compile] call on line 162. *)
Theorem steps_follow_source_order :
  steps_in_order script = source_order
  /\ first_line DatasetLoad script = Some 55
  /\ first_line LabelSort script = Some 94
  /\ first_line LossDefinition script = Some 115
  /\ first_line ModelDefinition script = Some 146
  /\ first_line TrainingWithCallbacks script = Some 181
  /\ first_line CheckpointReload script = Some 203
  /\ first_line MetricComputation script = Some 205
  /\ lines_increase script = true.
Proof. repeat split; vm_compute; reflexivity. Qed.

(** C8, as the claim words it, fails: the steps are not in the order that
    puts the model definition before the loss definition. *)
Lemma loss_is_defined_before_model :
  first_line LossDefinition script = Some 115
  /\ first_line ModelDefinition script = Some 146
  /\ 115 < 146
  /\ steps_in_order script <> specified_order.
Proof.
  repeat split; try (vm_compute; reflexivity); [lia |].
  vm_compute. discriminate.
Qed.

End ScriptFacts.

(** ** Single-precision arithmetic *)

Section Float32Numbers.
Import Float32.
Local Open Scope R_scope.

Lemma Rabs_le_bounds (x b : R) : Rabs x <= b -> - b <= x <= b.
Proof. unfold Rabs. destruct (Rcase_abs x); lra. Qed.

Lemma exp_le (x y : R) : x <= y -> exp x <= exp y.
Proof.
  intros [H | ->]; [left; now apply exp_increasing | right; reflexivity].
Qed.

Lemma exp_INR (n : nat) : exp (INR n) = exp 1 ^ n.
Proof.
  induction n as [| n IH]; [simpl; apply exp_0 |].
  rewrite S_INR, exp_plus, IH. simpl. ring.
Qed.

Lemma exp_1_ge_2 : 2 <= exp 1.
Proof. pose proof (exp_ineq1 1). lra. Qed.

Lemma pow2_le_exp (n : nat) : 2 ^ n <= exp (IZR (Z.of_nat n)).
Proof.
  rewrite <- INR_IZR_INZ, exp_INR.
  apply pow_incr. pose proof exp_1_ge_2. lra.
Qed.

Lemma pow2_IZR_le_exp (n : nat) :
  IZR (2 ^ Z.of_nat n) <= exp (IZR (Z.of_nat n)).
Proof. rewrite <- pow_IZR. apply pow2_le_exp. Qed.

Lemma exp_le_pow3 (n : nat) : exp (IZR (Z.of_nat n)) <= 3 ^ n.
Proof.
  rewrite <- INR_IZR_INZ, exp_INR.
  apply pow_incr. split; [left; apply exp_pos | apply exp_le_3].
Qed.

Lemma OVER_pos : 0 < OVER.
Proof. apply IZR_lt. reflexivity. Qed.

Lemma TINY_pos : 0 < TINY.
Proof. apply Rinv_0_lt_compat, IZR_lt. reflexivity. Qed.

(** The exponential leaves the range of the format at both ends. *)
Lemma exp_overflows (x : R) : 128 <= x -> OVER <= exp x.
Proof.
  intros Hx.
  apply Rle_trans with (exp 128); [| now apply exp_le].
  apply Rle_trans with (2 ^ 128); [| apply (pow2_le_exp 128)].
  rewrite pow_IZR. apply IZR_le. vm_compute. discriminate.
Qed.

Lemma exp_underflows (x : R) : 150 <= x -> exp (- x) <= TINY.
Proof.
  intros Hx. rewrite exp_Ropp. unfold TINY.
  apply Rinv_le_contravar; [apply IZR_lt; reflexivity |].
  apply Rle_trans with (exp 150); [| now apply exp_le].
  apply Rle_trans with (2 ^ 150); [| apply (pow2_le_exp 150)].
  rewrite pow_IZR. apply IZR_le. vm_compute. discriminate.
Qed.

(** Between -50 and 50 it stays between 2^-80 and 2^80. *)
Lemma exp_moderate (y : R) :
  Rabs y <= 50 -> / IZR (2 ^ 80) <= exp y <= IZR (2 ^ 80).
Proof.
  intros Hy. apply Rabs_le_bounds in Hy.
  assert (H50 : exp 50 <= IZR (2 ^ 80)).
  { apply Rle_trans with (3 ^ 50); [apply (exp_le_pow3 50) |].
    rewrite pow_IZR. apply IZR_le. vm_compute. discriminate. }
  split.
  - apply Rle_trans with (exp (Ropp 50)); [| apply exp_le; lra].
    rewrite exp_Ropp.
    apply Rinv_le_contravar; [apply exp_pos | exact H50].
  - apply Rle_trans with (exp 50); [apply exp_le; lra | exact H50].
Qed.

Lemma ln_le_of_le_exp (c b : R) : 0 < c -> c <= exp b -> ln c <= b.
Proof.
  intros Hc [H | ->]; [| rewrite ln_exp; lra].
  left. rewrite <- (ln_exp b). now apply ln_increasing.
Qed.

Lemma ln_ge_of_exp_le (c a : R) : exp a <= c -> a <= ln c.
Proof.
  intros [H | <-]; [| rewrite ln_exp; lra].
  left. rewrite <- (ln_exp a). apply ln_increasing; [apply exp_pos | exact H].
Qed.

(** The logarithm of a running sum of at most 4096 such hazard ratios. *)
Lemma ln_moderate (c : R) :
  / IZR (2 ^ 80) <= c <= IZR (2 ^ 92) -> Rabs (ln c) <= 128.
Proof.
  intros [Hlo Hhi].
  assert (Hpos : 0 < c).
  { apply Rlt_le_trans with (/ IZR (2 ^ 80)); [| exact Hlo].
    apply Rinv_0_lt_compat, IZR_lt. reflexivity. }
  apply Rabs_le. split.
  - apply Rle_trans with (Ropp 80); [lra |].
    apply ln_ge_of_exp_le.
    apply Rle_trans with (/ IZR (2 ^ 80)); [| exact Hlo].
    rewrite exp_Ropp.
    apply Rinv_le_contravar; [apply IZR_lt; reflexivity |].
    apply (pow2_IZR_le_exp 80).
  - apply Rle_trans with 92; [| lra].
    apply ln_le_of_le_exp; [exact Hpos |].
    apply Rle_trans with (IZR (2 ^ 92)); [exact Hhi |].
    apply (pow2_IZR_le_exp 92).
Qed.

(** *** Numbers of the format *)

Lemma representable_shift (k : Z) (p : nat) :
  (Z.abs k < 2 ^ 24)%Z -> (p <= 104)%nat ->
  representable (IZR (k * 2 ^ Z.of_nat p)).
Proof.
  intros Hk Hp. exists k, p, 0%nat.
  split; [exact Hk |]. split; [exact Hp |]. split; [lia |].
  rewrite mult_IZR, <- pow_IZR. simpl. field.
Qed.

Lemma representable_IZR (k : Z) :
  (Z.abs k < 2 ^ 24)%Z -> representable (IZR k).
Proof.
  intros Hk. replace k with (k * 2 ^ Z.of_nat 0)%Z by (simpl; lia).
  apply representable_shift; [simpl; lia | lia].
Qed.

Lemma representable_inv_pow (q : nat) :
  (q <= 149)%nat -> representable (/ IZR (2 ^ Z.of_nat q)).
Proof.
  intros Hq. exists 1%Z, 0%nat, q.
  split; [reflexivity |]. split; [lia |]. split; [exact Hq |].
  rewrite <- pow_IZR. simpl. field. apply pow_nonzero. lra.
Qed.

Section Rounding.
Variable rnd : R -> R.
Hypothesis Hrnd : rounding rnd.

Lemma rnd_between (a b x : R) :
  representable a -> representable b -> a <= x <= b -> a <= rnd x <= b.
Proof.
  destruct Hrnd as [Hmono Hfix].
  intros Ha Hb [Hax Hxb].
  split.
  - apply Rle_trans with (rnd a); [right; symmetry; now apply Hfix |].
    now apply Hmono.
  - apply Rle_trans with (rnd b); [now apply Hmono |].
    right. now apply Hfix.
Qed.

Lemma to_f32_between (a b x : R) :
  representable a -> representable b ->
  TINY < a -> b < OVER -> a <= x <= b ->
  between a b (to_f32 rnd x).
Proof.
  intros Ha Hb Hlo Hhi Hx. unfold to_f32.
  pose proof OVER_pos. pose proof TINY_pos.
  destruct (Rle_dec OVER x); [lra |].
  destruct (Rle_dec x (- OVER)); [lra |].
  destruct (Rle_dec (Rabs x) TINY) as [Ht |].
  - rewrite Rabs_pos_eq in Ht by lra. lra.
  - exists (rnd x). split; [reflexivity | now apply rnd_between].
Qed.

Lemma to_f32_bounded (k : Z) (p : nat) (x : R) :
  (0 <= k < 2 ^ 24)%Z -> (p <= 100)%nat ->
  Rabs x <= IZR (k * 2 ^ Z.of_nat p) ->
  bounded (IZR (k * 2 ^ Z.of_nat p)) (to_f32 rnd x).
Proof.
  intros Hk Hp Hx. unfold to_f32.
  set (B := IZR (k * 2 ^ Z.of_nat p)) in *.
  assert (HB : representable B)
    by (apply representable_shift; lia).
  assert (HBn : representable (- B)).
  { unfold B. rewrite <- opp_IZR, <- Z.mul_opp_l.
    apply representable_shift; lia. }
  assert (HB0 : 0 <= B).
  { apply IZR_le. apply Z.mul_nonneg_nonneg; [lia |].
    apply Z.pow_nonneg. lia. }
  assert (HBO : B < OVER).
  { apply IZR_lt.
    apply Z.lt_le_trans with (2 ^ 24 * 2 ^ 100)%Z; [| vm_compute; discriminate].
    apply Z.le_lt_trans with (k * 2 ^ 100)%Z.
    - apply Z.mul_le_mono_nonneg_l; [lia |].
      apply Z.pow_le_mono_r; lia.
    - apply Z.mul_lt_mono_pos_r; [reflexivity | lia]. }
  apply Rabs_le_bounds in Hx.
  destruct (Rle_dec OVER x); [lra |].
  destruct (Rle_dec x (- OVER)); [lra |].
  destruct (Rle_dec (Rabs x) TINY).
  - exists 0. split; [reflexivity |]. now rewrite Rabs_R0.
  - exists (rnd x). split; [reflexivity |].
    apply Rabs_le. now apply rnd_between.
Qed.

End Rounding.

End Float32Numbers.

(** ** The loss closure in single precision *)

Section Float32Tensors.
Import Tensor Float32.
Local Open Scope R_scope.

Lemma all_entries_impl (P Q : f32 -> Prop) (t : tensor32) :
  (forall a, P a -> Q a) -> all_entries P t -> all_entries Q t.
Proof.
  intros HPQ. destruct t as [x | xs | c rows]; simpl.
  - apply HPQ.
  - apply Forall_impl, HPQ.
  - apply Forall_impl. intros row. apply Forall_impl, HPQ.
Qed.

Lemma nth_Forall {A : Type} (P : A -> Prop) (xs : list A) (d : A) (j : nat) :
  Forall P xs -> P d -> P (nth j xs d).
Proof.
  intros Hxs Hd. destruct (Nat.lt_ge_cases j (length xs)) as [Hj | Hj].
  - apply (proj1 (Forall_forall P xs) Hxs). now apply nth_In.
  - now rewrite nth_overflow.
Qed.

Lemma entry32_all (P : f32 -> Prop) (t : tensor32) (i j : nat) :
  all_entries P t -> P (Fin 0) -> P (entry32 t i j).
Proof.
  intros Ht Hd. destruct t as [x | xs | c rows]; simpl in *.
  - exact Ht.
  - now apply nth_Forall.
  - apply nth_Forall; [| exact Hd].
    apply (nth_Forall (Forall P) rows []); [exact Ht | constructor].
Qed.

Lemma bcell32_all (f : f32 -> f32 -> f32) (P Q S : f32 -> Prop)
      (a b : tensor32) (i j : nat) :
  (forall x y, P x -> Q y -> S (f x y)) ->
  P (Fin 0) -> Q (Fin 0) ->
  all_entries P a -> all_entries Q b ->
  S (bcell32 f a b i j).
Proof.
  intros Hf HP HQ Ha Hb. unfold bcell32.
  apply Hf; now apply entry32_all.
Qed.

Lemma Forall_map_seq {A : Type} (P : A -> Prop) (g : nat -> A) (n : nat) :
  (forall j, P (g j)) -> Forall P (map g (seq 0 n)).
Proof.
  intros Hg. apply Forall_forall. intros x Hx.
  apply in_map_iff in Hx. destruct Hx as (j & <- & _). apply Hg.
Qed.

Lemma broadcast32_shape (f : f32 -> f32 -> f32) (a b : tensor32) (r c : nat) :
  bdim (nrows32 a) (nrows32 b) = Ok r ->
  bdim (ncols32 a) (ncols32 b) = Ok c ->
  broadcast32 f a b
  = Ok (match Nat.max (rank32 a) (rank32 b) with
        | 0%nat => Scalar32 (bcell32 f a b 0 0)
        | 1%nat => Vector32 (map (bcell32 f a b 0) (seq 0 c))
        | _ => Matrix32 c (map (fun i => map (bcell32 f a b i) (seq 0 c))
                               (seq 0 r))
        end).
Proof. intros Hr Hc. unfold broadcast32. now rewrite Hr, Hc. Qed.

Lemma broadcast32_vectors (f : f32 -> f32 -> f32) (xs zs : list f32) :
  length zs = length xs ->
  broadcast32 f (Vector32 xs) (Vector32 zs)
  = Ok (Vector32 (map (bcell32 f (Vector32 xs) (Vector32 zs) 0)
                      (seq 0 (length xs)))).
Proof.
  intros Hz.
  rewrite (broadcast32_shape f _ _ 1 (length xs)); [reflexivity | |].
  - apply bdim_same.
  - simpl. rewrite Hz. apply bdim_same.
Qed.

Lemma broadcast32_row_column (f : f32 -> f32 -> f32) (xs ls : list f32) :
  length ls = length xs ->
  broadcast32 f (Matrix32 (length xs) [xs]) (column32 ls)
  = Ok (Matrix32 (length xs)
          (map (fun i =>
                  map (bcell32 f (Matrix32 (length xs) [xs]) (column32 ls) i)
                      (seq 0 (length xs)))
               (seq 0 (length xs)))).
Proof.
  intros Hl.
  rewrite (broadcast32_shape f _ _ (length xs) (length xs)); [reflexivity | |].
  - unfold column32. simpl. rewrite length_map, Hl. apply bdim_one_l.
  - apply bdim_one_r.
Qed.

Lemma broadcast32_matrix_vector (f : f32 -> f32 -> f32) (n : nat)
      (rows : list (list f32)) (es : list f32) :
  length rows = n -> length es = n ->
  broadcast32 f (Matrix32 n rows) (Vector32 es)
  = Ok (Matrix32 n
          (map (fun i =>
                  map (bcell32 f (Matrix32 n rows) (Vector32 es) i) (seq 0 n))
               (seq 0 n))).
Proof.
  intros Hrows Hes.
  rewrite (broadcast32_shape f _ _ n n); [reflexivity | |].
  - simpl. rewrite Hrows. apply bdim_one_r.
  - simpl. rewrite Hes. apply bdim_same.
Qed.

Lemma tmap32_column (f : f32 -> f32) (xs : list f32) :
  tmap32 f (column32 xs) = column32 (map f xs).
Proof. unfold column32. simpl. now rewrite !map_map. Qed.

Lemma transpose32_column (xs : list f32) :
  tf_transpose32 (column32 xs) = Matrix32 (length xs) [xs].
Proof.
  unfold column32. simpl. rewrite length_map, map_map. simpl.
  now rewrite map_id.
Qed.

Lemma all_entries_column (P : f32 -> Prop) (xs : list f32) :
  Forall P xs -> all_entries P (column32 xs).
Proof.
  intros Hxs. unfold column32. simpl.
  apply Forall_map. revert Hxs. apply Forall_impl.
  intros x Hx. now repeat constructor.
Qed.

Section WithRounding.
Variable rnd : R -> R.

Lemma cumsum_from32_length (xs : list f32) :
  forall acc, length (cumsum_from32 rnd acc xs) = length xs.
Proof. induction xs as [| x t IH]; intros acc; simpl; [| rewrite IH]; reflexivity. Qed.

Lemma cumsum_rows32_column (xs : list f32) :
  forall acc,
  cumsum_rows32 rnd [acc] (map (fun y => [y]) xs)
  = map (fun y => [y]) (cumsum_from32 rnd acc xs).
Proof.
  induction xs as [| x t IH]; intros acc; [reflexivity |].
  cbn [map cumsum_rows32 cumsum_from32].
  change (vadd32 rnd [acc] [x]) with [fadd rnd acc x].
  now rewrite IH.
Qed.

Lemma cumsum32_column (xs : list f32) :
  tf_cumsum32 rnd (column32 xs)
  = Ok (column32 (cumsum_from32 rnd (Fin 0) xs)).
Proof.
  unfold column32, tf_cumsum32.
  change (repeat (Fin 0) 1) with [Fin 0].
  now rewrite cumsum_rows32_column.
Qed.

End WithRounding.

End Float32Tensors.

Section Float32Loss.
Import Tensor Float32.
Local Open Scope R_scope.
Variable rnd : R -> R.
Hypothesis Hrnd : rounding rnd.

Local Abbreviation lo := (/ IZR (2 ^ 80)).
Local Abbreviation hi k := (IZR (k * 2 ^ 80)).

Lemma between_weaken (a b a' b' : R) (x : f32) :
  a' <= a -> b <= b' -> between a b x -> between a' b' x.
Proof.
  intros Ha Hb (r & -> & Hr). exists r. split; [reflexivity | lra].
Qed.

Lemma lo_pos : 0 < lo.
Proof. apply Rinv_0_lt_compat, IZR_lt. reflexivity. Qed.

Lemma TINY_lt_lo : TINY < lo.
Proof.
  unfold TINY. apply Rinv_lt_contravar; [| apply IZR_lt; reflexivity].
  rewrite <- mult_IZR. apply IZR_lt. reflexivity.
Qed.

Lemma hi_lt_OVER (k : Z) : (k <= 4096)%Z -> hi k < OVER.
Proof.
  intros Hk. apply IZR_lt.
  apply Z.le_lt_trans with (4096 * 2 ^ 80)%Z; [| reflexivity].
  apply Z.mul_le_mono_nonneg_r; [apply Z.pow_nonneg | exact Hk]. lia.
Qed.

Lemma fexp_moderate (y : R) :
  Rabs y <= 50 -> between lo (hi 1) (fexp rnd (Fin y)).
Proof.
  intros Hy. simpl.
  apply (to_f32_between rnd Hrnd).
  - apply (representable_inv_pow 80). lia.
  - apply (representable_shift 1 80); [reflexivity | lia].
  - exact TINY_lt_lo.
  - apply hi_lt_OVER. lia.
  - now apply exp_moderate.
Qed.

Lemma cumsum_from32_between (hs : list f32) :
  Forall (between lo (hi 1)) hs ->
  forall (acc : f32) (j : Z),
  (0 <= j)%Z -> between 0 (hi j) acc ->
  (j + Z.of_nat (length hs) <= 4096)%Z ->
  Forall (between lo (hi (j + Z.of_nat (length hs))))
         (cumsum_from32 rnd acc hs).
Proof.
  induction 1 as [| h t Hh Ht IH]; intros acc j Hj Hacc Hlen; [constructor |].
  cbn [cumsum_from32 length] in *.
  assert (Hstep : between lo (hi (j + 1)) (fadd rnd acc h)).
  { destruct Hacc as (a & -> & Ha). destruct Hh as (x & -> & Hx). simpl.
    apply (to_f32_between rnd Hrnd).
    - apply (representable_inv_pow 80). lia.
    - apply (representable_shift (j + 1) 80); lia.
    - exact TINY_lt_lo.
    - apply hi_lt_OVER. lia.
    - rewrite (Z.mul_add_distr_r j 1), plus_IZR. lra. }
  assert (Hmono : forall k k', (k <= k')%Z -> hi k <= hi k').
  { intros k k' Hk. apply IZR_le.
    apply Z.mul_le_mono_nonneg_r; [apply Z.pow_nonneg; lia | exact Hk]. }
  constructor.
  - apply (between_weaken lo (hi (j + 1))); [lra | apply Hmono; lia | exact Hstep].
  - replace (j + Z.of_nat (S (length t)))%Z
      with (j + 1 + Z.of_nat (length t))%Z by lia.
    apply IH; [lia | | lia].
    apply (between_weaken lo (hi (j + 1))); [| lra | exact Hstep].
    left. exact lo_pos.
Qed.

(** The running sums of at most 4096 hazard ratios of moderate scores are
    positive numbers. *)
Lemma running_sums_between (ys : list R) :
  (length ys <= 4096)%nat ->
  Forall (fun y => Rabs y <= 50) ys ->
  Forall (between lo (IZR (2 ^ 92)))
         (cumsum_from32 rnd (Fin 0) (map (fexp rnd) (map Fin ys))).
Proof.
  intros Hn Hys.
  assert (Hhs : Forall (between lo (hi 1)) (map (fexp rnd) (map Fin ys))).
  { apply Forall_map, Forall_map. revert Hys. apply Forall_impl.
    intros y. apply fexp_moderate. }
  pose proof (cumsum_from32_between _ Hhs (Fin 0) 0 (Z.le_refl 0)) as H.
  rewrite !length_map in H.
  assert (H0 : between 0 (hi 0) (Fin 0)).
  { exists 0. split; [reflexivity |].
    split; [lra | apply IZR_le; vm_compute; discriminate]. }
  specialize (H H0 ltac:(lia)).
  revert H. apply Forall_impl. intros c.
  apply between_weaken; [lra |].
  apply IZR_le.
  apply Z.le_trans with (4096 * 2 ^ 80)%Z; [| vm_compute; discriminate].
  apply Z.mul_le_mono_nonneg_r; [apply Z.pow_nonneg |]; lia.
Qed.

Lemma flog_moderate (c : f32) :
  between lo (IZR (2 ^ 92)) c -> bounded 128 (flog rnd c).
Proof.
  intros (x & -> & Hx). simpl.
  pose proof lo_pos.
  destruct (Rlt_dec 0 x); [| lra].
  apply (to_f32_bounded rnd Hrnd 128 0); [lia | lia |].
  now apply ln_moderate.
Qed.

Lemma fsub_moderate (y l : f32) :
  bounded 50 y -> bounded 128 l -> bounded 256 (fsub rnd y l).
Proof.
  intros (a & -> & Ha) (b & -> & Hb). simpl.
  apply (to_f32_bounded rnd Hrnd 256 0); [lia | lia |].
  change (IZR (256 * 2 ^ Z.of_nat 0)) with 256.
  apply Rabs_le_bounds in Ha, Hb. apply Rabs_le. lra.
Qed.

Lemma fmul_indicator (u e : f32) :
  bounded 256 u -> e = Fin 0 \/ e = Fin 1 -> bounded 256 (fmul rnd u e).
Proof.
  intros (a & -> & Ha) [-> | ->]; simpl;
    apply (to_f32_bounded rnd Hrnd 256 0); try lia.
  - rewrite Rmult_0_r, Rabs_R0.
    change (IZR (256 * 2 ^ Z.of_nat 0)) with 256. lra.
  - now rewrite Rmult_1_r.
Qed.

(** Sums of bounded numbers, from the left: [len] numbers of absolute value
    at most u * 256 add up to at most len * u * 256 in absolute value. *)
Lemma fold_fadd_bounded (u : Z) (xs : list f32) :
  (0 <= u)%Z ->
  Forall (bounded (IZR (u * 2 ^ 8))) xs ->
  forall (acc : f32) (j : Z),
  (0 <= j)%Z -> bounded (IZR (j * u * 2 ^ 8)) acc ->
  ((j + Z.of_nat (length xs)) * u < 2 ^ 24)%Z ->
  bounded (IZR ((j + Z.of_nat (length xs)) * u * 2 ^ 8))
          (fold_left (fadd rnd) xs acc).
Proof.
  intros Hu. induction 1 as [| x t Hx Ht IH]; intros acc j Hj Hacc Hlen.
  - simpl. now rewrite Z.add_0_r.
  - cbn [fold_left length] in *.
    replace (j + Z.of_nat (S (length t)))%Z
      with (j + 1 + Z.of_nat (length t))%Z in * by lia.
    apply IH; [lia | | exact Hlen].
    destruct Hacc as (a & -> & Ha). destruct Hx as (b & -> & Hb). simpl.
    apply (to_f32_bounded rnd Hrnd ((j + 1) * u) 8).
    + split; [apply Z.mul_nonneg_nonneg; lia |].
      apply Z.le_lt_trans with ((j + 1 + Z.of_nat (length t)) * u)%Z;
        [| exact Hlen].
      apply Z.mul_le_mono_nonneg_r; lia.
    + lia.
    + apply Rle_trans with (Rabs a + Rabs b); [apply Rabs_triang |].
      replace ((j + 1) * u * 2 ^ Z.of_nat 8)%Z
        with (j * u * 2 ^ 8 + u * 2 ^ 8)%Z by (change (Z.of_nat 8) with 8%Z; lia).
      rewrite plus_IZR. lra.
Qed.

Lemma fsum_bounded (u : Z) (xs : list f32) :
  (0 <= u)%Z ->
  Forall (bounded (IZR (u * 2 ^ 8))) xs ->
  (Z.of_nat (length xs) * u < 2 ^ 24)%Z ->
  bounded (IZR (Z.of_nat (length xs) * u * 2 ^ 8)) (fsum rnd xs).
Proof.
  intros Hu Hxs Hlen. unfold fsum.
  apply (fold_fadd_bounded u xs Hu Hxs (Fin 0) 0); [lia | | exact Hlen].
  exists 0. split; [reflexivity |]. rewrite Rabs_R0.
  apply IZR_le. vm_compute. discriminate.
Qed.

(** The last two steps of the closure: the negation and the division by
    the constant 1. *)
Lemma finish_bounded (k : Z) (s : f32) :
  (0 <= k < 2 ^ 24)%Z ->
  bounded (IZR (k * 2 ^ 8)) s ->
  bounded (IZR (k * 2 ^ 8)) (fdiv rnd (fneg s) (Fin 1)).
Proof.
  intros Hk (x & -> & Hx). simpl.
  destruct (Req_dec_T 1 0) as [H | _]; [lra |].
  apply (to_f32_bounded rnd Hrnd k 8); [exact Hk | lia |].
  replace (- x / 1) with (- x) by field.
  now rewrite Rabs_Ropp.
Qed.

End Float32Loss.

Section Float32LossRuns.
Import Tensor Float32.
Local Open Scope R_scope.
Variable rnd : R -> R.
Hypothesis Hrnd : rounding rnd.

Lemma nll32_unfold (E y_true y_pred cum censored : tensor32) :
  tf_cumsum32 rnd (tf_exp32 rnd y_pred) = Ok cum ->
  (u <- tf_sub32 rnd (tf_transpose32 y_pred) (tf_log32 rnd cum) ;;
   tf_mul32 rnd u E) = Ok censored ->
  negative_log_likelihood32 rnd E y_true y_pred
  = Ok (fdiv rnd (fneg (reduce_sum32 rnd censored)) (Fin 1)).
Proof.
  intros Hcum Hrest. unfold negative_log_likelihood32. cbv zeta.
  rewrite Hcum. cbn [bind].
  destruct (tf_sub32 rnd (tf_transpose32 y_pred) (tf_log32 rnd cum))
    as [u | e]; cbn [bind] in *; [| discriminate].
  now rewrite Hrest.
Qed.

Lemma bounded_zero (B : R) : 0 <= B -> bounded B (Fin 0).
Proof. intros HB. exists 0. split; [reflexivity |]. now rewrite Rabs_R0. Qed.

Lemma scores_bounded (ys : list R) :
  Forall (fun y => Rabs y <= 50) ys -> Forall (bounded 50) (map Fin ys).
Proof.
  intros Hys. apply Forall_map. revert Hys. apply Forall_impl.
  intros y Hy. now exists y.
Qed.

Lemma events_indicators (E : list R) :
  Forall (fun e => e = 0 \/ e = 1) E ->
  Forall (fun e => e = Fin 0 \/ e = Fin 1) (map Fin E).
Proof.
  intros HE. apply Forall_map. revert HE. apply Forall_impl.
  intros e [-> | ->]; [now left | now right].
Qed.

Lemma between_is_positive (c : f32) :
  between (/ IZR (2 ^ 80)) (IZR (2 ^ 92)) c -> exists x, c = Fin x /\ 0 < x.
Proof.
  intros (x & -> & Hx). exists x. split; [reflexivity |].
  pose proof lo_pos. lra.
Qed.

Lemma bounded_is_number (B : R) (l : f32) :
  bounded B l -> exists x, l = Fin x.
Proof. intros (x & -> & _). now exists x. Qed.

Section Batch.
Variables (E ys : list R).
Hypothesis HE : length E = length ys.
Hypothesis Hn : (length ys <= 4000)%nat.
Hypothesis Hys : Forall (fun y => Rabs y <= 50) ys.
Hypothesis Hind : Forall (fun e => e = 0 \/ e = 1) E.

Local Abbreviation scores := (map Fin ys).
Local Abbreviation events := (map Fin E).
Local Abbreviation sums :=
  (cumsum_from32 rnd (Fin 0) (map (fexp rnd) (map Fin ys))).
Local Abbreviation logs := (map (flog rnd) sums).

Lemma sums_between : Forall (between (/ IZR (2 ^ 80)) (IZR (2 ^ 92))) sums.
Proof. apply (running_sums_between rnd Hrnd); [lia | exact Hys]. Qed.

Lemma logs_bounded : Forall (bounded 128) logs.
Proof.
  apply Forall_map. generalize sums_between. apply Forall_impl.
  intros c. apply (flog_moderate rnd Hrnd).
Qed.

Lemma logs_length : length logs = length scores.
Proof. now rewrite !length_map, cumsum_from32_length, !length_map. Qed.

Lemma sub_cell_bounded (a b : tensor32) (i j : nat) :
  all_entries (bounded 50) a -> all_entries (bounded 128) b ->
  bounded 256 (bcell32 (fsub rnd) a b i j).
Proof.
  intros Ha Hb.
  apply (bcell32_all (fsub rnd) (bounded 50) (bounded 128)); try assumption.
  - apply (fsub_moderate rnd Hrnd).
  - apply bounded_zero. lra.
  - apply bounded_zero. lra.
Qed.

Lemma mul_cell_bounded (a b : tensor32) (i j : nat) :
  all_entries (bounded 256) a ->
  all_entries (fun e => e = Fin 0 \/ e = Fin 1) b ->
  bounded 256 (bcell32 (fmul rnd) a b i j).
Proof.
  intros Ha Hb.
  apply (bcell32_all (fmul rnd) (bounded 256)
           (fun e => e = Fin 0 \/ e = Fin 1)); try assumption.
  - apply (fmul_indicator rnd Hrnd).
  - apply bounded_zero. lra.
  - now left.
Qed.

Lemma nll32_on_vector (y_true : tensor32) :
  returns_a_number rnd (Vector32 events) y_true (Vector32 scores).
Proof.
  set (n := length scores).
  set (us := map (bcell32 (fsub rnd) (Vector32 scores) (Vector32 logs) 0)
                 (seq 0 n)).
  set (cs := map (bcell32 (fmul rnd) (Vector32 us) (Vector32 events) 0)
                 (seq 0 n)).
  assert (Hus : Forall (bounded 256) us).
  { apply Forall_map_seq. intros j. apply sub_cell_bounded.
    - now apply scores_bounded.
    - exact logs_bounded. }
  assert (Hcs : Forall (bounded 256) cs).
  { apply Forall_map_seq. intros j. apply mul_cell_bounded.
    - exact Hus.
    - now apply events_indicators. }
  assert (Hlen_us : length us = n)
    by (unfold us; now rewrite length_map, length_seq).
  assert (Hlen_cs : length cs = n)
    by (unfold cs; now rewrite length_map, length_seq).
  assert (Hnn : n = length ys) by (unfold n; now rewrite length_map).
  assert (Hcum : tf_cumsum32 rnd (tf_exp32 rnd (Vector32 scores))
                 = Ok (Vector32 sums)) by reflexivity.
  assert (Hrest :
            (u <- tf_sub32 rnd (tf_transpose32 (Vector32 scores))
                           (tf_log32 rnd (Vector32 sums)) ;;
             tf_mul32 rnd u (Vector32 events)) = Ok (Vector32 cs)).
  { change (tf_transpose32 (Vector32 scores)) with (Vector32 scores).
    change (tf_log32 rnd (Vector32 sums)) with (Vector32 logs).
    unfold tf_sub32. rewrite broadcast32_vectors by exact logs_length.
    cbn [bind]. fold n. fold us.
    unfold tf_mul32. rewrite broadcast32_vectors.
    - now rewrite Hlen_us.
    - rewrite Hlen_us, Hnn, length_map. exact HE. }
  assert (Hsum : bounded (IZR (Z.of_nat n * 1 * 2 ^ 8)) (fsum rnd cs)).
  { rewrite <- Hlen_cs.
    apply (fsum_bounded rnd Hrnd 1 cs); [lia | exact Hcs | lia]. }
  destruct (finish_bounded rnd Hrnd (Z.of_nat n * 1) (fsum rnd cs)
              ltac:(lia) Hsum) as (r & Hr & _).
  exists (Vector32 sums), (Vector32 cs), r.
  split; [exact Hcum |].
  split.
  { simpl. generalize sums_between. apply Forall_impl.
    exact between_is_positive. }
  split.
  { simpl. generalize logs_bounded. apply Forall_impl.
    exact (bounded_is_number 128). }
  split; [exact Hrest |].
  split; [exact (nll32_unfold _ _ _ _ _ Hcum Hrest) | exact Hr].
Qed.

Lemma nll32_on_column (y_true : tensor32) :
  returns_a_number rnd (Vector32 events) y_true (column32 scores).
Proof.
  set (n := length scores).
  set (row := Matrix32 n [scores]).
  set (U := map (fun i => map (bcell32 (fsub rnd) row (column32 logs) i)
                              (seq 0 n)) (seq 0 n)).
  set (C := map (fun i => map (bcell32 (fmul rnd) (Matrix32 n U)
                                       (Vector32 events) i)
                              (seq 0 n)) (seq 0 n)).
  assert (Hnn : n = length ys) by (unfold n; now rewrite length_map).
  assert (Hrow : all_entries (bounded 50) row).
  { simpl. constructor; [| constructor]. now apply scores_bounded. }
  assert (HU : Forall (Forall (bounded 256)) U).
  { apply Forall_map_seq. intros i. apply Forall_map_seq. intros j.
    apply sub_cell_bounded; [exact Hrow |].
    apply all_entries_column. exact logs_bounded. }
  assert (HC : forall i j,
             bounded 256
               (bcell32 (fmul rnd) (Matrix32 n U) (Vector32 events) i j)).
  { intros i j. apply mul_cell_bounded; [exact HU |].
    now apply events_indicators. }
  assert (Hcum : tf_cumsum32 rnd (tf_exp32 rnd (column32 scores))
                 = Ok (column32 sums)).
  { unfold tf_exp32. rewrite tmap32_column. apply cumsum32_column. }
  assert (Hlog : tf_log32 rnd (column32 sums) = column32 logs)
    by apply tmap32_column.
  assert (Hrest :
            (u <- tf_sub32 rnd (tf_transpose32 (column32 scores))
                           (tf_log32 rnd (column32 sums)) ;;
             tf_mul32 rnd u (Vector32 events)) = Ok (Matrix32 n C)).
  { rewrite transpose32_column, Hlog.
    unfold tf_sub32. rewrite broadcast32_row_column by exact logs_length.
    cbn [bind]. fold n. fold row. fold U.
    unfold tf_mul32. rewrite (broadcast32_matrix_vector (fmul rnd) n U).
    - reflexivity.
    - unfold U. now rewrite length_map, length_seq.
    - rewrite Hnn, length_map. exact HE. }
  assert (Hrows : Forall (bounded (IZR (Z.of_nat n * 2 ^ 8)))
                         (map (fsum rnd) C)).
  { unfold C. rewrite map_map. apply Forall_map_seq. intros i.
    set (cells := map _ (seq 0 n)).
    assert (Hlen : length cells = n)
      by (unfold cells; now rewrite length_map, length_seq).
    replace (Z.of_nat n) with (Z.of_nat (length cells) * 1)%Z by lia.
    apply (fsum_bounded rnd Hrnd 1 cells); [lia | | lia].
    apply Forall_map_seq. intros j. apply HC. }
  assert (Hlen : length (map (fsum rnd) C) = n)
    by (unfold C; now rewrite !length_map, length_seq).
  assert (Hsum : bounded (IZR (Z.of_nat n * Z.of_nat n * 2 ^ 8))
                         (fsum rnd (map (fsum rnd) C))).
  { rewrite <- Hlen at 1.
    apply (fsum_bounded rnd Hrnd (Z.of_nat n)); [lia | exact Hrows | nia]. }
  destruct (finish_bounded rnd Hrnd (Z.of_nat n * Z.of_nat n)
              (fsum rnd (map (fsum rnd) C)) ltac:(nia) Hsum) as (r & Hr & _).
  exists (column32 sums), (Matrix32 n C), r.
  split; [exact Hcum |].
  split.
  { apply all_entries_column. generalize sums_between. apply Forall_impl.
    exact between_is_positive. }
  split.
  { rewrite Hlog. apply all_entries_column.
    generalize logs_bounded. apply Forall_impl.
    exact (bounded_is_number 128). }
  split; [exact Hrest |].
  split; [exact (nll32_unfold _ _ _ _ _ Hcum Hrest) | exact Hr].
Qed.

End Batch.

End Float32LossRuns.

(** ** Claims about the loss and the predictions in single precision *)

Section Float32Claims.
Import Tensor Float32.
Local Open Scope R_scope.

Lemma to_f32_over (rnd : R -> R) (x : R) : OVER <= x -> to_f32 rnd x = PInf.
Proof. intros Hx. unfold to_f32. now destruct (Rle_dec OVER x). Qed.

Lemma TINY_lt_OVER : TINY < OVER.
Proof.
  apply Rlt_trans with 1.
  - unfold TINY. rewrite <- Rinv_1.
    apply Rinv_lt_contravar; [| apply IZR_lt; reflexivity].
    rewrite Rmult_1_l. apply IZR_lt. reflexivity.
  - apply IZR_lt. reflexivity.
Qed.

Lemma to_f32_tiny (rnd : R -> R) (x : R) :
  Rabs x <= TINY -> to_f32 rnd x = Fin 0.
Proof.
  intros Hx. unfold to_f32.
  pose proof TINY_lt_OVER. pose proof TINY_pos.
  apply Rabs_le_bounds in Hx.
  destruct (Rle_dec OVER x); [lra |].
  destruct (Rle_dec x (- OVER)); [lra |].
  destruct (Rle_dec (Rabs x) TINY) as [| Hn]; [reflexivity |].
  contradiction Hn. apply Rabs_le. lra.
Qed.

Lemma to_f32_zero (rnd : R -> R) : to_f32 rnd 0 = Fin 0.
Proof. apply to_f32_tiny. rewrite Rabs_R0. left. exact TINY_pos. Qed.

Lemma fexp_200 (rnd : R -> R) : fexp rnd (Fin 200) = PInf.
Proof. simpl. apply to_f32_over, exp_overflows. lra. Qed.

Lemma fexp_minus_200 (rnd : R -> R) : fexp rnd (Fin (- 200)) = Fin 0.
Proof.
  simpl. apply to_f32_tiny.
  rewrite Rabs_pos_eq by (left; apply exp_pos).
  change (-200) with (Ropp 200). apply exp_underflows. lra.
Qed.

Lemma scaled_one (inf : f32) : scaled inf 1 = inf.
Proof. unfold scaled. destruct (Rlt_dec 0 1); [reflexivity | lra]. Qed.

Lemma scaled_zero (inf : f32) : scaled inf 0 = Nan.
Proof.
  unfold scaled.
  destruct (Rlt_dec 0 0); [lra |]. destruct (Rlt_dec 0 0); [lra | reflexivity].
Qed.

Lemma fdiv_inf_one (rnd : R -> R) (inf : f32) :
  inf = PInf \/ inf = NInf -> fdiv rnd inf (Fin 1) = inf.
Proof.
  intros [-> | ->]; simpl; destruct (Rlt_dec 1 0); (lra || reflexivity).
Qed.

(** The closure on one patient, given as a column of shape (1, 1). *)
Lemma nll32_one_patient (rnd : R -> R) (e y : f32) (y_true : tensor32) :
  negative_log_likelihood32 rnd (Vector32 [e]) y_true (column32 [y])
  = Ok (fdiv rnd
          (fneg (fadd rnd (Fin 0)
                   (fadd rnd (Fin 0)
                      (fmul rnd
                         (fsub rnd y (flog rnd (fadd rnd (Fin 0) (fexp rnd y))))
                         e))))
          (Fin 1)).
Proof. reflexivity. Qed.

(** C3, as the claim words it, fails in single precision.  On one patient
    with an observed event the closure returns plus infinity for the score
    200, whose hazard ratio overflows, and minus infinity for the score
    -200, whose hazard ratio rounds to zero; with the event censored and the
    score 200 it returns no number at all. *)
Lemma nll32_leaves_the_numbers :
  (forall (rnd : R -> R) (y_true : tensor32),
     negative_log_likelihood32 rnd (Vector32 [Fin 1]) y_true
                               (column32 [Fin 200]) = Ok PInf)
  /\ (forall (rnd : R -> R) (y_true : tensor32),
        negative_log_likelihood32 rnd (Vector32 [Fin 1]) y_true
                                  (column32 [Fin (- 200)]) = Ok NInf)
  /\ (forall (rnd : R -> R) (y_true : tensor32),
        negative_log_likelihood32 rnd (Vector32 [Fin 0]) y_true
                                  (column32 [Fin 200]) = Ok Nan).
Proof.
  split; [| split]; intros rnd y_true; rewrite nll32_one_patient.
  - rewrite fexp_200. cbn [fadd flog fsub fneg fmul].
    rewrite scaled_one. cbn [fadd fneg].
    rewrite fdiv_inf_one; [reflexivity | now left].
  - rewrite fexp_minus_200. cbn [fadd].
    replace (0 + 0) with 0 by lra. rewrite to_f32_zero.
    cbn [flog].
    destruct (Rlt_dec 0 0); [lra |].
    cbn [fsub fneg fadd fmul]. rewrite scaled_one. cbn [fadd fneg].
    rewrite fdiv_inf_one; [reflexivity | now right].
  - rewrite fexp_200. cbn [fadd flog fsub fneg fmul].
    rewrite scaled_zero. reflexivity.
Qed.

(** C3, as the code has it.  With a rounding that keeps the order and the
    numbers of the format, on a batch of at most 4000 patients whose scores
    lie between -50 and 50, given as a column of shape (n, 1) or as a vector
    of shape (n,), with n event indicators 0 or 1: every running sum of
    hazard ratios is a positive number, its logarithm is a number, no shape
    error occurs, and the closure returns a number. *)
Theorem nll32_returns_a_number (rnd : R -> R) (E ys : list R)
        (y_true : tensor32) :
  rounding rnd ->
  length E = length ys ->
  (length ys <= 4000)%nat ->
  Forall (fun y => Rabs y <= 50) ys ->
  Forall (fun e => e = 0 \/ e = 1) E ->
  returns_a_number rnd (Vector32 (map Fin E)) y_true (column32 (map Fin ys))
  /\ returns_a_number rnd (Vector32 (map Fin E)) y_true
                      (Vector32 (map Fin ys)).
Proof.
  intros Hrnd HE Hn Hys Hind. split.
  - now apply nll32_on_column.
  - now apply nll32_on_vector.
Qed.

Lemma rounding_id : rounding (fun x => x).
Proof. split; [intros x y H; exact H | reflexivity]. Qed.

Lemma nll32_returns_a_number_witness :
  returns_a_number (fun x => x) (Vector32 [Fin 1]) (Scalar32 (Fin 0))
                   (column32 [Fin 0])
  /\ returns_a_number (fun x => x) (Vector32 [Fin 1]) (Scalar32 (Fin 0))
                      (Vector32 [Fin 0]).
Proof.
  apply (nll32_returns_a_number (fun x => x) [1] [0] (Scalar32 (Fin 0))).
  - exact rounding_id.
  - reflexivity.
  - simpl. lia.
  - constructor; [rewrite Rabs_R0; lra | constructor].
  - constructor; [now right | constructor].
Defined.

(** *** The transformation of the raw outputs *)

Lemma to_f32_not_nan (rnd : R -> R) (x : R) : to_f32 rnd x <> Nan.
Proof.
  unfold to_f32.
  destruct (Rle_dec OVER x); [discriminate |].
  destruct (Rle_dec x (- OVER)); [discriminate |].
  destruct (Rle_dec (Rabs x) TINY); discriminate.
Qed.

Lemma to_f32_mono (rnd : R -> R) (x y : R) :
  rounding rnd -> x <= y -> fle (to_f32 rnd x) (to_f32 rnd y).
Proof.
  intros [Hmono Hfix] Hxy.
  assert (H0 : rnd 0 = 0).
  { apply Hfix. apply (representable_IZR 0). reflexivity. }
  pose proof TINY_pos as Ht. pose proof OVER_pos as Ho.
  unfold to_f32.
  destruct (Rle_dec OVER y) as [Hy | Hy].
  { destruct (Rle_dec OVER x); [exact I |].
    destruct (Rle_dec x (- OVER)); [exact I |].
    destruct (Rle_dec (Rabs x) TINY); exact I. }
  destruct (Rle_dec OVER x) as [Hx | Hx]; [lra |].
  destruct (Rle_dec x (- OVER)) as [Hx' | Hx'].
  { destruct (Rle_dec y (- OVER)); [exact I |].
    destruct (Rle_dec (Rabs y) TINY); exact I. }
  destruct (Rle_dec y (- OVER)) as [Hy' | Hy']; [lra |].
  destruct (Rle_dec (Rabs x) TINY) as [Htx | Htx];
    destruct (Rle_dec (Rabs y) TINY) as [Hty | Hty]; simpl.
  - lra.
  - apply Rabs_le_bounds in Htx.
    assert (0 <= y).
    { destruct (Rle_dec 0 y) as [| Hneg]; [assumption |].
      contradiction Hty. apply Rabs_le. lra. }
    rewrite <- H0. now apply Hmono.
  - apply Rabs_le_bounds in Hty.
    assert (x <= 0).
    { destruct (Rle_dec x 0) as [| Hpos]; [assumption |].
      contradiction Htx. apply Rabs_le. lra. }
    rewrite <- H0. now apply Hmono.
  - now apply Hmono.
Qed.

(** C10, as the claim words it, fails in single precision: the raw outputs
    1000 and 2000 are both sent to 0, which is not positive, and their
    order is lost. *)
Lemma exp_neg32_underflows :
  (forall rnd : R -> R, exp_neg32 rnd (Fin 1000) = Fin 0)
  /\ (forall rnd : R -> R, exp_neg32 rnd (Fin 2000) = Fin 0)
  /\ 1000 < 2000.
Proof.
  split; [| split]; [| | lra]; intros rnd; unfold exp_neg32; simpl;
    apply to_f32_tiny; rewrite Rabs_pos_eq by (left; apply exp_pos);
    apply exp_underflows; lra.
Qed.

(** C10, as the code has it.  With a rounding that keeps the order and the
    numbers of the format, the transformation h -> exp(-h) of the raw
    outputs never increases and is never negative: for h1 < h2 the value at
    h2 is at most the value at h1 and at least 0 (the value at h1 can be
    plus infinity); for a raw output between -50 and 50 it is a positive
    number, between 2^-80 and 2^80. *)
Theorem exp_neg32_reverses_order_weakly (rnd : R -> R) (h1 h2 : R) :
  rounding rnd ->
  h1 < h2 ->
  fle (exp_neg32 rnd (Fin h2)) (exp_neg32 rnd (Fin h1))
  /\ fle (Fin 0) (exp_neg32 rnd (Fin h2))
  /\ (Rabs h2 <= 50 ->
      between (/ IZR (2 ^ 80)) (IZR (2 ^ 80)) (exp_neg32 rnd (Fin h2))).
Proof.
  intros Hrnd Hlt. unfold exp_neg32. cbn [fneg fexp].
  split; [| split].
  - apply to_f32_mono; [exact Hrnd |]. apply exp_le. lra.
  - rewrite <- (to_f32_zero rnd).
    apply to_f32_mono; [exact Hrnd |]. left. apply exp_pos.
  - intros Hh.
    apply (fexp_moderate rnd Hrnd (- h2)). now rewrite Rabs_Ropp.
Qed.

Lemma exp_neg32_reverses_order_weakly_witness :
  fle (exp_neg32 (fun x => x) (Fin 1)) (exp_neg32 (fun x => x) (Fin 0))
  /\ fle (Fin 0) (exp_neg32 (fun x => x) (Fin 1))
  /\ (Rabs 1 <= 50 ->
      between (/ IZR (2 ^ 80)) (IZR (2 ^ 80)) (exp_neg32 (fun x => x) (Fin 1))).
Proof.
  apply (exp_neg32_reverses_order_weakly (fun x => x) 0 1).
  - exact rounding_id.
  - lra.
Defined.

End Float32Claims.

(** ** Examples *)

Section Examples.
Import Tensor Sorting.
Local Open Scope R_scope.

(** [np.argsort] on keys that compute, and the reversal of the script. *)
Example argsort_nat : argsort Nat.leb [30; 10; 20; 10]%nat = [1; 3; 2; 0]%nat.
Proof. reflexivity. Qed.

Example argsort_reversed :
  rev (argsort Nat.leb [30; 10; 20; 10]%nat) = [0; 2; 3; 1]%nat.
Proof. reflexivity. Qed.

(** The shapes in the loss on a column of two scores. *)
Example shapes_on_a_column (a b c d : R) :
  shape (tf_transpose (column [a; b])) = [1; 2]%nat
  /\ tf_sub (tf_transpose (column [a; b])) (column [c; d])
     = Ok (Matrix 2 [[a - c; b - c]; [a - d; b - d]]).
Proof. split; reflexivity. Qed.

Example shapes_do_not_broadcast (a b c : R) :
  tf_sub (Vector [a; b]) (Vector [a; b; c]) = Err ShapeError.
Proof. reflexivity. Qed.

End Examples.

(** * Further properties of the code *)

(** ** Sums *)

Section SumFacts.
Import Tensor.
Local Open Scope R_scope.

Lemma Rsum_map_minus {A : Type} (f g : A -> R) (l : list A) :
  Rsum (map (fun i => f i - g i) l) = Rsum (map f l) - Rsum (map g l).
Proof. induction l as [| a t IH]; simpl; [lra | rewrite IH; lra]. Qed.

Lemma Rsum_map_scal {A : Type} (c : R) (f : A -> R) (l : list A) :
  Rsum (map (fun i => f i * c) l) = Rsum (map f l) * c.
Proof. induction l as [| a t IH]; simpl; [lra | rewrite IH; lra]. Qed.

Lemma Rsum_map_const {A : Type} (c : R) (l : list A) :
  Rsum (map (fun _ => c) l) = INR (length l) * c.
Proof.
  induction l as [| a t IH]; [simpl; lra |].
  cbn [map Rsum fold_right length]. fold (Rsum (map (fun _ => c) t)).
  rewrite IH, S_INR. lra.
Qed.

Lemma Rsum_map_zero {A : Type} (f : A -> R) (l : list A) :
  (forall a, In a l -> f a = 0) -> Rsum (map f l) = 0.
Proof.
  induction l as [| a t IH]; intros Hf; simpl; [reflexivity |].
  rewrite (Hf a) by now left. rewrite IH; [lra |].
  intros b Hb. apply Hf. now right.
Qed.

Lemma map_nth_seq (l : list R) :
  map (fun j => nth j l 0) (seq 0 (length l)) = l.
Proof.
  induction l as [| x t IH]; [reflexivity |].
  cbn [length seq map nth]. f_equal.
  rewrite <- seq_shift, map_map. exact IH.
Qed.

Lemma dot_by_index (u : list R) :
  forall v, length v = length u ->
  map (fun j => nth j u 0 * nth j v 0) (seq 0 (length u))
  = map (fun p => fst p * snd p) (combine u v).
Proof.
  induction u as [| x t IH]; intros [| y v] Hlen; simpl in Hlen;
    try discriminate; [reflexivity |].
  cbn [length seq map combine nth fst snd]. f_equal.
  rewrite <- seq_shift, map_map. apply IH. now injection Hlen.
Qed.

End SumFacts.

(** ** More on the loss closure *)

Section LossExtras.
Import Tensor Loss.
Local Open Scope R_scope.

Lemma broadcast_nll_closed (E ys : list R) :
  length E = length ys -> broadcast_nll E ys = broadcast_closed_form E ys.
Proof.
  intros HE. unfold broadcast_nll, broadcast_closed_form. cbv zeta.
  pose proof (log_risk_of_length ys) as Hlr.
  set (lr := log_risk_of ys) in *. set (n := length ys) in *.
  f_equal.
  transitivity (Rsum (map (fun i => dot ys E - nth i lr 0 * Rsum E) (seq 0 n))).
  - f_equal. apply map_ext. intros i.
    transitivity (Rsum (map (fun j => nth j ys 0 * nth j E 0
                                      - nth j E 0 * nth i lr 0) (seq 0 n))).
    + f_equal. apply map_ext. intros j. lra.
    + rewrite Rsum_map_minus, Rsum_map_scal.
      unfold n at 1. rewrite dot_by_index by exact HE.
      rewrite <- HE, map_nth_seq. unfold dot. lra.
  - rewrite Rsum_map_minus, Rsum_map_const, Rsum_map_scal, length_seq.
    rewrite <- Hlr at 2. rewrite map_nth_seq. reflexivity.
Qed.

(** On predictions of shape (n,), with n event indicators, the closure
    returns the negative log partial likelihood, one contribution per
    patient. *)
Theorem closure_on_vector_is_partial_likelihood
        (E ys : list R) (y_true : tensor) :
  length E = length ys ->
  negative_log_likelihood (Vector E) y_true (Vector ys)
  = Ok (textbook_nll E ys).
Proof. apply nll_on_vector. Qed.

Lemma closure_on_vector_is_partial_likelihood_witness :
  negative_log_likelihood (Vector [1; 0]) (Scalar 0) (Vector [0; 1])
  = Ok (textbook_nll [1; 0] [0; 1]).
Proof.
  apply (closure_on_vector_is_partial_likelihood [1; 0] [0; 1] (Scalar 0)).
  reflexivity.
Defined.

(** On predictions of shape (n, 1), with n event indicators, the closure
    returns minus (n times the sum of the scores of the observed events,
    less the number of observed events times the sum of all n log
    cumulative hazards). *)
Theorem closure_on_column_closed_form (E ys : list R) (y_true : tensor) :
  length E = length ys ->
  negative_log_likelihood (Vector E) y_true (column ys)
  = Ok (- (INR (length ys) * dot ys E - Rsum (log_risk_of ys) * Rsum E)).
Proof.
  intros HE. rewrite nll_on_column by exact HE.
  now rewrite broadcast_nll_closed by exact HE.
Qed.

Lemma closure_on_column_closed_form_witness :
  negative_log_likelihood (Vector [1; 0]) (Scalar 0) (column [0; 1])
  = Ok (- (INR 2 * dot [0; 1] [1; 0] - Rsum (log_risk_of [0; 1]) * Rsum [1; 0])).
Proof.
  apply (closure_on_column_closed_form [1; 0] [0; 1] (Scalar 0)). reflexivity.
Defined.

(** Event indicators that fit neither the batch nor a single value make the
    product fail: the closure raises a shape error in both layouts. *)
Theorem closure_rejects_misaligned_events (E ys : list R) (y_true : tensor) :
  length E <> length ys -> length E <> 1%nat -> length ys <> 1%nat ->
  negative_log_likelihood (Vector E) y_true (column ys) = Err ShapeError
  /\ negative_log_likelihood (Vector E) y_true (Vector ys) = Err ShapeError.
Proof.
  intros Hne HE1 Hy1.
  assert (Hbdim : bdim (length ys) (length E) = Err ShapeError).
  { unfold bdim.
    destruct (Nat.eqb_spec (length ys) (length E)); [congruence |].
    destruct (Nat.eqb_spec (length ys) 1); [congruence |].
    destruct (Nat.eqb_spec (length E) 1); [congruence | reflexivity]. }
  split.
  - unfold negative_log_likelihood. cbv zeta.
    rewrite cumsum_column. cbn [bind].
    rewrite log_column. cbn [bind].
    rewrite sub_row_column by apply log_risk_of_length. cbn [bind].
    unfold tf_mul, broadcast.
    cbn [nrows ncols]. rewrite length_map, length_seq.
    rewrite bdim_one_r. cbn [bind]. now rewrite Hbdim.
  - unfold negative_log_likelihood. cbv zeta.
    change (tf_cumsum (tf_exp (Vector ys)))
      with (Ok (Vector (cumsum_from 0 (map exp ys)))).
    cbn [bind]. rewrite log_vector. cbn [bind].
    change (tf_transpose (Vector ys)) with (Vector ys).
    unfold tf_sub. rewrite binop_vectors by apply log_risk_of_length.
    cbn [bind]. unfold tf_mul, broadcast.
    cbn [nrows ncols]. rewrite length_map, length_seq.
    rewrite bdim_same. cbn [bind]. now rewrite Hbdim.
Qed.

Lemma closure_rejects_misaligned_events_witness :
  negative_log_likelihood (Vector [1; 0; 1]) (Scalar 0) (column [0; 0])
  = Err ShapeError
  /\ negative_log_likelihood (Vector [1; 0; 1]) (Scalar 0) (Vector [0; 0])
     = Err ShapeError.
Proof.
  apply (closure_rejects_misaligned_events [1; 0; 1] [0; 0] (Scalar 0));
    discriminate.
Defined.

End LossExtras.

(** ** More on the loss closure in single precision *)

Section Float32Extras.
Import Tensor Float32.
Local Open Scope R_scope.

Lemma broadcast32_all (f : f32 -> f32 -> f32) (P Q S : f32 -> Prop)
      (a b t : tensor32) :
  (forall x y, P x -> Q y -> S (f x y)) ->
  P (Fin 0) -> Q (Fin 0) ->
  all_entries P a -> all_entries Q b ->
  broadcast32 f a b = Ok t ->
  all_entries S t.
Proof.
  intros Hf HP HQ Ha Hb. unfold broadcast32.
  destruct (bdim (nrows32 a) (nrows32 b)) as [r |]; [| discriminate].
  destruct (bdim (ncols32 a) (ncols32 b)) as [c |]; [| discriminate].
  cbn [bind]. intros [= <-].
  assert (Hcell : forall i j, S (bcell32 f a b i j))
    by (intros i j; now apply (bcell32_all f P Q S)).
  destruct (Nat.max (rank32 a) (rank32 b)) as [| [| k]]; simpl.
  - apply Hcell.
  - apply Forall_map_seq. intros j. apply Hcell.
  - apply Forall_map_seq. intros i. apply Forall_map_seq. intros j.
    apply Hcell.
Qed.

Lemma fsum_zeros (rnd : R -> R) (xs : list f32) :
  Forall (fun z => z = Fin 0) xs -> fsum rnd xs = Fin 0.
Proof.
  unfold fsum. induction 1 as [| x t -> Ht IH]; [reflexivity |].
  cbn [fold_left fadd]. replace (0 + 0) with 0 by lra.
  now rewrite to_f32_zero.
Qed.

Lemma reduce_sum32_zeros (rnd : R -> R) (t : tensor32) :
  all_entries (fun z => z = Fin 0) t -> reduce_sum32 rnd t = Fin 0.
Proof.
  destruct t as [x | xs | c rows]; simpl.
  - easy.
  - apply fsum_zeros.
  - intros Hrows. apply fsum_zeros. apply Forall_map.
    revert Hrows. apply Forall_impl. intros row. apply fsum_zeros.
Qed.

Lemma finish_zero (rnd : R -> R) : fdiv rnd (fneg (Fin 0)) (Fin 1) = Fin 0.
Proof.
  simpl. destruct (Req_dec_T 1 0); [lra |].
  apply to_f32_tiny.
  replace (- 0 / 1) with 0 by field. rewrite Rabs_R0. left. exact TINY_pos.
Qed.

Section Censored.
Variable rnd : R -> R.
Hypothesis Hrnd : rounding rnd.
Variables (E ys : list R).
Hypothesis HE : length E = length ys.
Hypothesis Hn : (length ys <= 4000)%nat.
Hypothesis Hys : Forall (fun y => Rabs y <= 50) ys.
Hypothesis Hzero : Forall (fun e => e = 0) E.

Lemma censored_indicators : Forall (fun e => e = 0 \/ e = 1) E.
Proof. revert Hzero. apply Forall_impl. intros e He. now left. Qed.

Lemma censored_events : Forall (fun e => e = Fin 0) (map Fin E).
Proof.
  apply Forall_map. revert Hzero. apply Forall_impl. now intros e ->.
Qed.

(** Whatever the layout of the scores, once the scores after transposition
    are bounded by 50 and the logarithms by 128 every masked likelihood is
    zero. *)
Lemma censored_run (y_true y_pred cum : tensor32) :
  returns_a_number rnd (Vector32 (map Fin E)) y_true y_pred ->
  tf_cumsum32 rnd (tf_exp32 rnd y_pred) = Ok cum ->
  all_entries (bounded 50) (tf_transpose32 y_pred) ->
  all_entries (bounded 128) (tf_log32 rnd cum) ->
  negative_log_likelihood32 rnd (Vector32 (map Fin E)) y_true y_pred
  = Ok (Fin 0).
Proof.
  intros (cum' & censored & r & Hcum' & _ & _ & Hrest & Hnll & _)
         Hcum Hscores Hlogs.
  rewrite Hcum in Hcum'. injection Hcum' as <-.
  rewrite Hnll. f_equal.
  destruct (tf_sub32 rnd (tf_transpose32 y_pred) (tf_log32 rnd cum))
    as [u |] eqn:Hu; cbn [bind] in Hrest; [| discriminate].
  assert (HU : all_entries (bounded 256) u).
  { apply (broadcast32_all (fsub rnd) (bounded 50) (bounded 128) _ _ _ _
             (fsub_moderate rnd Hrnd)
             (bounded_zero 50 ltac:(lra)) (bounded_zero 128 ltac:(lra))
             Hscores Hlogs Hu). }
  assert (HC : all_entries (fun z => z = Fin 0) censored).
  { apply (broadcast32_all (fmul rnd) (bounded 256) (fun e => e = Fin 0)
             (fun z => z = Fin 0) u (Vector32 (map Fin E)) censored);
      [| apply bounded_zero; lra | reflexivity | exact HU
       | exact censored_events | exact Hrest].
    intros x y (a & -> & _) ->. simpl.
    rewrite Rmult_0_r. apply to_f32_zero. }
  rewrite (reduce_sum32_zeros rnd censored HC). apply finish_zero.
Qed.

End Censored.

(** When no event is observed the loss is zero, for moderate scores: with
    a rounding that keeps the order and the numbers of the format, at most
    4000 patients and scores between -50 and 50. *)
Theorem closure32_is_zero_without_events (rnd : R -> R) (E ys : list R)
        (y_true : tensor32) :
  rounding rnd ->
  length E = length ys ->
  (length ys <= 4000)%nat ->
  Forall (fun y => Rabs y <= 50) ys ->
  Forall (fun e => e = 0) E ->
  negative_log_likelihood32 rnd (Vector32 (map Fin E)) y_true
                            (Vector32 (map Fin ys)) = Ok (Fin 0)
  /\ negative_log_likelihood32 rnd (Vector32 (map Fin E)) y_true
                               (column32 (map Fin ys)) = Ok (Fin 0).
Proof.
  intros Hrnd HE Hn Hys Hzero.
  pose proof (censored_indicators E Hzero) as Hind.
  pose proof (logs_bounded rnd Hrnd E ys HE Hn Hys) as Hlogs.
  split.
  - apply (censored_run rnd Hrnd E Hzero y_true _
             (Vector32 (cumsum_from32 rnd (Fin 0)
                          (map (fexp rnd) (map Fin ys))))).
    + now apply nll32_on_vector.
    + reflexivity.
    + simpl. now apply scores_bounded.
    + exact Hlogs.
  - apply (censored_run rnd Hrnd E Hzero y_true _
             (column32 (cumsum_from32 rnd (Fin 0)
                          (map (fexp rnd) (map Fin ys))))).
    + now apply nll32_on_column.
    + unfold tf_exp32. rewrite tmap32_column. apply cumsum32_column.
    + rewrite transpose32_column. simpl.
      constructor; [| constructor]. now apply scores_bounded.
    + unfold tf_log32. rewrite tmap32_column.
      apply all_entries_column. exact Hlogs.
Qed.

Lemma closure32_is_zero_without_events_witness :
  negative_log_likelihood32 (fun x => x) (Vector32 [Fin 0; Fin 0])
                            (Scalar32 (Fin 0)) (Vector32 [Fin 1; Fin 2])
  = Ok (Fin 0)
  /\ negative_log_likelihood32 (fun x => x) (Vector32 [Fin 0; Fin 0])
                               (Scalar32 (Fin 0)) (column32 [Fin 1; Fin 2])
     = Ok (Fin 0).
Proof.
  apply (closure32_is_zero_without_events (fun x => x) [0; 0] [1; 2]
           (Scalar32 (Fin 0))).
  - exact rounding_id.
  - reflexivity.
  - simpl. lia.
  - repeat constructor; rewrite Rabs_pos_eq; lra.
  - repeat constructor.
Defined.

(** The empty batch has loss zero in both layouts, and a prediction without
    a batch axis is rejected by the cumulative sum, whatever the event
    indicators are. *)
Theorem closure32_on_degenerate_batches (rnd : R -> R) (x : f32)
        (E y_true : tensor32) :
  negative_log_likelihood32 rnd (Vector32 []) y_true (column32 [])
  = Ok (Fin 0)
  /\ negative_log_likelihood32 rnd (Vector32 []) y_true (Vector32 [])
     = Ok (Fin 0)
  /\ negative_log_likelihood32 rnd E y_true (Scalar32 x) = Err ShapeError.
Proof.
  split; [| split]; try reflexivity.
  - change (negative_log_likelihood32 rnd (Vector32 []) y_true (column32 []))
      with (Ok (fdiv rnd (fneg (Fin 0)) (Fin 1))).
    now rewrite finish_zero.
  - change (negative_log_likelihood32 rnd (Vector32 []) y_true (Vector32 []))
      with (Ok (fdiv rnd (fneg (Fin 0)) (Fin 1))).
    now rewrite finish_zero.
Qed.

End Float32Extras.

(** ** More on the sort *)

Section SortExtras.
Import Sorting.
Local Open Scope R_scope.

Lemma take_in_range {A : Type} (a : list A) (idx : list nat) :
  Forall (fun i => (i < length a)%nat) idx -> exists l, take a idx = Ok l.
Proof.
  unfold take. induction 1 as [| i t Hi _ [l IH]]; simpl.
  - now exists [].
  - unfold item at 1.
    destruct (nth_error a i) as [x |] eqn:Hx.
    + cbn [bind]. rewrite IH. cbn [bind]. now exists (x :: l).
    + apply nth_error_None in Hx. lia.
Qed.

Lemma take_out_of_range {A : Type} (a : list A) (idx : list nat) (i : nat) :
  In i idx -> (length a <= i)%nat -> take a idx = Err IndexError.
Proof.
  unfold take. intros Hin Hi.
  induction idx as [| j t IH]; [easy |]. simpl.
  unfold item at 1.
  destruct (nth_error a j) as [x |] eqn:Hx; [| reflexivity].
  cbn [bind]. destruct Hin as [-> | Hin].
  - apply nth_error_None in Hi. congruence.
  - now rewrite (IH Hin).
Qed.

Lemma sort_idx_bound (Y : list R) :
  Forall (fun i => (i < length Y)%nat) (sort_idx Y).
Proof.
  apply Forall_forall. intros i Hi.
  eapply Permutation_in in Hi; [| apply sort_idx_perm].
  apply in_seq in Hi. lia.
Qed.

(** An array with fewer entries than the times makes the indexing raise:
    the sort ends in [IndexError]. *)
Theorem sort_step_raises_on_short_array (d : arrays) :
  (length (X_of d) < length (Y_of d))%nat
  \/ (length (E_of d) < length (Y_of d))%nat ->
  sort_step d = Err IndexError.
Proof.
  intros Hshort.
  assert (Hlast : In (length (Y_of d) - 1)%nat (sort_idx (Y_of d))).
  { eapply Permutation_in; [symmetry; apply sort_idx_perm |].
    apply in_seq. lia. }
  unfold sort_step. cbv zeta.
  destruct (Nat.lt_ge_cases (length (X_of d)) (length (Y_of d))) as [HX | HX].
  - rewrite (take_out_of_range (X_of d) _ _ Hlast) by lia. reflexivity.
  - destruct (take_in_range (X_of d) (sort_idx (Y_of d))) as [X' ->].
    { eapply Forall_impl; [| apply sort_idx_bound]. simpl. intros; lia. }
    destruct (take_sort_idx (Y_of d)) as (Y' & -> & _). cbn [bind].
    rewrite (take_out_of_range (E_of d) _ _ Hlast) by lia. reflexivity.
Qed.

Lemma sort_step_raises_on_short_array_witness :
  sort_step {| X_of := [[0]; [1]]; Y_of := [1; 2]; E_of := [1] |}
  = Err IndexError.
Proof.
  apply (sort_step_raises_on_short_array
           {| X_of := [[0]; [1]]; Y_of := [1; 2]; E_of := [1] |}).
  right. simpl. lia.
Defined.

(** Arrays longer than the times are cut without an error: the sort
    succeeds, every sorted array has as many entries as there are times, and
    the rows and indicators beyond that length are gone. *)
Theorem sort_step_drops_extra_rows (d : arrays) :
  (length (Y_of d) <= length (X_of d))%nat ->
  (length (Y_of d) <= length (E_of d))%nat ->
  exists s,
    sort_step d = Ok s
    /\ length (X_of s) = length (Y_of d)
    /\ length (Y_of s) = length (Y_of d)
    /\ length (E_of s) = length (Y_of d)
    /\ (forall x, In x (X_of s) -> In x (firstn (length (Y_of d)) (X_of d)))
    /\ (forall e, In e (E_of s) -> In e (firstn (length (Y_of d)) (E_of d))).
Proof.
  intros HX HE.
  pose proof (sort_idx_bound (Y_of d)) as Hbound.
  pose proof (Permutation_length (sort_idx_perm (Y_of d))) as Hlen.
  rewrite length_seq in Hlen.
  destruct (take_in_range (X_of d) (sort_idx (Y_of d))) as [X' HX'].
  { eapply Forall_impl; [| exact Hbound]. simpl. intros; lia. }
  destruct (take_in_range (E_of d) (sort_idx (Y_of d))) as [E' HE'].
  { eapply Forall_impl; [| exact Hbound]. simpl. intros; lia. }
  destruct (take_sort_idx (Y_of d)) as (Y' & HY' & _).
  assert (Hkept : forall (A : Type) (a a' : list A),
            take a (sort_idx (Y_of d)) = Ok a' ->
            forall x, In x a' -> In x (firstn (length (Y_of d)) a)).
  { intros A a a' Ha x Hx.
    apply In_nth_error in Hx as [k Hk].
    assert (Hk' : (k < length (sort_idx (Y_of d)))%nat).
    { rewrite <- (take_length _ _ _ Ha). apply nth_error_Some. congruence. }
    destruct (nth_error (sort_idx (Y_of d)) k) as [i |] eqn:Hi;
      [| apply nth_error_None in Hi; lia].
    rewrite (take_lookup _ _ _ Ha k i Hi) in Hk.
    assert (Hin : (i < length (Y_of d))%nat).
    { apply (proj1 (Forall_forall _ _) Hbound). eapply nth_error_In; eassumption. }
    apply (nth_error_In _ i). now rewrite nth_error_firstn, (proj2 (Nat.ltb_lt _ _) Hin). }
  exists {| X_of := X'; Y_of := Y'; E_of := E' |}. cbn [X_of Y_of E_of].
  split; [unfold sort_step; cbv zeta; now rewrite HX', HY', HE' |].
  rewrite (take_length _ _ _ HX'), (take_length _ _ _ HY'),
    (take_length _ _ _ HE').
  repeat split; try exact Hlen; now apply Hkept.
Qed.

Lemma sort_step_drops_extra_rows_witness :
  exists s,
    sort_step {| X_of := [[0]; [1]]; Y_of := [1]; E_of := [1; 0] |} = Ok s
    /\ length (X_of s) = 1%nat.
Proof.
  destruct (sort_step_drops_extra_rows
              {| X_of := [[0]; [1]]; Y_of := [1]; E_of := [1; 0] |})
    as (s & Hs & HX & _); [simpl; lia | simpl; lia |].
  exists s. split; assumption.
Defined.

Lemma insert_last {K : Type} (leb : K -> K -> bool) (p : K * nat)
      (l : list (K * nat)) :
  Forall (fun q => leb (fst p) (fst q) = false) l ->
  insert leb p l = l ++ [p].
Proof.
  induction 1 as [| q t Hq _ IH]; simpl; [reflexivity |].
  now rewrite Hq, IH.
Qed.

Lemma sort_pairs_descending {K : Type} (leb : K -> K -> bool)
      (l : list (K * nat)) :
  StronglySorted (fun p q => leb (fst p) (fst q) = false) l ->
  sort_pairs leb l = rev l.
Proof.
  induction 1 as [| p t _ IH Hp]; simpl; [reflexivity |].
  rewrite IH. apply insert_last. apply Forall_rev. exact Hp.
Qed.

Lemma enumerate_descending (Y : list R) :
  forall start,
  StronglySorted Rgt Y ->
  StronglySorted (fun p q => Rleb (fst p) (fst q) = false)
                 (combine Y (seq start (length Y))).
Proof.
  induction Y as [| y t IH]; intros start Hs; simpl; [constructor |].
  inversion Hs as [| ? ? Ht Hy]; subst.
  constructor; [now apply IH |].
  apply Forall_forall. intros [k i] Hin. simpl.
  apply in_combine_l in Hin.
  pose proof (proj1 (Forall_forall _ _) Hy k Hin) as Hgt.
  unfold Rleb. destruct (Rle_dec y k); [lra | reflexivity].
Qed.

(** Times that are already strictly decreasing are left as they are: the
    index array is 0, 1, ..., n-1 and the sort returns its input. *)
Theorem sort_step_keeps_descending_input (d : arrays) :
  length (X_of d) = length (Y_of d) ->
  length (E_of d) = length (Y_of d) ->
  StronglySorted Rgt (Y_of d) ->
  sort_idx (Y_of d) = seq 0 (length (Y_of d)) /\ sort_step d = Ok d.
Proof.
  intros HX HE Hs.
  assert (Hidx : sort_idx (Y_of d) = seq 0 (length (Y_of d))).
  { unfold sort_idx, argsort.
    rewrite (sort_pairs_descending Rleb) by now apply enumerate_descending.
    now rewrite map_rev, rev_involutive, enumerate_snd. }
  split; [exact Hidx |].
  unfold sort_step. cbv zeta. rewrite Hidx.
  rewrite <- HX at 1. rewrite take_all. cbn [bind].
  rewrite take_all. cbn [bind].
  rewrite <- HE. rewrite take_all. cbn [bind].
  now destruct d.
Qed.

Lemma sort_step_keeps_descending_input_witness :
  sort_idx [2; 1] = seq 0 2
  /\ sort_step {| X_of := [[0]; [1]]; Y_of := [2; 1]; E_of := [1; 0] |}
     = Ok {| X_of := [[0]; [1]]; Y_of := [2; 1]; E_of := [1; 0] |}.
Proof.
  apply (sort_step_keeps_descending_input
           {| X_of := [[0]; [1]]; Y_of := [2; 1]; E_of := [1; 0] |});
    [reflexivity | reflexivity |].
  repeat constructor. simpl. lra.
Defined.

End SortExtras.

(** ** More on the directory checks and the loading *)

Section FilesExtras.
Import Files.

(** Once the checks have passed, passing them again changes nothing. *)
Theorem check_directories_twice (w : world) :
  path_exists PATH_DATA w = true ->
  exists w1,
    check_directories w = (Ok tt, w1)
    /\ check_directories w1 = (Ok tt, w1).
Proof.
  intros Hd.
  destruct (check_directories_ok w Hd) as (w1 & Hcheck & _ & Hd1 & Hm1 & _).
  exists w1. split; [exact Hcheck |].
  unfold check_directories. now rewrite Hd1, Hm1.
Qed.

Lemma check_directories_twice_witness :
  exists w1,
    check_directories only_data_directory = (Ok tt, w1)
    /\ check_directories w1 = (Ok tt, w1).
Proof.
  apply (check_directories_twice only_data_directory).
  apply path_exists_true. unfold only_data_directory. cbn [files].
  rewrite lookup_singleton_eq. eauto.
Defined.

(** After the checks, the directory the checkpoint file goes to exists. *)
Theorem checkpoint_directory_exists (w : world) :
  path_exists PATH_DATA w = true ->
  exists w1,
    check_directories w = (Ok tt, w1)
    /\ removelast Training.checkpoint_file = PATH_MODELS
    /\ path_exists (removelast Training.checkpoint_file) w1 = true.
Proof.
  intros Hd.
  destruct (check_directories_ok w Hd) as (w1 & Hcheck & _ & _ & Hm1 & _).
  exists w1. split; [exact Hcheck |]. split; [reflexivity | exact Hm1].
Qed.

Lemma checkpoint_directory_exists_witness :
  exists w1,
    check_directories only_data_directory = (Ok tt, w1)
    /\ removelast Training.checkpoint_file = PATH_MODELS
    /\ path_exists (removelast Training.checkpoint_file) w1 = true.
Proof.
  apply (checkpoint_directory_exists only_data_directory).
  apply path_exists_true. unfold only_data_directory. cbn [files].
  rewrite lookup_singleton_eq. eauto.
Defined.

Lemma np_load_present (file : path) (t : Tensor.tensor) (w : world) :
  files w !! file = Some (NpyFile t) ->
  np_load file w
  = (Ok t, {| files := files w; reads := reads w ++ [file];
              stdout := stdout w |}).
Proof. intros H. unfold np_load. now rewrite H. Qed.

(** With the data directory and the six array files in place, the loading
    succeeds, returns the six arrays, reads exactly the six files in source
    order and nothing else, and leaves every array file as it was. *)
Theorem load_dataset_reads_six_files
        (w : world) (x_train e_train y_train x_test e_test y_test : Tensor.tensor) :
  path_exists PATH_DATA w = true ->
  files w !! datasets "X_train_1000.npy" = Some (NpyFile x_train) ->
  files w !! datasets "E_train_1000.npy" = Some (NpyFile e_train) ->
  files w !! datasets "Y_train_1000.npy" = Some (NpyFile y_train) ->
  files w !! datasets "X_test_200.npy" = Some (NpyFile x_test) ->
  files w !! datasets "E_test_200.npy" = Some (NpyFile e_test) ->
  files w !! datasets "Y_test_200.npy" = Some (NpyFile y_test) ->
  exists w',
    load_dataset w
    = (Ok {| X_train := x_train; E_train := e_train; Y_train := y_train;
             X_test := x_test; E_test := e_test; Y_test := y_test |}, w')
    /\ reads w' = reads w ++ array_files
    /\ (forall file, file <> PATH_MODELS -> files w' !! file = files w !! file).
Proof.
  intros Hd H1 H2 H3 H4 H5 H6.
  destruct (check_directories_ok w Hd) as (w1 & Hcheck & Hr & _ & _ & Hf).
  assert (Hsame : forall file, file <> PATH_MODELS ->
                  files w1 !! file = files w !! file).
  { intros file Hne. rewrite Hf.
    destruct (path_exists PATH_MODELS w); [reflexivity |].
    now rewrite lookup_insert_ne. }
  unfold load_dataset, and_then at 1. rewrite Hcheck.
  unfold load_arrays, and_then.
  rewrite (np_load_present _ x_train) by (rewrite Hsame; [exact H1 | discriminate]).
  rewrite (np_load_present _ e_train) by (cbn [files]; rewrite Hsame; [exact H2 | discriminate]).
  rewrite (np_load_present _ y_train) by (cbn [files]; rewrite Hsame; [exact H3 | discriminate]).
  rewrite (np_load_present _ x_test) by (cbn [files]; rewrite Hsame; [exact H4 | discriminate]).
  rewrite (np_load_present _ e_test) by (cbn [files]; rewrite Hsame; [exact H5 | discriminate]).
  rewrite (np_load_present _ y_test) by (cbn [files]; rewrite Hsame; [exact H6 | discriminate]).
  eexists. split; [reflexivity |]. cbn [reads files]. split.
  - rewrite Hr. unfold array_files. cbn [map]. now rewrite <- !app_assoc.
  - exact Hsame.
Qed.

Lemma load_dataset_reads_six_files_witness :
  exists w',
    load_dataset (complete_world (Tensor.Vector []))
    = (Ok {| X_train := Tensor.Vector []; E_train := Tensor.Vector [];
             Y_train := Tensor.Vector []; X_test := Tensor.Vector [];
             E_test := Tensor.Vector []; Y_test := Tensor.Vector [] |}, w')
    /\ reads w' = array_files.
Proof.
  destruct (load_dataset_reads_six_files (complete_world (Tensor.Vector []))
              (Tensor.Vector []) (Tensor.Vector []) (Tensor.Vector [])
              (Tensor.Vector []) (Tensor.Vector []) (Tensor.Vector []))
    as (w' & Hload & Hreads & _);
    try (apply path_exists_true; eexists); try (vm_compute; reflexivity).
  exists w'. split; assumption.
Defined.

End FilesExtras.

(** ** More on batches, epochs and the checkpoint *)

Section BatchExtras.
Import Training.
Context {A : Type}.

Lemma slices_concat (b : nat) :
  (0 < b)%nat ->
  forall fuel (l : list A), (length l <= fuel)%nat ->
  concat (slices fuel b l) = l
  /\ Forall (fun s => (0 < length s <= b)%nat) (slices fuel b l).
Proof.
  intros Hb. induction fuel as [| fuel IH]; intros l Hl.
  - destruct l; [split; [reflexivity | constructor] | simpl in Hl; lia].
  - destruct l as [| x t]; [split; [reflexivity | constructor] |].
    cbn [slices].
    destruct (IH (skipn b (x :: t))) as [Hcat Hsizes].
    { rewrite length_skipn. simpl in *. lia. }
    split.
    + cbn [concat]. rewrite Hcat. apply firstn_skipn.
    + constructor; [| exact Hsizes].
      rewrite length_firstn. simpl. lia.
Qed.

End BatchExtras.

Section FitExtras.
Import Training.
Variables (model sample : Type).
Variable train_step : model -> list sample -> model * loss_value.
Variable shuffled : nat -> list sample -> list sample.
Variable file : path.
Variable d0 : gmap path model.

Local Abbreviation script_cbs best :=
  [TerminateOnNaN; ModelCheckpoint file true Min best].

Let run := run_batches model sample train_step.
Let loop := fit_loop model sample train_step shuffled.

(** Without shuffling, the batches of an epoch are the data cut into
    consecutive pieces: joined again they give the data, and every batch has
    between one and [batch_size] samples. *)
Theorem epoch_batches_cover_the_data (args : fit_args) (data : list sample)
        (epoch : nat) :
  shuffle args = false -> batch_size args <> 0%nat ->
  concat (epoch_batches sample shuffled args data epoch) = data
  /\ Forall (fun b => (0 < length b <= batch_size args)%nat)
            (epoch_batches sample shuffled args data epoch).
Proof.
  intros Hs Hb. unfold epoch_batches, make_batches. rewrite Hs.
  apply slices_concat; lia.
Qed.

(** The loop writes to the checkpoint file and to no other file. *)
Lemma fit_loop_frame (args : fit_args) (data : list sample) :
  forall remaining epoch st st',
  (exists best, callbacks st = script_cbs best) ->
  loop args data remaining epoch st = Ok st' ->
  forall f, f <> file -> disk st' !! f = disk st !! f.
Proof.
  induction remaining as [| n IH]; intros epoch st st' [best Hcbs] Hloop f Hf.
  - simpl in Hloop. now injection Hloop as <-.
  - unfold loop in Hloop. cbn [fit_loop] in Hloop. fold loop in Hloop.
    destruct (run_batches model sample train_step (callbacks st)
                (epoch_batches sample shuffled args data epoch) (current st) None)
      as [[m' [l |]] stop]; [| discriminate].
    rewrite Hcbs, epoch_end_script in Hloop.
    destruct (less l best), stop;
      try (injection Hloop as <-; cbn [disk];
           rewrite ?lookup_insert_ne by congruence; reflexivity).
    + erewrite IH; [| | exact Hloop | exact Hf]; cbn [disk callbacks]; eauto.
      now rewrite lookup_insert_ne by congruence.
    + erewrite IH; [| | exact Hloop | exact Hf]; cbn [disk callbacks]; eauto.
Qed.

(** When no training step logs a non-finite loss, no epoch does. *)
Lemma run_batches_finite (cbs : list callback) :
  (forall m b, non_finite (snd (train_step m b)) = false) ->
  forall batches m logs m' l stop,
  match logs with Some l0 => non_finite l0 = false | None => True end ->
  run cbs batches m logs = (m', Some l, stop) ->
  non_finite l = false.
Proof.
  intros Hfin. induction batches as [| b rest IH]; intros m logs m' l stop Hlogs Hrun.
  - simpl in Hrun. injection Hrun as _ -> _. exact Hlogs.
  - simpl in Hrun. pose proof (Hfin m b) as Hb.
    destruct (train_step m b) as [m1 l1]. simpl in Hb.
    destruct (fold_left _ cbs false).
    + injection Hrun as _ <- _. exact Hb.
    + eapply IH; [| exact Hrun]. exact Hb.
Qed.

Lemma fit_loop_finite (args : fit_args) (data : list sample) :
  (forall m b, non_finite (snd (train_step m b)) = false) ->
  forall remaining epoch st st',
  loop args data remaining epoch st = Ok st' ->
  all_finite model (history st) -> all_finite model (history st').
Proof.
  intros Hfin. induction remaining as [| n IH]; intros epoch st st' Hloop Hst.
  - simpl in Hloop. now injection Hloop as <-.
  - unfold loop in Hloop. cbn [fit_loop] in Hloop. fold loop in Hloop.
    destruct (run_batches model sample train_step (callbacks st)
                (epoch_batches sample shuffled args data epoch) (current st) None)
      as [[m' [l |]] stop] eqn:Hrun; [| discriminate].
    assert (Hl : non_finite l = false).
    { eapply (run_batches_finite (callbacks st) Hfin); [| exact Hrun]. exact I. }
    destruct (epoch_end_all model (callbacks st) m' l (disk st)) as [[cbs d] w].
    assert (Hnew : all_finite model
                     (history st ++ [{| loss := l; weights := m'; wrote := w |}])).
    { apply Forall_app. split; [exact Hst | now repeat constructor]. }
    destruct stop.
    + now injection Hloop as <-.
    + eapply IH; [exact Hloop | exact Hnew].
Qed.

(** An epoch that logs minus infinity writes the checkpoint: the file then
    holds the model of that epoch. *)
Lemma fit_loop_minus_infinity (args : fit_args) (data : list sample) :
  (forall epoch, epoch_batches sample shuffled args data epoch <> []) ->
  forall remaining epoch st st',
  checkpoint_inv model file d0 st -> all_finite model (history st) ->
  loop args data remaining epoch st = Ok st' ->
  forall e, In e (history st') -> loss e = NegInf ->
  wrote e = true /\ disk st' !! file = Some (weights e).
Proof.
  intros Hbatches.
  induction remaining as [| n IH]; intros epoch st st' Hinv Hfin Hloop e He Hneg.
  - simpl in Hloop. injection Hloop as <-.
    pose proof (proj1 (Forall_forall _ _) Hfin e He) as Hfe.
    cbv beta in Hfe. rewrite Hneg in Hfe. discriminate.
  - pose proof Hinv as (best & Hcbs & _ & _ & Hfile).
    destruct (run_batches_stop model sample train_step file best
                (epoch_batches sample shuffled args data epoch)
                (current st) None (Hbatches epoch)) as (m' & l & Hrun).
    unfold loop in Hloop. cbn [fit_loop] in Hloop. fold loop in Hloop.
    rewrite Hcbs, Hrun in Hloop. rewrite <- Hcbs in Hloop.
    destruct (epoch_end_all model (callbacks st) m' l (disk st))
      as [[cbs d] w] eqn:Hend.
    pose proof (checkpoint_inv_step model file d0 st m' l Hinv Hfin cbs d w Hend)
      as Hinv'.
    destruct (non_finite l) eqn:Hl.
    + injection Hloop as <-. cbn [history disk] in *.
      apply in_app_or in He as [He | [<- | []]].
      * pose proof (proj1 (Forall_forall _ _) Hfin e He) as Hfe.
        cbv beta in Hfe. rewrite Hneg in Hfe. discriminate.
      * cbn [loss] in Hneg. subst l. cbn [wrote weights].
        assert (Hbelow : less NegInf best = true).
        { destruct Hfile as [(-> & _) | (e0 & He0 & _ & <- & _)];
            [reflexivity |].
          pose proof (proj1 (Forall_forall _ _) Hfin e0 He0) as Hf0.
          cbv beta in Hf0.
          destruct (loss e0); try discriminate. reflexivity. }
        rewrite Hcbs, epoch_end_script, Hbelow in Hend.
        injection Hend as _ <- <-. split; [reflexivity |].
        now rewrite lookup_insert_eq.
    + eapply (IH (S epoch)); [exact Hinv' | | exact Hloop | exact He | exact Hneg].
      cbn [history]. apply Forall_app. split; [exact Hfin | now repeat constructor].
Qed.


End FitExtras.

Section TrainingExtras.
Import Sorting Training.
Local Open Scope R_scope.
Variable model : Type.
Variable train_step : model -> list (list R * R) -> model * loss_value.
Variable shuffled : nat -> list (list R * R) -> list (list R * R).
Variable predict : model -> list (list R) -> list R.
Variable concordance_index : list R -> list R -> list R -> R.

Local Abbreviation script_fit loaded m0 data d0 :=
  (fit model (list R * R) train_step shuffled
       (script_fit_args loaded) script_callbacks m0 data d0).

Local Abbreviation initial_state m0 d0 :=
  {| current := m0; callbacks := script_callbacks; disk := d0;
     history := @nil (epoch_log model) |}.

Lemma fit_as_loop (loaded : arrays) (m0 : model) (data : list (list R * R))
      (d0 : gmap path model) (n : nat) :
  X_of loaded <> [] -> epochs (script_fit_args loaded) = n ->
  script_fit loaded m0 data d0
  = fit_loop model (list R * R) train_step shuffled (script_fit_args loaded)
             data n 0 (initial_state m0 d0).
Proof.
  intros HX <-. unfold fit.
  destruct (Nat.eqb_spec (batch_size (script_fit_args loaded)) 0) as [H0 | _];
    [| reflexivity].
  exfalso. cbn in H0. unfold n_patients_train in H0.
  destruct (X_of loaded); [now apply HX | discriminate].
Qed.

Lemma initial_state_inv (m0 : model) (d0 : gmap path model) :
  checkpoint_inv model checkpoint_file d0 (initial_state m0 d0).
Proof.
  exists PosInf. cbn [callbacks history disk].
  split; [reflexivity |]. split; [constructor |].
  split; [intros [| k] e Hk; discriminate |].
  left. repeat split. constructor.
Qed.

Lemma script_batches_nonempty (loaded : arrays) (data : list (list R * R)) :
  data <> [] ->
  forall epoch,
  epoch_batches (list R * R) shuffled (script_fit_args loaded) data epoch <> [].
Proof.
  intros Hdata epoch. unfold epoch_batches. cbn [shuffle script_fit_args].
  now apply make_batches_nonempty.
Qed.

(** The fit of the script changes one file on the disk at most, the
    checkpoint file: every other file is as it was before the fit. *)
Theorem fit_writes_only_the_checkpoint (loaded : arrays) (m0 : model)
        (data : list (list R * R)) (d0 : gmap path model) :
  X_of loaded <> [] -> data <> [] ->
  exists st,
    script_fit loaded m0 data d0 = Ok st
    /\ forall f, f <> checkpoint_file -> disk st !! f = d0 !! f.
Proof.
  intros HX Hdata.
  destruct (fit_script_spec model train_step shuffled loaded m0 data d0 HX Hdata)
    as (st & Hfit & _).
  exists st. split; [exact Hfit |].
  rewrite (fit_as_loop loaded m0 data d0 _ HX eq_refl) in Hfit.
  intros f Hf.
  apply (fit_loop_frame model (list R * R) train_step shuffled checkpoint_file
           _ _ _ _ _ st) with (f := f) in Hfit; [exact Hfit | | exact Hf].
  now exists PosInf.
Qed.

(** When no training step logs NaN or an infinity, all 200 epochs run and
    every epoch has a finite loss. *)
Theorem fit_runs_all_epochs_when_finite (loaded : arrays) (m0 : model)
        (data : list (list R * R)) (d0 : gmap path model) :
  (forall m b, non_finite (snd (train_step m b)) = false) ->
  X_of loaded <> [] -> data <> [] ->
  exists st,
    script_fit loaded m0 data d0 = Ok st
    /\ length (history st) = 200%nat
    /\ Forall (fun e => non_finite (loss e) = false) (history st).
Proof.
  intros Hfin HX Hdata.
  destruct (fit_script_spec model train_step shuffled loaded m0 data d0 HX Hdata)
    as (st & Hfit & Hstop & _).
  exists st. split; [exact Hfit |].
  assert (Hall : all_finite model (history st)).
  { rewrite (fit_as_loop loaded m0 data d0 _ HX eq_refl) in Hfit.
    eapply (fit_loop_finite model (list R * R) train_step shuffled _ _ Hfin);
      [exact Hfit | constructor]. }
  split; [| exact Hall].
  destruct (stops_at_non_finite_early _ _ Hstop) as [Hlen | (l & Hl & Hnf)].
  - now rewrite length_map in Hlen.
  - rewrite nth_error_map in Hl.
    destruct (nth_error (history st) (length (map loss (history st)) - 1))
      as [e |] eqn:He; [| discriminate].
    simpl in Hl. injection Hl as <-.
    apply nth_error_In in He.
    pose proof (proj1 (Forall_forall _ _) Hall e He) as Hfe.
    cbv beta in Hfe. congruence.
Qed.

(** An epoch that logs minus infinity ends the training with its model in
    the checkpoint file, and the evaluation is computed with that model. *)
Theorem minus_infinity_is_checkpointed (loaded : arrays) (m0 : model)
        (data : list (list R * R)) (d0 : gmap path model) :
  X_of loaded <> [] -> data <> [] ->
  exists st,
    script_fit loaded m0 data d0 = Ok st
    /\ forall e, In e (history st) -> loss e = NegInf ->
       wrote e = true
       /\ disk st !! checkpoint_file = Some (weights e)
       /\ forall train test,
            evaluate model predict concordance_index (disk st) train test
            = Ok (c_index model predict concordance_index (weights e) train,
                  c_index model predict concordance_index (weights e) test).
Proof.
  intros HX Hdata.
  destruct (fit_script_spec model train_step shuffled loaded m0 data d0 HX Hdata)
    as (st & Hfit & _).
  exists st. split; [exact Hfit |].
  rewrite (fit_as_loop loaded m0 data d0 _ HX eq_refl) in Hfit.
  intros e He Hneg.
  destruct (fit_loop_minus_infinity model (list R * R) train_step shuffled
              checkpoint_file d0 (script_fit_args loaded) data
              (script_batches_nonempty loaded data Hdata)
              _ _ _ st (initial_state_inv m0 d0) (Forall_nil _) Hfit e He Hneg)
    as [Hw Hd].
  split; [exact Hw |]. split; [exact Hd |].
  intros train test. unfold evaluate, load_model. now rewrite Hd.
Qed.

End TrainingExtras.

(** ** The checkpoint that is reloaded *)

Section FreshCheckpoint.
Import Training.
Variables (model sample : Type).
Variable train_step : model -> list sample -> model * loss_value.
Variable shuffled : nat -> list sample -> list sample.
Variable file : path.

Local Abbreviation fresh_cbs := [TerminateOnNaN; ModelCheckpointFresh file true Min].



End FreshCheckpoint.

Section CheckpointClaims.
Import Sorting Training.
Local Open Scope R_scope.
Variable model : Type.
Variable train_step : model -> list (list R * R) -> model * loss_value.
Variable shuffled : nat -> list (list R * R) -> list (list R * R).
Variable predict : model -> list (list R) -> list R.
Variable concordance_index : list R -> list R -> list R -> R.

Local Abbreviation fit_with cbs loaded m0 data d0 :=
  (fit model (list R * R) train_step shuffled
       (script_fit_args loaded) cbs m0 data d0).

Lemma stops_at_non_finite_nonempty (n : nat) (ls : list loss_value) :
  stops_at_non_finite (S n) ls -> ls <> [].
Proof. inversion 1; discriminate. Qed.

(** A state that satisfies the invariant of the checkpoint and has an epoch
    that wrote, or an epoch with a loss below plus infinity, reloads the
    best model of the run. *)
Lemma checkpoint_inv_reloads (d0 : gmap path model) (st : fit_state model)
      (e0 : epoch_log model) :
  checkpoint_inv model checkpoint_file d0 st ->
  In e0 (history st) ->
  wrote e0 = true \/ less (loss e0) PosInf = true ->
  written_on_improvement model (history st)
  /\ best_is_reloaded model predict concordance_index st.
Proof.
  intros (best & _ & Hbest & Hwrote & Hfile) He0 Hcase.
  split; [exact Hwrote |].
  destruct Hfile as [(-> & Hnone & _) | (e & He & Hw & <- & Hd)].
  - exfalso. destruct Hcase as [Hw | Hl].
    + pose proof (proj1 (Forall_forall _ _) Hnone e0 He0) as H.
      cbv beta in H. congruence.
    + pose proof (proj1 (Forall_forall _ _) Hbest e0 He0) as H.
      cbv beta in H. congruence.
  - exists e. repeat split; try assumption.
    intros train test. unfold evaluate, load_model. now rewrite Hd.
Qed.


(** When every training step logs a finite loss, the checkpoint that starts
    with plus infinity as its best value holds after the fit the model of
    an epoch that wrote it, no epoch has a loss below the loss of that
    epoch, and the evaluation computes both concordance indices with that
    model. *)
Theorem finite_run_reloads_its_best_model (loaded : arrays) (m0 : model)
        (data : list (list R * R)) (d0 : gmap path model) :
  (forall m b, non_finite (snd (train_step m b)) = false) ->
  X_of loaded <> [] -> data <> [] ->
  exists st,
    fit_with script_callbacks loaded m0 data d0 = Ok st
    /\ best_is_reloaded model predict concordance_index st.
Proof.
  intros Hfin HX Hdata.
  destruct (fit_script_spec model train_step shuffled loaded m0 data d0 HX Hdata)
    as (st & Hfit & Hstop & Hinv).
  exists st. split; [exact Hfit |].
  assert (Hall : all_finite model (history st)).
  { rewrite (fit_as_loop model train_step shuffled loaded m0 data d0 _ HX eq_refl)
      in Hfit.
    eapply (fit_loop_finite model (list R * R) train_step shuffled _ _ Hfin);
      [exact Hfit | constructor]. }
  pose proof (stops_at_non_finite_nonempty _ _ Hstop) as Hne.
  destruct (history st) as [| e0 rest] eqn:Hh; [now contradiction Hne |].
  assert (He0 : In e0 (history st)) by (rewrite Hh; now left).
  apply (checkpoint_inv_reloads d0 st e0 Hinv He0). right.
  apply Forall_inv in Hall.
  destruct (loss e0); try discriminate. reflexivity.
Qed.

End CheckpointClaims.

Section CheckpointWitnesses.
Import Sorting Training.
Local Open Scope R_scope.



Lemma finite_run_reloads_its_best_model_witness :
  exists st,
    fit unit (list R * R) (fun m _ => (m, Finite 0)) (fun _ l => l)
        (script_fit_args one_patient) script_callbacks tt [([0], 1)] ∅
    = Ok st
    /\ best_is_reloaded unit (fun _ _ => []) (fun _ _ _ => 0) st.
Proof.
  apply (finite_run_reloads_its_best_model unit (fun m _ => (m, Finite 0))
           (fun _ l => l) (fun _ _ => []) (fun _ _ _ => 0)
           one_patient tt [([0], 1)] ∅); easy.
Defined.

End CheckpointWitnesses.

Section TrainingExtraWitnesses.
Import Sorting Training.
Local Open Scope R_scope.

Lemma epoch_batches_cover_the_data_witness :
  concat (epoch_batches nat (fun _ l => l)
            {| batch_size := 2; epochs := 1; shuffle := false |}
            [1; 2; 3]%nat 0)
  = [1; 2; 3]%nat.
Proof.
  apply (epoch_batches_cover_the_data nat (fun _ l => l)
           {| batch_size := 2; epochs := 1; shuffle := false |}
           [1; 2; 3]%nat 0); [reflexivity | discriminate].
Defined.

Lemma fit_writes_only_the_checkpoint_witness :
  exists st,
    fit unit (list R * R) (fun m _ => (m, NaN)) (fun _ l => l)
        (script_fit_args one_patient) script_callbacks tt [([0], 1)] ∅ = Ok st
    /\ forall f, f <> checkpoint_file -> disk st !! f = (∅ : gmap path unit) !! f.
Proof.
  apply (fit_writes_only_the_checkpoint unit (fun m _ => (m, NaN))
           (fun _ l => l) one_patient tt [([0], 1)] ∅); easy.
Defined.

Lemma fit_runs_all_epochs_when_finite_witness :
  exists st,
    fit unit (list R * R) (fun m _ => (m, Finite 0)) (fun _ l => l)
        (script_fit_args one_patient) script_callbacks tt [([0], 1)] ∅ = Ok st
    /\ length (history st) = 200%nat.
Proof.
  destruct (fit_runs_all_epochs_when_finite unit (fun m _ => (m, Finite 0))
              (fun _ l => l) one_patient tt [([0], 1)] ∅)
    as (st & Hfit & Hlen & _); [reflexivity | easy | easy |].
  exists st. split; assumption.
Defined.

Lemma minus_infinity_is_checkpointed_witness :
  exists st,
    fit unit (list R * R) (fun m _ => (m, NegInf)) (fun _ l => l)
        (script_fit_args one_patient) script_callbacks tt [([0], 1)] ∅ = Ok st
    /\ forall e, In e (history st) -> loss e = NegInf -> wrote e = true.
Proof.
  destruct (minus_infinity_is_checkpointed unit (fun m _ => (m, NegInf))
              (fun _ l => l) (fun _ _ => []) (fun _ _ _ => 0)
              one_patient tt [([0], 1)] ∅)
    as (st & Hfit & Hneg); [easy | easy |].
  exists st. split; [exact Hfit |].
  intros e He Hl. now destruct (Hneg e He Hl).
Defined.

End TrainingExtraWitnesses.

(** ** The network *)

Section NetworkFacts.
Import Tensor Network.
Local Open Scope R_scope.

(** A [Dense] layer built for [n_in] inputs maps a batch with [n_in] columns
    to a batch with as many rows and one column per unit. *)
Lemma call_dense (n_in units : nat) (act : activation)
      (kernel : list (list R)) (bias : list R) (rows : list (list R)) :
  length kernel = n_in -> length bias = units ->
  exists rows',
    call (Dense units act kernel bias) (Matrix n_in rows)
    = Ok (Matrix units rows')
    /\ length rows' = length rows
    /\ Forall (fun r => length r = units) rows'.
Proof.
  intros HK Hb. unfold call, matmul.
  rewrite HK, Nat.eqb_refl. cbn [bind].
  set (M := map _ rows).
  assert (HM : length M = length rows) by (unfold M; now rewrite length_map).
  unfold broadcast. cbn [nrows ncols rank Nat.max].
  rewrite HM, Hb, bdim_one_r, bdim_same. cbn [bind tmap].
  eexists. split; [reflexivity |]. split.
  - now rewrite !length_map, length_seq.
  - apply Forall_map, Forall_map, Forall_forall. intros i _.
    now rewrite !length_map, length_seq.
Qed.

Lemma single_column (rows : list (list R)) :
  Forall (fun r => length r = 1%nat) rows ->
  Matrix 1 rows = column (map (fun r => nth 0 r 0) rows).
Proof.
  intros H. unfold column. f_equal. rewrite map_map.
  induction H as [| r t Hr _ IH]; [reflexivity |]. simpl. rewrite <- IH.
  destruct r as [| y [| z r]]; try discriminate. reflexivity.
Qed.

(** Whatever the weights are, the model of the script maps a batch of n
    rows of [n_features] covariates to a column of n raw outputs, shape
    (n, 1): this is the prediction the loss closure receives. *)
Theorem predict_returns_a_column
        (n_features : nat) (K1 K2 K3 K4 : list (list R)) (b1 b2 b3 b4 : list R)
        (rows : list (list R)) :
  built n_features (script_model n_features K1 b1 K2 b2 K3 b3 K4 b4) ->
  exists out,
    predict (script_model n_features K1 b1 K2 b2 K3 b3 K4 b4)
            (Matrix n_features rows)
    = Ok (column out)
    /\ length out = length rows
    /\ shape (column out) = [length rows; 1%nat].
Proof.
  intros (HK1 & _ & Hb1 & HK2 & _ & Hb2 & HK3 & _ & Hb3 & HK4 & _ & Hb4 & _).
  unfold script_model. cbn [predict].
  destruct (call_dense n_features n_features relu K1 b1 rows HK1 Hb1)
    as (r1 & -> & Hl1 & _). cbn [bind].
  change (call (Dropout dropout) (Matrix n_features r1))
    with (Ok (Matrix n_features r1)). cbn [bind].
  destruct (call_dense n_features n_nodes relu K2 b2 r1 HK2 Hb2)
    as (r2 & -> & Hl2 & _). cbn [bind].
  change (call (Dropout dropout) (Matrix n_nodes r2))
    with (Ok (Matrix n_nodes r2)). cbn [bind].
  destruct (call_dense n_nodes n_nodes relu K3 b3 r2 HK3 Hb3)
    as (r3 & -> & Hl3 & _). cbn [bind].
  change (call (Dropout dropout) (Matrix n_nodes r3))
    with (Ok (Matrix n_nodes r3)). cbn [bind].
  destruct (call_dense n_nodes 1 linear K4 b4 r3 HK4 Hb4)
    as (r4 & -> & Hl4 & Hcols). cbn [bind].
  change (call (ActivityRegularization l2_reg) (Matrix 1 r4))
    with (Ok (Matrix 1 r4)). cbn [bind].
  exists (map (fun r => nth 0 r 0) r4).
  split; [f_equal; now apply single_column |].
  assert (Hlen : length (map (fun r => nth 0 r 0) r4) = length rows)
    by (rewrite length_map; congruence).
  split; [exact Hlen |].
  unfold column, shape. now rewrite length_map, Hlen.
Qed.

Lemma length_concat_rows (units : nat) (kernel : list (list R)) :
  Forall (fun r => length r = units) kernel ->
  length (concat kernel) = (length kernel * units)%nat.
Proof.
  induction 1 as [| r t Hr _ IH]; [reflexivity |].
  simpl. rewrite length_app, IH, Hr. reflexivity.
Qed.

(** The number of weights of the model of the script, as a function of the
    number of covariates n: n*n + n for the first layer, 48*n + 48 and
    48*48 + 48 for the two hidden layers, 48 + 1 for the output. *)
Theorem count_params_of_script_model
        (n_features : nat) (K1 K2 K3 K4 : list (list R)) (b1 b2 b3 b4 : list R) :
  built n_features (script_model n_features K1 b1 K2 b2 K3 b3 K4 b4) ->
  count_params (script_model n_features K1 b1 K2 b2 K3 b3 K4 b4)
  = (n_features * n_features + 49 * n_features + 2449)%nat.
Proof.
  intros (HK1 & HR1 & Hb1 & HK2 & HR2 & Hb2 & HK3 & HR3 & Hb3
          & HK4 & HR4 & Hb4 & _).
  unfold script_model. cbn [count_params].
  rewrite (length_concat_rows _ _ HR1), (length_concat_rows _ _ HR2),
    (length_concat_rows _ _ HR3), (length_concat_rows _ _ HR4).
  rewrite HK1, HK2, HK3, HK4, Hb1, Hb2, Hb3, Hb4.
  unfold n_nodes. lia.
Qed.

Lemma zero_kernel_shape (rows cols : nat) :
  length (zero_kernel rows cols) = rows
  /\ Forall (fun r => length r = cols) (zero_kernel rows cols).
Proof.
  unfold zero_kernel. split; [apply repeat_length |].
  apply Forall_forall. intros r Hr. apply repeat_spec in Hr. subst.
  apply repeat_length.
Qed.

Lemma zero_model_built : built 1 zero_model.
Proof.
  unfold zero_model, script_model. cbn [built].
  repeat split; try apply repeat_length; apply zero_kernel_shape.
Qed.

Lemma predict_returns_a_column_witness :
  exists out,
    predict zero_model (Matrix 1 [[1]; [2]; [3]]) = Ok (column out)
    /\ length out = 3%nat
    /\ shape (column out) = [3; 1]%nat.
Proof.
  apply (predict_returns_a_column 1 _ _ _ _ _ _ _ _ [[1]; [2]; [3]]).
  exact zero_model_built.
Defined.

Lemma count_params_of_script_model_witness :
  count_params zero_model = (1 * 1 + 49 * 1 + 2449)%nat.
Proof.
  apply (count_params_of_script_model 1). exact zero_model_built.
Defined.

End NetworkFacts.

(** ** Which arrays the statements read *)

Section FlowFacts.
Import Script.
Local Open Scope string_scope.

(** The statements after the sort read the sorted arrays: the [compile]
    call that builds the loss closure (line 162) and the training metric
    (line 206) see the [E_train] of line 97, the fit and the prediction see
    the [X_train] of line 95 and the [Y_train] of line 96.  The batch size
    and the width of the model (lines 65 and 66) are computed from
    [X_train] as loaded. *)
Theorem statements_read_sorted_arrays :
  readers "E_train" script = [(97, Some 56); (162, Some 97); (206, Some 97)]
  /\ readers "X_train" script
     = [(65, Some 55); (66, Some 55); (95, Some 55); (191, Some 95);
        (205, Some 95)]
  /\ readers "Y_train" script
     = [(86, Some 57); (94, Some 86); (96, Some 86); (191, Some 96);
        (206, Some 96)]
  /\ readers "sort_idx" script = [(95, Some 94); (96, Some 94); (97, Some 94)].
Proof. repeat split; vm_compute; reflexivity. Qed.

(** Six names are bound and never read: three imports ([StandardScaler],
    [plt] and [h5py]), the path of the HDF5 data file, the momentum
    hyperparameter and the history that [fit] returns. *)
Theorem names_never_read :
  never_read script
  = ["StandardScaler"; "plt"; "h5py"; "path_data_file"; "momentum"; "history"].
Proof. vm_compute. reflexivity. Qed.

End FlowFacts.
